(** * brightfield2fish: image normalisation, quantisation and paired crops

    A shallow embedding of [brightfield2fish/data/utils.py].

    - A numpy array is a shape together with its elements in row-major order.
    - Floating-point elements are IEEE 754 binary floats in the executable
      specification of the standard library ([spec_float]); the format is
      chosen by the dtype.
    - Python exceptions are values of [exn]; a computation that can raise
      returns a [result].
    - The module-level generator behind [random.randint] is an explicit
      state threaded through the constructor of [RandomCrop].
    - Arrays that the code updates in place live in a store indexed by
      object identity.
    - numpy 1 and numpy 2 type the product of an array of floats and a
      Python int differently: [float_to_uint] follows numpy 2, and
      [float_to_uint_numpy1] numpy 1. *)

From Stdlib Require Import ZArith Lia Bool String.
From Stdlib Require Import Floats.SpecFloat.
From stdpp Require Import base option list gmap.

Local Open Scope Z_scope.

(** ** Exceptions and results *)

Inductive exn :=
  | ValueError   (* random.randrange on an empty range, reductions of empty arrays *)
  | IndexError.  (* too many indices for array *)

Inductive result (A : Type) :=
  | Ok (a : A)
  | Raise (e : exn).
Arguments Ok {A} a.
Arguments Raise {A} e.

#[global] Instance result_ret : MRet result := fun _ a => Ok a.
#[global] Instance result_bind : MBind result := fun _ _ k r =>
  match r with
  | Ok a => k a
  | Raise e => Raise e
  end.

(** ** Arrays *)

Record ndarray (A : Type) := NdArray {
  shape : list nat;
  data : list A
}.
Arguments NdArray {A} shape data.
Arguments shape {A} _.
Arguments data {A} _.

Definition size_of (sh : list nat) : nat := foldr Nat.mul 1%nat sh.

(** The buffer holds exactly one element per index. *)
Definition well_formed {A} (a : ndarray A) : Prop :=
  length (data a) = size_of (shape a).

(** Position of a multi-index in the row-major buffer; [None] when the index
    has the wrong rank or is out of bounds. *)
Fixpoint ravel (sh idx : list nat) : option nat :=
  match sh, idx with
  | [], [] => Some 0%nat
  | n :: sh', i :: idx' =>
      if (i <? n)%nat
      then option_map (fun r => (i * size_of sh' + r)%nat) (ravel sh' idx')
      else None
  | _, _ => None
  end.

(** [a[idx]] for a full multi-index. *)
Definition item {A} (a : ndarray A) (idx : list nat) : option A :=
  match ravel (shape a) idx with
  | Some k => data a !! k
  | None => None
  end.

(** ** Slices *)

(** [slice(start, stop)] with no step. *)
Record slice := Slice { slice_start : Z; slice_stop : Z }.

(** Python's [slice.indices]: a negative bound counts from the end, and both
    bounds are clipped to the axis. *)
Definition clip_bound (i n : Z) : Z :=
  if i <? 0 then Z.max 0 (i + n) else Z.min i n.

(** First index and number of indices selected on an axis of length [n]. *)
Definition slice_range (sl : slice) (n : nat) : nat * nat :=
  let lo := clip_bound (slice_start sl) (Z.of_nat n) in
  let hi := clip_bound (slice_stop sl) (Z.of_nat n) in
  (Z.to_nat lo, Z.to_nat (hi - lo)).

(** The elements selected by per-axis ranges on the leading axes; the
    remaining axes are kept whole.  Row [i] of an array of shape [n :: sh] is
    the chunk of [size_of sh] elements starting at [i * size_of sh]. *)
Fixpoint take_ranges {A} (ranges : list (nat * nat)) (sh : list nat)
    (d : list A) : list A :=
  match ranges, sh with
  | (lo, len) :: ranges', _ :: sh' =>
      let stride := size_of sh' in
      flat_map
        (fun i => take_ranges ranges' sh' (firstn stride (skipn (i * stride) d)))
        (seq lo len)
  | _, _ => d
  end.

Fixpoint ranges_of (slices : list slice) (sh : list nat) : list (nat * nat) :=
  match slices, sh with
  | sl :: slices', n :: sh' => slice_range sl n :: ranges_of slices' sh'
  | _, _ => []
  end.

(** [X[slices]] for a tuple of slices (basic indexing). *)
Definition getitem_slices {A} (X : ndarray A) (slices : list slice)
    : result (ndarray A) :=
  if (length (shape X) <? length slices)%nat then Raise IndexError
  else
    let ranges := ranges_of slices (shape X) in
    Ok (NdArray (map snd ranges ++ skipn (length ranges) (shape X))
                (take_ranges ranges (shape X) (data X))).

(** ** The random source *)

(** The state of the generator: an unbounded supply of raw draws and the
    number of draws consumed so far. *)
Record rng := Rng { entropy : nat -> Z; cursor : nat }.

(** [random.randint(a, b)]: a uniformly drawn integer [N] with [a <= N <= b];
    [randrange] raises [ValueError] when the range is empty. *)
Definition randint (a b : Z) (g : rng) : result (Z * rng) :=
  if b <? a then Raise ValueError
  else Ok (a + entropy g (cursor g) mod (b - a + 1),
           Rng (entropy g) (S (cursor g))).

(** ** RandomCrop *)

Record RandomCrop := { slices : list slice }.

(** [start = [random.randint(0, s - c) for s, c in zip(array.shape, crop_size)]] *)
Fixpoint draw_start (dims : list (nat * Z)) (g : rng) : result (list Z * rng) :=
  match dims with
  | [] => Ok ([], g)
  | (s, c) :: dims' =>
      '(v, g1) ← randint 0 (Z.of_nat s - c) g;
      '(vs, g2) ← draw_start dims' g1;
      Ok (v :: vs, g2)
  end.

(** [RandomCrop.__init__] *)
Definition RandomCrop_init {A} (array : ndarray A) (crop_size : list Z)
    (g : rng) : result (RandomCrop * rng) :=
  '(start, g') ← draw_start (zip (shape array) crop_size) g;
  Ok ({| slices := map (fun '(s, c) => Slice s (s + c)) (zip start crop_size) |},
      g').

(** [RandomCrop.crop] *)
Definition crop {A} (self : RandomCrop) (X : ndarray A) : result (ndarray A) :=
  getitem_slices X (slices self).


(** The start offsets of the stored slices, as positions. *)
Definition start_offsets (self : RandomCrop) : list nat :=
  map (fun sl => Z.to_nat (slice_start sl)) (slices self).

(** Shifts the leading components of an index by the given offsets. *)
Fixpoint offset_index (start idx : list nat) : list nat :=
  match start, idx with
  | s :: start', i :: idx' => (s + i)%nat :: offset_index start' idx'
  | _, _ => idx
  end.

(** The life of an instance after construction: a sequence of [crop] calls.
    A call returns its result and leaves the instance in its next state. *)
Definition crop_call {A} (self : RandomCrop) (X : ndarray A)
    : RandomCrop * result (ndarray A) :=
  (self, crop self X).

Fixpoint crop_calls {A} (self : RandomCrop) (Xs : list (ndarray A)) : RandomCrop :=
  match Xs with
  | [] => self
  | X :: Xs' => crop_calls (fst (crop_call self X)) Xs'
  end.

(** Every range lies inside its axis. *)
Inductive ranges_fit : list (nat * nat) -> list nat -> Prop :=
  | ranges_fit_nil sh : ranges_fit [] sh
  | ranges_fit_cons lo len rs n sh :
      (lo + len <= n)%nat -> ranges_fit rs sh ->
      ranges_fit ((lo, len) :: rs) (n :: sh).

Definition cropped_shape (rs : list (nat * nat)) (sh : list nat) : list nat :=
  map snd rs ++ skipn (length rs) sh.


(** ** dtypes *)

(** The dtypes of the development are seven scalar types of numpy, as a
    caller names them: [np.float16], [np.float32], [np.float64], [np.uint8],
    [np.uint16], [np.uint32] and [np.uint64].  Another spelling of a dtype
    ([np.dtype('>u2')], [np.ulonglong]) has another [str] and is not among
    them. *)
Inductive float_dtype := float16 | float32 | float64.
Inductive uint_dtype := uint8 | uint16 | uint32 | uint64.
Inductive dtype :=
  | DFloat (ft : float_dtype)
  | DUInt (ut : uint_dtype).

(** Precision and exponent bound of the IEEE 754 binary formats. *)
Definition fprec (ft : float_dtype) : Z :=
  match ft with float16 => 11 | float32 => 24 | float64 => 53 end.
Definition femax (ft : float_dtype) : Z :=
  match ft with float16 => 16 | float32 => 128 | float64 => 1024 end.

Definition uint_bits (ut : uint_dtype) : Z :=
  match ut with uint8 => 8 | uint16 => 16 | uint32 => 32 | uint64 => 64 end.

(** [str(dtype)] for the scalar types of numpy. *)
Definition dtype_str (d : dtype) : string :=
  match d with
  | DFloat float16 => "<class 'numpy.float16'>"
  | DFloat float32 => "<class 'numpy.float32'>"
  | DFloat float64 => "<class 'numpy.float64'>"
  | DUInt uint8 => "<class 'numpy.uint8'>"
  | DUInt uint16 => "<class 'numpy.uint16'>"
  | DUInt uint32 => "<class 'numpy.uint32'>"
  | DUInt uint64 => "<class 'numpy.uint64'>"
  end%string.

(** [sub in s] for strings. *)
Fixpoint str_contains (sub s : string) : bool :=
  String.prefix sub s ||
  match s with
  | EmptyString => false
  | String _ s' => str_contains sub s'
  end.

(** [np.iinfo(dtype).max]; [np.iinfo] rejects a floating type. *)
Definition iinfo_max (d : dtype) : result Z :=
  match d with
  | DUInt ut => Ok (2 ^ uint_bits ut - 1)
  | DFloat _ => Raise ValueError
  end.

(** ** Floating-point scalars *)

Section Float.
Variable ft : float_dtype.

Definition fsub : spec_float -> spec_float -> spec_float :=
  SFsub (fprec ft) (femax ft).
Definition fmul : spec_float -> spec_float -> spec_float :=
  SFmul (fprec ft) (femax ft).
Definition fdiv : spec_float -> spec_float -> spec_float :=
  SFdiv (fprec ft) (femax ft).

(** A Python int used as an operand of a float array. *)
Definition of_int (n : Z) : spec_float :=
  binary_normalize (fprec ft) (femax ft) n 0 false.

(** The value is one of the format. *)
Definition representable (x : spec_float) : bool :=
  valid_binary (fprec ft) (femax ft) x.

(** Rounds a float of another format into this one. *)
Definition of_float (x : spec_float) : spec_float :=
  match x with
  | S754_finite s m e => binary_round (fprec ft) (femax ft) s m e
  | _ => x
  end.
End Float.

Definition is_nan (x : spec_float) : bool :=
  match x with S754_nan => true | _ => false end.

Definition is_finite (x : spec_float) : bool :=
  match x with S754_zero _ | S754_finite _ _ _ => true | _ => false end.

(** [np.minimum] and [np.maximum] on scalars, as numpy's loops compute them:
    a NaN operand is returned.  Of two operands that compare equal, which
    are the same number or two zeros of different sign, numpy does not fix
    the one it returns; the choice made here shows in the sign of a zero
    only. *)
Definition np_minimum (a b : spec_float) : spec_float :=
  if SFleb a b || is_nan a then a else b.
Definition np_maximum (a b : spec_float) : spec_float :=
  if SFleb b a || is_nan a then a else b.

(** The integer part of a float, rounding toward zero. *)
Definition trunc (x : spec_float) : Z :=
  match x with
  | S754_finite s m e =>
      cond_Zopp s (if 0 <=? e then Z.pos m * 2 ^ e else Z.pos m / 2 ^ (- e))
  | _ => 0
  end.

(** The cast of a float to an unsigned integer type truncates.  For a value
    outside the range of the type the C cast is undefined; this model wraps
    it, and nothing below depends on that case. *)
Definition cast_uint (ut : uint_dtype) (x : spec_float) : Z :=
  trunc x mod 2 ^ uint_bits ut.

(** ** Arrays of floats and of unsigned integers *)

Definition amap {A B} (f : A -> B) (a : ndarray A) : ndarray B :=
  NdArray (shape a) (map f (data a)).

(** A reduction of all elements with a binary operation that has no
    identity; numpy raises [ValueError] on a zero-size array. *)
Definition reduce (f : spec_float -> spec_float -> spec_float)
    (a : ndarray spec_float) : result spec_float :=
  match data a with
  | [] => Raise ValueError
  | x :: xs => Ok (fold_left f xs x)
  end.

Definition np_min := reduce np_minimum.
Definition np_max := reduce np_maximum.

(** An array object: its dtype and its contents. *)
Inductive array :=
  | FloatArray (ft : float_dtype) (a : ndarray spec_float)
  | UIntArray (ut : uint_dtype) (a : ndarray Z).



(** [x.astype(ft)] for a floating [ft]. *)
Definition astype (ft : float_dtype) (x : array) : ndarray spec_float :=
  match x with
  | FloatArray _ a => amap (of_float ft) a
  | UIntArray _ a => amap (of_int ft) a
  end.

(** ** Normalisation *)

Section Normalize.
Variable ft : float_dtype.

(** [np.mean] and [np.std] of all elements.  Their rounding depends on the
    order in which numpy sums, which this repository does not fix; they
    are parameters of the development. *)
Variable np_mean np_std : ndarray spec_float -> spec_float.

Definition normalize_image_zero_one (im : ndarray spec_float)
    : result (ndarray spec_float) :=
  lo ← np_min im;
  let im := amap (fun x => fsub ft x lo) im in
  hi ← np_max im;
  if SFltb (S754_zero false) hi then
    hi ← np_max im;
    Ok (amap (fun x => fdiv ft x hi) im)
  else Ok im.

Definition normalize_image_center_scale (im : ndarray spec_float)
    : result (ndarray spec_float) :=
  let mu := np_mean im in
  let im := amap (fun x => fsub ft x mu) im in
  let sigma := np_std im in
  Ok (amap (fun x => fdiv ft x sigma) im).

Definition normalize (im : ndarray spec_float) (content : string)
    : result (ndarray spec_float) :=
  if String.eqb content "Brightfield"
  then normalize_image_center_scale im
  else normalize_image_zero_one im.
End Normalize.

(** ** Quantisation *)

(** [float_to_uint] on values.  [np.iinfo] accepts integer types only.
    The Python ints [imax] and [imax - 1] are converted to the dtype of the
    array, and the product is an array of that dtype: this is how numpy 2
    types an operation on an array of floats and a Python int.
    [float_to_uint_numpy1] below is the same code as numpy 1 runs it.
    The array has at least one axis: on a 0-d array the product is a
    scalar, which the assignment rejects with a [TypeError]. *)
Definition float_to_uint (ft : float_dtype) (im : ndarray spec_float)
    (uint_dtype : dtype) : result array :=
  match uint_dtype with
  | DFloat _ => Raise ValueError
  | DUInt ut =>
      m ← iinfo_max uint_dtype;
      let imax := m + 1 in
      let im := amap (fun x => fmul ft x (of_int ft imax)) im in
      let im := amap (fun x => if SFeqb x (of_int ft imax)
                               then of_int ft (imax - 1) else x) im in
      Ok (UIntArray ut (amap (cast_uint ut) im))
  end.

(** *** The dtype of the product under numpy 1 *)

(** [np.min_scalar_type(n)] for a Python int [n >= 0]: the smallest
    unsigned type that holds [n]; none from [2 ^ 64] on, where numpy falls
    back to an array of Python objects. *)
Definition min_scalar_type (n : Z) : option uint_dtype :=
  if n <? 2 ^ 8 then Some uint8
  else if n <? 2 ^ 16 then Some uint16
  else if n <? 2 ^ 32 then Some uint32
  else if n <? 2 ^ 64 then Some uint64
  else None.

(** [np.promote_types] of a floating type and an unsigned integer type:
    the smallest floating type that holds the values of both. *)
Definition promote_types (ft : float_dtype) (ut : uint_dtype) : float_dtype :=
  match ft, ut with
  | float16, uint8 => float16
  | float16, uint16 => float32
  | float32, uint8 => float32
  | float32, uint16 => float32
  | _, _ => float64
  end.

(** [float_to_uint] as numpy 1 runs it.  An operation on an array of floats
    and a Python int is carried out in
    [np.result_type(im, imax) = np.promote_types(im.dtype, np.min_scalar_type(imax))]:
    the dtype follows from the value of the int.  The product [im * imax]
    is an array of that dtype, and [imax] and [imax - 1] are converted to
    it.  [None] for uint64, where [imax = 2 ** 64] makes the product an
    array of Python objects. *)
Definition float_to_uint_numpy1 (ft : float_dtype) (im : ndarray spec_float)
    (uint_dtype : dtype) : option (result array) :=
  match uint_dtype with
  | DFloat _ => Some (Raise ValueError)
  | DUInt ut =>
      let imax := 2 ^ uint_bits ut - 1 + 1 in
      st ← min_scalar_type imax;
      let pt := promote_types ft st in
      let im := amap (fun x => fmul pt (of_float pt x) (of_int pt imax)) im in
      let im := amap (fun x => if SFeqb x (of_int pt imax)
                               then of_int pt (imax - 1) else x) im in
      Some (Ok (UIntArray ut (amap (cast_uint ut) im)))
  end.

(** One float dtype holds every value of another. *)
Definition wider (ft pt : float_dtype) : Prop :=
  fprec ft <= fprec pt /\ femax ft <= femax pt.

(** *** Objects *)

(** The arrays alive in the interpreter, by identity. *)
Abbreviation store := (gmap positive array).

Definition alloc (x : array) (σ : store) : positive * store :=
  let l := fresh (dom σ) in (l, <[l := x]> σ).

(** [float_to_uint] on objects: the argument and the result are references
    into the store.  [None] when the argument is not a live array of floats. *)
Definition float_to_uint_obj (im : positive) (uint_dtype : uint_dtype)
    (σ : store) : option (positive * store) :=
  match σ !! im with
  | Some (FloatArray ft a) =>
      let imax := 2 ^ uint_bits uint_dtype - 1 + 1 in
      (* im = im * imax : the product is a new array, bound to the name *)
      let '(im, σ) := alloc (FloatArray ft (amap (fun x => fmul ft x (of_int ft imax)) a)) σ in
      (* im[im == imax] = imax - 1 : updates that array in place *)
      let σ :=
        alter (fun x =>
                 match x with
                 | FloatArray ft b =>
                     FloatArray ft (amap (fun x => if SFeqb x (of_int ft imax)
                                                   then of_int ft (imax - 1) else x) b)
                 | _ => x
                 end) im σ in
      (* im = np.asarray(im, uint_dtype) : a conversion, hence a new array *)
      match σ !! im with
      | Some (FloatArray _ b) =>
          Some (alloc (UIntArray uint_dtype (amap (cast_uint uint_dtype) b)) σ)
      | _ => None
      end
  | _ => None
  end.

(** ** prep_fish *)

(** The image accessor: [image.get_image_data("ZYX", T=T, C=channel)]. *)
Record AICSImage := { get_image_data_ZYX : Z -> Z -> result array }.

Definition list_index {A} (l : list A) (i : nat) : result A :=
  match l !! i with
  | Some x => Ok x
  | None => Raise IndexError
  end.

Section PrepFish.
(** [np.percentile(a, q)] and [np.median(a)] over all elements, in the
    format of the array; they are numpy's and are parameters here. *)
Variable np_percentile :
  float_dtype -> ndarray spec_float -> spec_float -> result spec_float.
Variable np_median : float_dtype -> ndarray spec_float -> result spec_float.

Definition prep_fish (image : AICSImage) (channel T : Z)
    (clip_percentiles : list spec_float) (median_subtract : bool)
    (math_dtype : float_dtype) (out_dtype : dtype) : result array :=
  img3d ← get_image_data_ZYX image T channel;
  let img3d := astype math_dtype img3d in
  q_lo ← list_index clip_percentiles 0;
  a_min ← np_percentile math_dtype img3d q_lo;
  q_hi ← list_index clip_percentiles 1;
  a_max ← np_percentile math_dtype img3d q_hi;
  let img3d := amap (fun x => np_minimum (np_maximum x a_min) a_max) img3d in
  img3d ←
    (if median_subtract then
       med ← np_median math_dtype img3d;
       let img3d := amap (fun x => fsub math_dtype x med) img3d in
       Ok (amap (fun x => if SFltb x (S754_zero false)
                          then S754_zero false else x) img3d)
     else Ok img3d);
  img3d ← normalize_image_zero_one math_dtype img3d;
  if str_contains "uint" (dtype_str out_dtype)
  then float_to_uint math_dtype img3d out_dtype
  else Ok (FloatArray math_dtype img3d).
End PrepFish.


(** ** Predicates on floats and float arrays *)

(** [0 <= y]: a zero of either sign, a positive number or [+inf]. *)
Definition nonneg (y : spec_float) : bool := SFleb (S754_zero false) y.

Definition is_zero (y : spec_float) : bool :=
  match y with S754_zero _ => true | _ => false end.

(** [2 ^ K] in the format of precision [prec], for [K] in the range of
    normal numbers. *)
Definition pow2 (prec K : Z) : spec_float :=
  S754_finite false (Z.to_pos (2 ^ (prec - 1))) (K - (prec - 1)).

(** One element through [float_to_uint] with target uint8. *)
Definition quantize_uint8 (ft : float_dtype) (x : spec_float) : Z :=
  cast_uint uint8
    (let y := fmul ft x (of_int ft 256) in
     if SFeqb y (of_int ft 256) then of_int ft 255 else y).

Definition all_finite (ft : float_dtype) (im : ndarray spec_float) : bool :=
  forallb (fun x => representable ft x && is_finite x) (data im).

Definition is_constant (im : ndarray spec_float) : bool :=
  forallb (fun x => forallb (SFeqb x) (data im)) (data im).

Definition shifted_max (ft : float_dtype) (im : ndarray spec_float)
    : result spec_float :=
  lo ← np_min im;
  np_max (amap (fun x => fsub ft x lo) im).

(** A number of the format in [0, 1]. *)
Definition in_unit (ft : float_dtype) (z : spec_float) : Prop :=
  representable ft z = true /\ is_finite z = true /\
  nonneg z = true /\ SFleb z (pow2 (fprec ft) 0) = true.

(** Every element is a number of the format in [0, 1]. *)
Definition unit_valued (ft : float_dtype) (im : ndarray spec_float) : bool :=
  forallb (fun x => representable ft x &&
                    (SFleb (of_int ft 0) x && SFleb x (of_int ft 1))) (data im).

(** ** Ranges and sizes *)

(** A number of the format in [0, 2 ^ K]. *)
Definition in_range (ft : float_dtype) (K : Z) (x : spec_float) : Prop :=
  representable ft x = true /\ nonneg x = true /\
  SFleb x (pow2 (fprec ft) K) = true.

(** [x.size]: the number of elements. *)
Definition array_size (x : array) : nat :=
  match x with
  | FloatArray _ a => length (data a)
  | UIntArray _ a => length (data a)
  end.

(** ** Computations on objects *)

(** A computation that reads and updates the store, and returns or raises.
    [None] when it meets a reference that is not a live array of the kind
    the code expects. *)
Definition obj (A : Type) : Type := store -> option (result A * store).

#[global] Instance obj_ret : MRet obj := fun _ a σ => Some (Ok a, σ).
#[global] Instance obj_bind : MBind obj := fun _ _ k m σ =>
  match m σ with
  | Some (Ok a, σ') => k a σ'
  | Some (Raise e, σ') => Some (Raise e, σ')
  | None => None
  end.

(** A step that does not touch the store. *)
Definition pure_step {A} (r : result A) : obj A := fun σ => Some (r, σ).

(** A new array object. *)
Definition new (x : array) : obj positive := fun σ =>
  let '(l, σ') := alloc x σ in Some (Ok l, σ').

Definition read (l : positive) : obj array := fun σ =>
  match σ !! l with
  | Some x => Some (Ok x, σ)
  | None => None
  end.

Definition read_float (l : positive) : obj (float_dtype * ndarray spec_float) :=
  fun σ =>
    match σ !! l with
    | Some (FloatArray ft a) => Some (Ok (ft, a), σ)
    | _ => None
    end.

(** An update in place of the elements of an array of floats. *)
Definition update_float (l : positive)
    (f : float_dtype -> ndarray spec_float -> ndarray spec_float) : obj unit :=
  fun σ =>
    match σ !! l with
    | Some (FloatArray ft a) => Some (Ok tt, <[l := FloatArray ft (f ft a)]> σ)
    | _ => None
    end.

(** [normalize_image_zero_one] on objects: both assignments to [im] bind
    the name to a new array. *)
Definition normalize_image_zero_one_obj (im : positive) : obj positive :=
  '(ft, a) ← read_float im;
  lo ← pure_step (np_min a);
  (* im = im - np.min(im) *)
  im ← new (FloatArray ft (amap (fun x => fsub ft x lo) a));
  '(_, b) ← read_float im;
  hi ← pure_step (np_max b);
  if SFltb (S754_zero false) hi then
    hi ← pure_step (np_max b);
    (* im = im / np.max(im) *)
    new (FloatArray ft (amap (fun x => fdiv ft x hi) b))
  else mret im.

Section PrepFishObj.
Variable np_percentile :
  float_dtype -> ndarray spec_float -> spec_float -> result spec_float.
Variable np_median : float_dtype -> ndarray spec_float -> result spec_float.

(** [prep_fish] on objects, from the array [img3d] that the accessor
    returned. *)
Definition prep_fish_obj (img3d : positive)
    (clip_percentiles : list spec_float) (median_subtract : bool)
    (math_dtype : float_dtype) (out_dtype : dtype) : obj positive :=
  x ← read img3d;
  (* img3d = img3d.astype(math_dtype) : a copy *)
  img3d ← new (FloatArray math_dtype (astype math_dtype x));
  '(_, a) ← read_float img3d;
  q_lo ← pure_step (list_index clip_percentiles 0);
  a_min ← pure_step (np_percentile math_dtype a q_lo);
  q_hi ← pure_step (list_index clip_percentiles 1);
  a_max ← pure_step (np_percentile math_dtype a q_hi);
  (* img3d = np.clip(img3d, ...) : a new array *)
  img3d ← new (FloatArray math_dtype
                 (amap (fun x => np_minimum (np_maximum x a_min) a_max) a));
  _ ← (if median_subtract then
         '(_, a) ← read_float img3d;
         med ← pure_step (np_median math_dtype a);
         (* img3d -= np.median(img3d) : in place *)
         _ ← update_float img3d (fun ft => amap (fun x => fsub ft x med));
         (* img3d[img3d < 0] = 0 : in place *)
         update_float img3d
           (fun _ => amap (fun x => if SFltb x (S754_zero false)
                                    then S754_zero false else x))
       else mret tt);
  img3d ← normalize_image_zero_one_obj img3d;
  if str_contains "uint" (dtype_str out_dtype) then
    match out_dtype with
    | DUInt ut =>
        fun σ => match float_to_uint_obj img3d ut σ with
                 | Some (l, σ') => Some (Ok l, σ')
                 | None => None
                 end
    | DFloat _ => pure_step (Raise ValueError)
    end
  else mret img3d.
End PrepFishObj.

(** The arrays of one store are still there, unchanged, in the other. *)
Definition preserved (σ σ' : store) : Prop :=
  forall l x, σ !! l = Some x -> σ' !! l = Some x.

(* ================================================================== *)
(** * Properties *)

(** ** Row-major indexing *)

Lemma ravel_lt sh idx k : ravel sh idx = Some k -> (k < size_of sh)%nat.
Proof.
  revert idx k. induction sh as [|n sh IH]; intros [|i idx] k; simpl; try discriminate.
  - intros [= <-]. lia.
  - destruct (Nat.ltb_spec i n) as [Hi|]; [|discriminate].
    destruct (ravel sh idx) as [r|] eqn:Hr; [|discriminate].
    intros [= <-]. specialize (IH _ _ Hr). nia.
Qed.

Lemma lookup_flat_map_seq {A} (f : nat -> list A) (L lo len i r : nat) :
  (forall j, (lo <= j < lo + len)%nat -> length (f j) = L) ->
  (i < len)%nat -> (r < L)%nat ->
  flat_map f (seq lo len) !! (i * L + r)%nat = f (lo + i)%nat !! r.
Proof.
  revert lo i. induction len as [|len IH]; intros lo i Hf Hi Hr; [lia|].
  simpl. destruct i as [|i].
  - rewrite lookup_app_l by (rewrite Hf; lia).
    simpl. by rewrite Nat.add_0_r.
  - rewrite lookup_app_r by (rewrite Hf; lia).
    rewrite Hf by lia.
    replace (S i * L + r - L)%nat with (i * L + r)%nat by lia.
    rewrite IH; [|intros; apply Hf; lia|lia|lia].
    f_equal. f_equal. lia.
Qed.

Lemma length_flat_map_seq {A} (f : nat -> list A) (L lo len : nat) :
  (forall j, (lo <= j < lo + len)%nat -> length (f j) = L) ->
  length (flat_map f (seq lo len)) = (len * L)%nat.
Proof.
  revert lo. induction len as [|len IH]; intros lo Hf; [done|].
  simpl. rewrite length_app, Hf by lia. rewrite IH; [lia|].
  intros; apply Hf; lia.
Qed.

Lemma length_row {A} (d : list A) (n stride i : nat) :
  length d = (n * stride)%nat -> (i < n)%nat ->
  length (firstn stride (skipn (i * stride) d)) = stride.
Proof. intros Hd Hi. rewrite length_take, length_drop. nia. Qed.

Lemma length_take_ranges {A} rs sh (d : list A) :
  ranges_fit rs sh -> length d = size_of sh ->
  length (take_ranges rs sh d) = size_of (cropped_shape rs sh).
Proof.
  intros Hfit. revert d. induction Hfit as [sh|lo len rs n sh Hb Hfit IH]; intros d Hd.
  - done.
  - simpl in *. erewrite length_flat_map_seq; [reflexivity|].
    intros j Hj. apply IH. apply (length_row d n); [done|lia].
Qed.

Lemma lookup_take_ranges {A} rs sh (d : list A) idx k :
  ranges_fit rs sh -> length d = size_of sh ->
  ravel (cropped_shape rs sh) idx = Some k ->
  exists k', ravel sh (offset_index (map fst rs) idx) = Some k' /\
             take_ranges rs sh d !! k = d !! k'.
Proof.
  intros Hfit. revert d idx k.
  induction Hfit as [sh|lo len rs n sh Hb Hfit IH]; intros d idx k Hd Hk.
  - exists k. unfold cropped_shape in Hk. simpl in *. by destruct idx.
  - destruct idx as [|i idx]; [discriminate|].
    unfold cropped_shape in Hk. simpl in Hk. fold (cropped_shape rs sh) in Hk.
    destruct (Nat.ltb_spec i len) as [Hi|]; [|discriminate].
    destruct (ravel (cropped_shape rs sh) idx) as [r|] eqn:Hr; [|discriminate].
    injection Hk as <-.
    simpl in Hd.
    set (row := firstn (size_of sh) (skipn ((lo + i) * size_of sh) d)).
    assert (Hrow : length row = size_of sh) by (apply (length_row d n); [done|lia]).
    destruct (IH row idx r Hrow Hr) as (k' & Hk' & Hlook).
    exists ((lo + i) * size_of sh + k')%nat. split.
    + simpl. destruct (Nat.ltb_spec (lo + i) n); [|lia]. by rewrite Hk'.
    + simpl. rewrite lookup_flat_map_seq; first last.
      * by apply ravel_lt in Hr.
      * done.
      * intros j Hj. apply length_take_ranges; [done|].
        apply (length_row d n); [done|lia].
      * fold row. rewrite Hlook. unfold row.
        apply ravel_lt in Hk'.
        rewrite lookup_take_lt by done. by rewrite lookup_drop.
Qed.

(** ** Slices and ranges *)

Lemma clip_bound_range i n : 0 <= n -> 0 <= clip_bound i n <= n.
Proof. unfold clip_bound. destruct (Z.ltb_spec i 0); lia. Qed.

Lemma slice_range_fit sl n :
  (fst (slice_range sl n) + snd (slice_range sl n) <= n)%nat.
Proof.
  unfold slice_range. simpl.
  pose proof (clip_bound_range (slice_start sl) (Z.of_nat n)).
  pose proof (clip_bound_range (slice_stop sl) (Z.of_nat n)).
  lia.
Qed.

Lemma ranges_of_fit sls sh : ranges_fit (ranges_of sls sh) sh.
Proof.
  revert sh. induction sls as [|sl sls IH]; intros [|n sh];
    try apply ranges_fit_nil.
  cbn [ranges_of]. pose proof (slice_range_fit sl n).
  destruct (slice_range sl n) as [lo len]. simpl in *.
  apply ranges_fit_cons; [done|apply IH].
Qed.

Lemma length_ranges_of sls sh :
  (length sls <= length sh)%nat -> length (ranges_of sls sh) = length sls.
Proof.
  revert sh. induction sls as [|sl sls IH]; intros [|n sh]; simpl; try lia.
  intros. rewrite IH; lia.
Qed.

(** A slice that starts at a non-negative position and selects at least one
    index starts exactly there. *)
Lemma slice_range_start sl n i :
  0 <= slice_start sl -> (i < snd (slice_range sl n))%nat ->
  fst (slice_range sl n) = Z.to_nat (slice_start sl).
Proof.
  unfold slice_range. simpl.
  pose proof (clip_bound_range (slice_stop sl) (Z.of_nat n)).
  generalize dependent (clip_bound (slice_stop sl) (Z.of_nat n)). intros hi Hhi.
  unfold clip_bound. destruct (Z.ltb_spec (slice_start sl) 0); lia.
Qed.

Lemma offset_index_ranges_of sls sh idx :
  Forall (fun sl => 0 <= slice_start sl) sls ->
  (length sls <= length sh)%nat ->
  is_Some (ravel (cropped_shape (ranges_of sls sh) sh) idx) ->
  offset_index (map fst (ranges_of sls sh)) idx =
  offset_index (map (fun sl => Z.to_nat (slice_start sl)) sls) idx.
Proof.
  intros Hpos. revert sh idx.
  induction Hpos as [|sl sls Hsl Hpos IH]; intros [|n sh] idx Hlen [k Hk];
    cbn [ranges_of map length offset_index] in *; try done; try lia.
  destruct idx as [|i idx]; [done|].
  unfold cropped_shape in Hk.
  cbn [map app length skipn ravel] in Hk.
  fold (cropped_shape (ranges_of sls sh) sh) in Hk.
  destruct (Nat.ltb_spec i (snd (slice_range sl n))) as [Hi|]; [|discriminate].
  destruct (ravel (cropped_shape (ranges_of sls sh) sh) idx) as [r|] eqn:Hr; [|discriminate].
  rewrite (slice_range_start sl n i) by done.
  f_equal. apply IH; [lia|by eexists].
Qed.

(** ** The constructor *)

Lemma randint_range a b g v g' : randint a b g = Ok (v, g') -> a <= v <= b.
Proof.
  unfold randint. destruct (Z.ltb_spec b a); [discriminate|].
  intros [= <- <-]. pose proof (Z.mod_pos_bound (entropy g (cursor g)) (b - a + 1)). lia.
Qed.

Lemma draw_start_range dims g vs g' :
  draw_start dims g = Ok (vs, g') ->
  Forall2 (fun '(s, c) v => 0 <= v <= Z.of_nat s - c) dims vs.
Proof.
  revert g vs g'. induction dims as [|[s c] dims IH]; intros g vs g'; simpl.
  - intros [= <- <-]. constructor.
  - destruct (randint 0 (Z.of_nat s - c) g) as [[v g1]|] eqn:Hr; [|discriminate].
    simpl. destruct (draw_start dims g1) as [[vs' g2]|] eqn:Hd; [|discriminate].
    simpl. intros [= <- <-]. constructor; [by eapply randint_range|by eapply IH].
Qed.

Lemma draw_start_total dims g :
  Forall (fun '(s, c) => c <= Z.of_nat s) dims ->
  exists vs g', draw_start dims g = Ok (vs, g').
Proof.
  intros H. revert g. induction H as [|[s c] dims Hsc H IH]; intros g; simpl.
  - by eexists _, _.
  - unfold randint at 1. destruct (Z.ltb_spec (Z.of_nat s - c) 0); [lia|]. simpl.
    destruct (IH (Rng (entropy g) (S (cursor g)))) as (vs & g' & ->). simpl.
    by eexists _, _.
Qed.

Lemma draw_start_raises dims g :
  Exists (fun '(s, c) => Z.of_nat s < c) dims ->
  draw_start dims g = Raise ValueError.
Proof.
  intros H. revert g. induction H as [[s c] dims Hsc|[s c] dims H IH]; intros g; simpl.
  - unfold randint. destruct (Z.ltb_spec (Z.of_nat s - c) 0); [done|lia].
  - unfold randint at 1. destruct (Z.ltb_spec (Z.of_nat s - c) 0); [done|]. simpl.
    by rewrite IH.
Qed.

(** Each stored slice is [slice(v, v + c)] for a draw [0 <= v <= s - c]. *)
Lemma RandomCrop_init_slices {A} (array : ndarray A) crop_size g self g' :
  RandomCrop_init array crop_size g = Ok (self, g') ->
  Forall2 (fun '(s, c) sl =>
             0 <= slice_start sl <= Z.of_nat s - c /\
             slice_stop sl = slice_start sl + c)
          (zip (shape array) crop_size) (slices self).
Proof.
  unfold RandomCrop_init.
  destruct (draw_start _ g) as [[start g1]|] eqn:Hd; [|discriminate].
  simpl. intros [= <- <-]. simpl. apply draw_start_range in Hd.
  revert Hd. generalize (shape array). intros sh. revert crop_size start.
  induction sh as [|s sh IH]; intros [|c cs] start H;
    try (inversion H; subst; constructor).
  - simpl; lia.
  - by apply IH.
Qed.

Lemma lookup_zip_pair {A B} (l : list A) (k : list B) (i : nat) x y :
  l !! i = Some x -> k !! i = Some y -> zip l k !! i = Some (x, y).
Proof. intros Hl Hk. rewrite lookup_zip_with, Hl. simpl. by rewrite Hk. Qed.

Lemma lookup_zip_inv {A B} (l : list A) (k : list B) (i : nat) x y :
  zip l k !! i = Some (x, y) -> l !! i = Some x /\ k !! i = Some y.
Proof.
  intros H. apply lookup_zip_with_Some in H as (a & b & [= -> ->] & ? & ?).
  done.
Qed.

Lemma crop_calls_fixed {A} self (Xs : list (ndarray A)) : crop_calls self Xs = self.
Proof. induction Xs as [|X Xs IH]; simpl; auto. Qed.

(** ** Cropping *)

Lemma crop_shape {A} self (X : ndarray A) Y :
  crop self X = Ok Y ->
  shape Y = cropped_shape (ranges_of (slices self) (shape X)) (shape X).
Proof.
  unfold crop, getitem_slices. destruct (_ <? _)%nat; [discriminate|].
  by intros [= <-].
Qed.

Lemma crop_same_shape {A B} self (X : ndarray A) (Y : ndarray B) :
  shape X = shape Y ->
  match crop self X, crop self Y with
  | Ok X', Ok Y' => shape X' = shape Y'
  | Raise e, Raise e' => e = e'
  | _, _ => False
  end.
Proof.
  intros Hsh. unfold crop, getitem_slices. rewrite <- Hsh.
  destruct (_ <? _)%nat; simpl; done.
Qed.

(** Element [idx] of a crop is the element of the source at [idx] shifted by
    the start offsets of the slices. *)
Lemma crop_item {A} self (X X' : ndarray A) idx :
  Forall (fun sl => 0 <= slice_start sl) (slices self) ->
  well_formed X -> crop self X = Ok X' ->
  is_Some (ravel (shape X') idx) ->
  exists x, item X' idx = Some x /\
            item X (offset_index (start_offsets self) idx) = Some x.
Proof.
  intros Hpos Hwf Hcrop Hidx.
  unfold crop, getitem_slices in Hcrop.
  destruct (Nat.ltb_spec (length (shape X)) (length (slices self))) as [|Hlen];
    [discriminate|].
  injection Hcrop as <-. unfold item. cbn [shape data] in *.
  fold (cropped_shape (ranges_of (slices self) (shape X)) (shape X)) in *.
  pose proof (ranges_of_fit (slices self) (shape X)) as Hfit.
  unfold start_offsets.
  rewrite <- (offset_index_ranges_of _ (shape X)) by done.
  destruct Hidx as [k Hk].
  destruct (lookup_take_ranges _ _ (data X) _ _ Hfit Hwf Hk) as (k' & Hk' & Hlook).
  rewrite Hk, Hk', Hlook.
  apply ravel_lt in Hk'. red in Hwf.
  destruct (lookup_lt_is_Some_2 (data X) k') as [x Hx]; [lia|].
  exists x. by rewrite Hx.
Qed.

Lemma RandomCrop_init_start_nonneg {A} (array : ndarray A) crop_size g self g' :
  RandomCrop_init array crop_size g = Ok (self, g') ->
  Forall (fun sl => 0 <= slice_start sl) (slices self).
Proof.
  intros H. apply RandomCrop_init_slices in H.
  eapply Forall2_Forall_r; [exact H|].
  apply Forall_forall. intros [s c] _ sl. lia.
Qed.

(** C1. A cropper built from a reference array of shape (10,20,30) with crop
    size (5,10,15) returns an array of shape (5,10,15) for every array of
    shape (10,20,30); and two arrays of identical shape are cropped at the
    same start offsets, those stored at construction: both crops succeed
    with the same shape, and element [idx] of each crop is the element of
    its source at [start + idx]. *)
Theorem RandomCrop_paired_crop {T} (g g' : rng) (self : RandomCrop)
    (ref X A B : ndarray T) :
  shape ref = [10; 20; 30]%nat ->
  RandomCrop_init ref [5; 10; 15] g = Ok (self, g') ->
  shape X = [10; 20; 30]%nat ->
  shape A = shape B -> well_formed A -> well_formed B ->
  (exists Y, crop self X = Ok Y /\ shape Y = [5; 10; 15]%nat) /\
  match crop self A, crop self B with
  | Ok A', Ok B' =>
      shape A' = shape B' /\
      forall idx, is_Some (ravel (shape A') idx) ->
        exists a b,
          item A' idx = Some a /\
          item A (offset_index (start_offsets self) idx) = Some a /\
          item B' idx = Some b /\
          item B (offset_index (start_offsets self) idx) = Some b
  | Raise e, Raise e' => e = e'
  | _, _ => False
  end.
Proof.
  intros Href Hinit HX HAB HA HB.
  pose proof (RandomCrop_init_start_nonneg _ _ _ _ _ Hinit) as Hpos.
  split.
  - apply RandomCrop_init_slices in Hinit. rewrite Href in Hinit.
    unfold crop, getitem_slices. rewrite HX.
    destruct (slices self) as [|[v0 w0] [|[v1 w1] [|[v2 w2] [|]]]];
      repeat match goal with H : Forall2 _ _ _ |- _ => inversion H; clear H; subst end.
    simpl in *. eexists; split; [reflexivity|]. simpl.
    unfold slice_range, clip_bound; simpl.
    repeat match goal with |- context [Z.ltb ?a ?b] =>
      destruct (Z.ltb_spec a b); try lia end.
    repeat f_equal; lia.
  - pose proof (crop_same_shape self A B HAB) as Hsame.
    destruct (crop self A) as [A'|] eqn:EA, (crop self B) as [B'|] eqn:EB; try done.
    split; [done|]. intros idx Hidx.
    destruct (crop_item self A A' idx Hpos HA EA Hidx) as (a & ? & ?).
    rewrite Hsame in Hidx.
    destruct (crop_item self B B' idx Hpos HB EB Hidx) as (b & ? & ?).
    by exists a, b.
Qed.

Lemma RandomCrop_paired_crop_witness :
  exists self g',
    RandomCrop_init (NdArray [10; 20; 30]%nat (repeat 0 (10 * 20 * 30)%nat)) [5; 10; 15]
      (Rng (fun n => Z.of_nat n * 7 + 3) 0) = Ok (self, g') /\
    start_offsets self = [3; 10; 1]%nat /\
    exists Y, crop self (NdArray [10; 20; 30]%nat (map Z.of_nat (seq 0 (10 * 20 * 30)))) = Ok Y /\
              shape Y = [5; 10; 15]%nat.
Proof.
  eexists _, _. split; [reflexivity|]. split; [reflexivity|].
  refine (proj1 (RandomCrop_paired_crop (T := Z)
    (Rng (fun n => Z.of_nat n * 7 + 3) 0) _ _
    (NdArray [10; 20; 30]%nat (repeat 0 (10 * 20 * 30)%nat))
    (NdArray [10; 20; 30]%nat (map Z.of_nat (seq 0 (10 * 20 * 30))))
    (NdArray [2; 2]%nat [1; 2; 3; 4])
    (NdArray [2; 2]%nat [5; 6; 7; 8])
    eq_refl eq_refl eq_refl eq_refl eq_refl eq_refl)).
Defined.

(** C5. When the crop size exceeds the shape of the reference array on some
    axis, the constructor raises: the draw [random.randint(0, s - c)] is over
    an empty range, which is a [ValueError], and no instance is stored. *)
Theorem RandomCrop_init_range_error {A} (array : ndarray A) (crop_size : list Z)
    (g : rng) (i : nat) (s : nat) (c : Z) :
  shape array !! i = Some s -> crop_size !! i = Some c -> Z.of_nat s < c ->
  RandomCrop_init array crop_size g = Raise ValueError.
Proof.
  intros Hs Hc Hlt. unfold RandomCrop_init.
  rewrite draw_start_raises; [done|].
  apply Exists_exists. exists (s, c). split; [|done].
  apply list_elem_of_lookup. exists i. by apply lookup_zip_pair.
Qed.

Lemma RandomCrop_init_range_error_witness :
  RandomCrop_init (NdArray [10; 20; 30]%nat (repeat 0 (10 * 20 * 30)%nat)) [5; 21; 15]
    (Rng (fun n => Z.of_nat n) 0) = Raise ValueError.
Proof.
  apply (RandomCrop_init_range_error _ _ _ 1%nat 20%nat 21);
    [reflexivity|reflexivity|lia].
Defined.

(** C8. When the crop size is at most the shape of the reference array on
    every axis, the constructor returns an instance that stores one slice for
    each axis paired by [zip(array.shape, crop_size)], as many as the shorter
    of the two, and every stored slice [slice(start, start + length)] has
    [0 <= start] and [start + length <= shape[axis]], where [length] is the
    crop size of the axis.  No method assigns the slices again: after any
    sequence of [crop] calls the instance is the one that was constructed, so
    the bounds hold for its whole life. *)
Theorem RandomCrop_spec_invariant {A} (array : ndarray A) (crop_size : list Z)
    (g : rng) :
  (forall (i : nat) s c, shape array !! i = Some s -> crop_size !! i = Some c ->
                         c <= Z.of_nat s) ->
  (exists self g', RandomCrop_init array crop_size g = Ok (self, g')) /\
  forall self g', RandomCrop_init array crop_size g = Ok (self, g') ->
    length (slices self) = Nat.min (length (shape array)) (length crop_size) /\
    (forall (i : nat) s c, shape array !! i = Some s -> crop_size !! i = Some c ->
       exists sl, slices self !! i = Some sl) /\
    forall Xs : list (ndarray A),
      crop_calls self Xs = self /\
      forall (i : nat) sl, slices (crop_calls self Xs) !! i = Some sl ->
        exists s c, shape array !! i = Some s /\ crop_size !! i = Some c /\
          0 <= slice_start sl /\
          slice_stop sl = slice_start sl + c /\
          slice_start sl + c <= Z.of_nat s.
Proof.
  intros Hpre. split.
  - unfold RandomCrop_init.
    destruct (draw_start_total (zip (shape array) crop_size) g) as (vs & g' & ->).
    + apply Forall_lookup. intros i [s c] Hi.
      apply lookup_zip_inv in Hi as [? ?]. eauto.
    + simpl. by eexists _, _.
  - intros self g' Hinit. apply RandomCrop_init_slices in Hinit.
    pose proof (Forall2_length _ _ _ Hinit) as Hlen. rewrite length_zip in Hlen.
    split; [done|]. split.
    + intros i s c Hs Hc. apply lookup_lt_is_Some_2.
      apply lookup_lt_Some in Hs, Hc. lia.
    + intros Xs. rewrite crop_calls_fixed. split; [done|].
      intros i sl Hsl.
      destruct (Forall2_lookup_r _ _ _ _ _ Hinit Hsl) as ([s c] & Hz & H0 & H1).
      apply lookup_zip_inv in Hz as [? ?].
      exists s, c. repeat split; try done; lia.
Qed.

Lemma RandomCrop_spec_invariant_witness :
  exists self g',
    RandomCrop_init (NdArray [10; 20; 30]%nat (repeat 0 (10 * 20 * 30)%nat)) [5; 10; 15]
      (Rng (fun n => Z.of_nat n * 7 + 3) 0) = Ok (self, g') /\
    length (slices self) = 3%nat /\
    forall (i : nat) sl, slices self !! i = Some sl ->
      exists s c, [10; 20; 30]%nat !! i = Some s /\ [5; 10; 15] !! i = Some c /\
        0 <= slice_start sl /\ slice_stop sl = slice_start sl + c /\
        slice_start sl + c <= Z.of_nat s.
Proof.
  destruct (RandomCrop_spec_invariant
    (NdArray [10; 20; 30]%nat (repeat 0 (10 * 20 * 30)%nat)) [5; 10; 15]
    (Rng (fun n => Z.of_nat n * 7 + 3) 0)) as [(self & g' & Hinit) Hinv].
  { intros [|[|[|[|i]]]] s c; simpl; intros [= <-] [= <-]; lia. }
  exists self, g'. split; [exact Hinit|].
  destruct (Hinv self g' Hinit) as (Hlen & _ & Hb).
  split; [exact Hlen|]. exact (proj2 (Hb [])).
Defined.

(** ** Normalisation policy *)

(** C7. [normalize] returns the centred and scaled array when the content is
    "Brightfield" and the array scaled to [0, 1] for every other content. *)
Theorem normalize_dispatch (ft : float_dtype)
    (np_mean np_std : ndarray spec_float -> spec_float)
    (im : ndarray spec_float) (content : string) :
  (content = "Brightfield"%string ->
   normalize ft np_mean np_std im content =
   normalize_image_center_scale ft np_mean np_std im) /\
  (content <> "Brightfield"%string ->
   normalize ft np_mean np_std im content = normalize_image_zero_one ft im).
Proof.
  unfold normalize. destruct (String.eqb_spec content "Brightfield"); split; done.
Qed.

(** ** Objects and in-place updates *)

Lemma alloc_fresh x (σ : store) l σ' :
  alloc x σ = (l, σ') -> σ !! l = None /\ σ' = <[l := x]> σ.
Proof.
  unfold alloc. intros [= <- <-]. split; [|done].
  apply not_elem_of_dom, is_fresh.
Qed.

(** C10. [float_to_uint] does not modify the array it is given: called on a
    live array of floats it returns a reference to a new array, and the
    argument, like every other array alive before the call, holds the same
    elements afterwards.  The returned array holds the quantised values. *)
Theorem float_to_uint_input_unchanged (σ : store) (im : positive)
    (ft : float_dtype) (a : ndarray spec_float) (uint_dtype : uint_dtype) :
  σ !! im = Some (FloatArray ft a) ->
  exists res σ',
    float_to_uint_obj im uint_dtype σ = Some (res, σ') /\
    σ' !! im = Some (FloatArray ft a) /\
    res <> im /\
    (forall l x, σ !! l = Some x -> σ' !! l = Some x) /\
    Ok <$> σ' !! res = Some (float_to_uint ft a (DUInt uint_dtype)).
Proof.
  intros Him. unfold float_to_uint_obj. rewrite Him.
  destruct (alloc _ σ) as [l1 σ1] eqn:E1.
  apply alloc_fresh in E1 as [Hl1 ->].
  rewrite lookup_alter_eq, lookup_insert_eq. simpl.
  match goal with |- context [alloc ?x ?s] => destruct (alloc x s) as [l2 σ2] eqn:E2 end.
  apply alloc_fresh in E2 as [Hl2 ->].
  rewrite lookup_alter in Hl2. destruct (decide (l1 = l2)) as [->|Hne].
  { by rewrite lookup_insert_eq in Hl2. }
  rewrite lookup_insert_ne in Hl2 by done.
  assert (forall (y z : array) f l x, σ !! l = Some x ->
            <[l2:=y]> (alter f l1 (<[l1:=z]> σ)) !! l = Some x) as Hframe.
  { intros y z f l x Hl.
    rewrite lookup_insert_ne by congruence.
    rewrite lookup_alter_ne by congruence.
    by rewrite lookup_insert_ne by congruence. }
  eexists _, _. split; [reflexivity|]. split; [by apply Hframe|].
  split; [congruence|]. split; [intros l x; apply Hframe|].
  by rewrite lookup_insert_eq.
Qed.

Lemma float_to_uint_input_unchanged_witness :
  exists res σ',
    float_to_uint_obj 1%positive uint8
      {[ 1%positive := FloatArray float64 (NdArray [1%nat] [S754_finite false 4503599627370496 (-52)]) ]}
      = Some (res, σ') /\
    σ' !! 1%positive =
      Some (FloatArray float64 (NdArray [1%nat] [S754_finite false 4503599627370496 (-52)])).
Proof.
  destruct (float_to_uint_input_unchanged
    {[ 1%positive := FloatArray float64 (NdArray [1%nat] [S754_finite false 4503599627370496 (-52)]) ]}
    1%positive float64 _ uint8 (lookup_singleton_eq _ _)) as (res & σ' & H1 & H2 & _).
  by exists res, σ'.
Defined.

(** ** Shapes and dtypes through the pipeline *)



Lemma uint_in_dtype_str d :
  str_contains "uint" (dtype_str d) =
  match d with DUInt _ => true | DFloat _ => false end.
Proof. by destruct d as [[]|[]]. Qed.





(* ================================================================== *)
(** * Floating-point arithmetic *)

(** ** Binary digits *)

Lemma digits2_pos_bounds p :
  2 ^ (Z.pos (digits2_pos p) - 1) <= Z.pos p < 2 ^ Z.pos (digits2_pos p).
Proof.
  induction p as [p IH|p IH|]; cbn [digits2_pos].
  - rewrite Pos2Z.inj_succ, Z.pow_succ_r by lia.
    replace (Z.succ (Z.pos (digits2_pos p)) - 1) with (Z.succ (Z.pos (digits2_pos p) - 1)) by lia.
    rewrite Z.pow_succ_r by lia. lia.
  - rewrite Pos2Z.inj_succ, Z.pow_succ_r by lia.
    replace (Z.succ (Z.pos (digits2_pos p)) - 1) with (Z.succ (Z.pos (digits2_pos p) - 1)) by lia.
    rewrite Z.pow_succ_r by lia. lia.
  - simpl. lia.
Qed.

Lemma Zdigits2_nonneg m : 0 <= Zdigits2 m.
Proof. destruct m; simpl; lia. Qed.

Lemma Zdigits2_upper m : 0 <= m -> m < 2 ^ Zdigits2 m.
Proof.
  destruct m as [|p|p]; simpl; [lia| |lia]. intros _. apply digits2_pos_bounds.
Qed.

Lemma Zdigits2_lower m : 0 < m -> 2 ^ (Zdigits2 m - 1) <= m.
Proof.
  destruct m as [|p|p]; simpl; [lia| |lia]. intros _. apply digits2_pos_bounds.
Qed.

Lemma Zdigits2_pos m : 0 < m -> 0 < Zdigits2 m.
Proof. destruct m; simpl; lia. Qed.

Lemma Zdigits2_unique m d :
  0 < d -> 2 ^ (d - 1) <= m < 2 ^ d -> Zdigits2 m = d.
Proof.
  intros Hd [Hlo Hhi].
  assert (0 < m) by (pose proof (Z.pow_pos_nonneg 2 (d - 1)); lia).
  pose proof (Zdigits2_upper m ltac:(lia)).
  pose proof (Zdigits2_lower m ltac:(lia)).
  pose proof (Zdigits2_pos m ltac:(lia)).
  destruct (Z.lt_trichotomy (Zdigits2 m) d) as [Hlt|[Heq|Hgt]]; [|done|].
  - assert (2 ^ Zdigits2 m <= 2 ^ (d - 1)) by (apply Z.pow_le_mono_r; lia). lia.
  - assert (2 ^ d <= 2 ^ (Zdigits2 m - 1)) by (apply Z.pow_le_mono_r; lia). lia.
Qed.

Lemma Zdigits2_le m k : 0 <= m -> 0 <= k -> m < 2 ^ k -> Zdigits2 m <= k.
Proof.
  intros Hm Hk Hlt. destruct (Z.eq_dec m 0) as [->|]; [simpl; lia|].
  pose proof (Zdigits2_lower m ltac:(lia)).
  destruct (Z.le_gt_cases (Zdigits2 m) k) as [|Hgt]; [done|].
  assert (2 ^ k <= 2 ^ (Zdigits2 m - 1)) by (apply Z.pow_le_mono_r; lia). lia.
Qed.

Lemma Zdigits2_mono m n : 0 <= m <= n -> Zdigits2 m <= Zdigits2 n.
Proof.
  intros [Hm Hmn]. apply Zdigits2_le; [done|apply Zdigits2_nonneg|].
  pose proof (Zdigits2_upper n ltac:(lia)). lia.
Qed.

Lemma Zdigits2_mul_pow2 m n :
  0 < m -> 0 <= n -> Zdigits2 (m * 2 ^ n) = Zdigits2 m + n.
Proof.
  intros Hm Hn.
  pose proof (Zdigits2_upper m ltac:(lia)).
  pose proof (Zdigits2_lower m ltac:(lia)).
  pose proof (Zdigits2_pos m ltac:(lia)).
  pose proof (Z.pow_pos_nonneg 2 n ltac:(lia) Hn).
  apply Zdigits2_unique; [lia|].
  replace (Zdigits2 m + n - 1) with (Zdigits2 m - 1 + n) by lia.
  rewrite !Z.pow_add_r by lia. nia.
Qed.

Lemma Zdigits2_div_pow2 m n :
  0 <= n < Zdigits2 m -> 0 <= m ->
  Zdigits2 (m / 2 ^ n) = Zdigits2 m - n.
Proof.
  intros Hn Hm.
  assert (0 < m) by (destruct m; simpl in *; lia).
  pose proof (Zdigits2_upper m ltac:(lia)).
  pose proof (Zdigits2_lower m ltac:(lia)).
  pose proof (Z.pow_pos_nonneg 2 n ltac:(lia) ltac:(lia)).
  apply Zdigits2_unique; [lia|]. split.
  - apply Z.div_le_lower_bound; [lia|].
    rewrite <- Z.pow_add_r by lia.
    replace (n + (Zdigits2 m - n - 1)) with (Zdigits2 m - 1) by lia. done.
  - apply Z.div_lt_upper_bound; [lia|].
    rewrite <- Z.pow_add_r by lia.
    replace (n + (Zdigits2 m - n)) with (Zdigits2 m) by lia. done.
Qed.

Lemma div_pow2_small m n : 0 <= m -> Zdigits2 m <= n -> m / 2 ^ n = 0.
Proof.
  intros Hm Hn. apply Z.div_small. split; [done|].
  pose proof (Zdigits2_upper m Hm). pose proof (Zdigits2_nonneg m).
  assert (2 ^ Zdigits2 m <= 2 ^ n) by (apply Z.pow_le_mono_r; lia). lia.
Qed.

(** ** Shifting a mantissa right *)

Lemma pow2_xI n : 2 ^ Z.pos n~1 = 2 ^ Z.pos n * 2 ^ Z.pos n * 2.
Proof.
  assert (Z.pos n~1 = Z.pos n + Z.pos n + 1) as -> by lia.
  rewrite !Z.pow_add_r by lia. ring.
Qed.

Lemma pow2_xO n : 2 ^ Z.pos n~0 = 2 ^ Z.pos n * 2 ^ Z.pos n.
Proof.
  assert (Z.pos n~0 = Z.pos n + Z.pos n) as -> by lia.
  by rewrite Z.pow_add_r by lia.
Qed.


Lemma iter_pos_shr_1_exact n c :
  0 <= c ->
  SpecFloat.iter_pos shr_1 n (Build_shr_record (c * 2 ^ Z.pos n) false false) =
  Build_shr_record c false false.
Proof.
  assert (Hstep : forall c, 0 <= c ->
    shr_1 (Build_shr_record (c * 2) false false) = Build_shr_record c false false).
  { intros [|p|p] Hc; [done| |lia].
    by replace (Z.pos p * 2) with (Z.pos p~0) by lia. }
  revert c. induction n as [n IH|n IH|]; intros c Hc; cbn [SpecFloat.iter_pos].
  - replace (c * 2 ^ Z.pos n~1) with (c * 2 ^ Z.pos n * 2 ^ Z.pos n * 2).
    2:{ rewrite pow2_xI. ring. }
    pose proof (Z.pow_pos_nonneg 2 (Z.pos n) ltac:(lia) ltac:(lia)).
    rewrite Hstep by nia. rewrite IH by nia. by rewrite IH.
  - replace (c * 2 ^ Z.pos n~0) with (c * 2 ^ Z.pos n * 2 ^ Z.pos n).
    2:{ rewrite pow2_xO. ring. }
    pose proof (Z.pow_pos_nonneg 2 (Z.pos n) ltac:(lia) ltac:(lia)).
    rewrite IH by nia. by rewrite IH.
  - change (2 ^ 1) with 2. by apply Hstep.
Qed.

Lemma shr_1_m r : 0 <= shr_m r -> shr_m (shr_1 r) = shr_m r / 2.
Proof.
  destruct r as [m rb sb]. simpl. intros Hm.
  destruct m as [|[p|p|]|p]; simpl; try done; try lia.
  - apply (Z.div_unique _ _ _ 1); lia.
  - apply (Z.div_unique _ _ _ 0); lia.
Qed.

Lemma iter_pos_shr_1_m n r :
  0 <= shr_m r -> shr_m (SpecFloat.iter_pos shr_1 n r) = shr_m r / 2 ^ Z.pos n.
Proof.
  revert r. induction n as [n IH|n IH|]; intros r Hr; cbn [SpecFloat.iter_pos].
  - pose proof (Z.pow_pos_nonneg 2 (Z.pos n) ltac:(lia) ltac:(lia)).
    assert (0 <= shr_m (shr_1 r)) by (rewrite shr_1_m by done; apply Z.div_pos; lia).
    assert (0 <= shr_m (SpecFloat.iter_pos shr_1 n (shr_1 r)))
      by (rewrite IH by done; apply Z.div_pos; lia).
    rewrite IH, IH, shr_1_m by done.
    rewrite !Z.div_div by lia. f_equal.
    rewrite pow2_xI. ring.
  - pose proof (Z.pow_pos_nonneg 2 (Z.pos n) ltac:(lia) ltac:(lia)).
    assert (0 <= shr_m (SpecFloat.iter_pos shr_1 n r))
      by (rewrite IH by done; apply Z.div_pos; lia).
    rewrite IH, IH by done.
    rewrite !Z.div_div by lia. f_equal.
    rewrite pow2_xO. ring.
  - by apply shr_1_m.
Qed.

Lemma shr_record_of_loc_m m l : shr_m (shr_record_of_loc m l) = m.
Proof. by destruct l as [|[]]. Qed.

(** [shr] divides the mantissa by [2 ^ n], for a positive [n]. *)
Lemma shr_m_spec r e n :
  0 <= shr_m r ->
  snd (shr r e n) = e + Z.max 0 n /\
  shr_m (fst (shr r e n)) = shr_m r / 2 ^ Z.max 0 n.
Proof.
  intros Hr. destruct n as [|p|p]; simpl.
  - split; [lia|]. by rewrite Z.div_1_r.
  - split; [lia|]. by apply iter_pos_shr_1_m.
  - split; [lia|]. by rewrite Z.div_1_r.
Qed.

(** A shift that drops only zero bits is exact. *)
Lemma shr_exact c e n :
  0 <= c -> 0 <= n ->
  fst (shr (Build_shr_record (c * 2 ^ n) false false) e n) =
  Build_shr_record c false false.
Proof.
  intros Hc Hn. destruct n as [|p|p]; simpl; [|by apply iter_pos_shr_1_exact|lia].
  f_equal. lia.
Qed.

Lemma round_nearest_even_range m l :
  round_nearest_even m l = m \/ round_nearest_even m l = m + 1.
Proof. destruct l as [|[]]; simpl; auto. destruct (Z.even m); auto. Qed.

(** The result of rounding a mantissa [mx >= 0] at exponent [ex]: the
    mantissa is shifted to the exponent of the format, incremented or not,
    and shifted once more when the increment carried. *)
Lemma binary_round_aux_shape prec emax s mx ex lx :
  0 <= mx ->
  let n1 := Z.max 0 (fexp prec emax (Zdigits2 mx + ex) - ex) in
  exists m1,
    (m1 = mx / 2 ^ n1 \/ m1 = mx / 2 ^ n1 + 1) /\
    (lx = loc_Exact -> mx mod 2 ^ n1 = 0 -> m1 = mx / 2 ^ n1) /\
    let n2 := Z.max 0 (fexp prec emax (Zdigits2 m1 + (ex + n1)) - (ex + n1)) in
    binary_round_aux prec emax s mx ex lx =
    match m1 / 2 ^ n2 with
    | 0 => S754_zero s
    | Z.pos m => if ex + n1 + n2 <=? emax - prec
                 then S754_finite s m (ex + n1 + n2) else S754_infinity s
    | Z.neg _ => S754_nan
    end.
Proof.
  intros Hmx n1. unfold binary_round_aux.
  unfold shr_fexp at 2.
  pose proof (shr_m_spec (shr_record_of_loc mx lx) ex
                (fexp prec emax (Zdigits2 mx + ex) - ex)) as Hs1.
  rewrite shr_record_of_loc_m in Hs1. specialize (Hs1 Hmx).
  fold n1 in Hs1.
  destruct (shr (shr_record_of_loc mx lx) ex _) as [mrs1 e1] eqn:E1.
  simpl in Hs1. destruct Hs1 as [-> Hm1].
  set (m1 := round_nearest_even (shr_m mrs1) (loc_of_shr_record mrs1)).
  exists m1. split; [|split].
  - rewrite <- Hm1. apply round_nearest_even_range.
  - intros -> Hmod. unfold m1, n1 in *.
    assert (Hn1 : 0 <= Z.max 0 (fexp prec emax (Zdigits2 mx + ex) - ex)) by lia.
    pose proof (shr_exact (mx / 2 ^ Z.max 0 (fexp prec emax (Zdigits2 mx + ex) - ex)) ex _
                  ltac:(apply Z.div_pos; [lia|apply Z.pow_pos_nonneg; lia]) Hn1) as Hex.
    assert (Hmul : mx / 2 ^ Z.max 0 (fexp prec emax (Zdigits2 mx + ex) - ex) *
                   2 ^ Z.max 0 (fexp prec emax (Zdigits2 mx + ex) - ex) = mx).
    { pose proof (Z.div_mod mx (2 ^ Z.max 0 (fexp prec emax (Zdigits2 mx + ex) - ex))
                    ltac:(pose proof (Z.pow_pos_nonneg 2 _ ltac:(lia) Hn1); lia)).
      lia. }
    rewrite Hmul in Hex.
    simpl in E1.
    assert (shr {| shr_m := mx; shr_r := false; shr_s := false |} ex
              (fexp prec emax (Zdigits2 mx + ex) - ex) =
            shr {| shr_m := mx; shr_r := false; shr_s := false |} ex
              (Z.max 0 (fexp prec emax (Zdigits2 mx + ex) - ex))) as Hshr.
    { destruct (fexp prec emax (Zdigits2 mx + ex) - ex); simpl; try done. }
    rewrite Hshr in E1. rewrite E1 in Hex. simpl in Hex. subst mrs1. simpl. done.
  - set (n2 := Z.max 0 (fexp prec emax (Zdigits2 m1 + (ex + n1)) - (ex + n1))).
    unfold shr_fexp. rewrite E1. fold m1.
    assert (0 <= m1) as Hm1pos.
    { assert (0 <= shr_m mrs1).
      { rewrite Hm1. apply Z.div_pos; [lia|apply Z.pow_pos_nonneg; lia]. }
      unfold m1. destruct (round_nearest_even_range (shr_m mrs1) (loc_of_shr_record mrs1)); lia. }
    pose proof (shr_m_spec (shr_record_of_loc m1 loc_Exact) (ex + n1)
                  (fexp prec emax (Zdigits2 m1 + (ex + n1)) - (ex + n1))) as Hs2.
    rewrite shr_record_of_loc_m in Hs2. specialize (Hs2 Hm1pos). fold n2 in Hs2.
    destruct (shr (shr_record_of_loc m1 loc_Exact) (ex + n1) _) as [mrs2 e2] eqn:E2.
    simpl in Hs2. destruct Hs2 as [-> ->]. done.
Qed.

Lemma Zdigits2_ge m k : 0 < k -> 2 ^ (k - 1) <= m -> k <= Zdigits2 m.
Proof.
  intros Hk Hm.
  assert (0 < m) by (pose proof (Z.pow_pos_nonneg 2 (k - 1)); lia).
  pose proof (Zdigits2_upper m ltac:(lia)). pose proof (Zdigits2_nonneg m).
  destruct (Z.le_gt_cases k (Zdigits2 m)); [done|].
  assert (2 ^ Zdigits2 m <= 2 ^ (k - 1)) by (apply Z.pow_le_mono_r; lia). lia.
Qed.

Section Rounding.
Variables prec emax : Z.
Hypothesis Hprec : 0 < prec.

Local Abbreviation fexp := (fexp prec emax).
Local Abbreviation emin := (emin prec emax).

Lemma fexp_spec k : fexp k = Z.max (k - prec) emin.
Proof. reflexivity. Qed.

Lemma fexp_mono k k' : k <= k' -> fexp k <= fexp k'.
Proof. rewrite !fexp_spec. lia. Qed.

(** A positive mantissa at an exponent of the format keeps a bit when it is
    shifted to its canonical exponent. *)
Lemma canonical_shift_lt m e :
  0 < m -> emin <= e -> fexp (Zdigits2 m + e) - e < Zdigits2 m.
Proof. intros Hm He. pose proof (Zdigits2_pos m Hm). rewrite fexp_spec. lia. Qed.

Lemma valid_binary_finite s m e :
  valid_binary prec emax (S754_finite s m e) = true <->
  fexp (Zdigits2 (Z.pos m) + e) = e /\ e <= emax - prec.
Proof.
  simpl. unfold bounded, canonical_mantissa.
  rewrite andb_true_iff, Z.eqb_eq, Z.leb_le. done.
Qed.

(** Rounding produces a value of the format, provided the mantissa is not
    already coarser than the format allows. *)
Lemma binary_round_aux_valid s mx ex lx :
  0 <= mx -> ex <= fexp (Zdigits2 mx + ex) ->
  valid_binary prec emax (binary_round_aux prec emax s mx ex lx) = true.
Proof.
  intros Hmx Hex.
  destruct (binary_round_aux_shape prec emax s mx ex lx Hmx) as (m1 & Hm1 & _ & ->).
  set (n1 := Z.max 0 (fexp (Zdigits2 mx + ex) - ex)) in *.
  set (e1 := ex + n1) in *.
  set (n2 := Z.max 0 (fexp (Zdigits2 m1 + e1) - e1)).
  assert (He1 : e1 = fexp (Zdigits2 mx + ex)) by (unfold e1, n1; lia).
  assert (Hn1 : 0 <= n1) by (unfold n1; lia).
  assert (Hn2 : 0 <= n2) by (unfold n2; lia).
  pose proof (Z.pow_pos_nonneg 2 n1 ltac:(lia) Hn1) as Hp1.
  pose proof (Z.pow_pos_nonneg 2 n2 ltac:(lia) Hn2) as Hp2.
  assert (Hbase : 0 <= mx / 2 ^ n1) by (apply Z.div_pos; lia).
  assert (Hm1pos : 0 <= m1) by lia.
  destruct (m1 / 2 ^ n2) as [|m|m] eqn:Hm2; [done| |].
  2:{ pose proof (Z.div_pos m1 (2 ^ n2) Hm1pos Hp2). lia. }
  destruct (Z.leb_spec (e1 + n2) (emax - prec)) as [Hle|]; [|done].
  apply valid_binary_finite. split; [|done].
  assert (n2 < Zdigits2 m1) as Hlt.
  { destruct (Z.lt_ge_cases n2 (Zdigits2 m1)) as [|Hge]; [done|].
    rewrite (div_pow2_small m1 n2) in Hm2 by lia. discriminate. }
  assert (0 < m1) as Hm1pos' by (destruct m1; simpl in *; lia).
  rewrite <- Hm2, Zdigits2_div_pow2 by lia.
  replace (Zdigits2 m1 - n2 + (e1 + n2)) with (Zdigits2 m1 + e1) by lia.
  enough (e1 <= fexp (Zdigits2 m1 + e1)) by (unfold n2; lia).
  destruct (Z.eq_dec (mx / 2 ^ n1) 0) as [Hz|Hnz].
  - assert (m1 = 1) as -> by lia. simpl Zdigits2.
    assert (Zdigits2 mx <= n1) as Hd.
    { apply Zdigits2_le; [done|done|].
      destruct (Z.lt_ge_cases mx (2 ^ n1)) as [|Hge]; [done|].
      assert (1 <= mx / 2 ^ n1) by (apply Z.div_le_lower_bound; lia). lia. }
    rewrite fexp_spec in *. lia.
  - assert (n1 < Zdigits2 mx) as Hlt1.
    { destruct (Z.lt_ge_cases n1 (Zdigits2 mx)) as [|Hge]; [done|].
      rewrite (div_pow2_small mx n1) in Hnz by lia. done. }
    assert (Zdigits2 (mx / 2 ^ n1) + e1 = Zdigits2 mx + ex) as Hd.
    { rewrite Zdigits2_div_pow2 by lia. unfold e1. lia. }
    rewrite He1 at 1. rewrite <- Hd. apply fexp_mono.
    assert (Zdigits2 (mx / 2 ^ n1) <= Zdigits2 m1) by (apply Zdigits2_mono; lia).
    lia.
Qed.

(** Rounding a value below [2 ^ K] gives at most [2 ^ K]. *)
Lemma binary_round_aux_le_pow2 s mx ex lx K :
  0 <= mx -> emin <= K -> K < emax -> emin <= emax - prec ->
  ex <= K -> ex <= emax - prec ->
  mx < 2 ^ (K - ex) ->
  binary_round_aux prec emax s mx ex lx = S754_zero s \/
  exists m e, binary_round_aux prec emax s mx ex lx = S754_finite s m e /\
              e <= K /\ Z.pos m <= 2 ^ (K - e).
Proof.
  intros Hmx HK HKmax Hrange Hex Hex' Hlt.
  destruct (binary_round_aux_shape prec emax s mx ex lx Hmx) as (m1 & Hm1 & _ & ->).
  set (n1 := Z.max 0 (fexp (Zdigits2 mx + ex) - ex)) in *.
  set (e1 := ex + n1) in *.
  set (n2 := Z.max 0 (fexp (Zdigits2 m1 + e1) - e1)).
  assert (Hn1 : 0 <= n1) by (unfold n1; lia).
  assert (Hn2 : 0 <= n2) by (unfold n2; lia).
  pose proof (Z.pow_pos_nonneg 2 n1 ltac:(lia) Hn1) as Hp1.
  pose proof (Z.pow_pos_nonneg 2 n2 ltac:(lia) Hn2) as Hp2.
  assert (Hbase : 0 <= mx / 2 ^ n1) by (apply Z.div_pos; lia).
  assert (Hm1pos : 0 <= m1) by lia.
  assert (Hd : Zdigits2 mx <= K - ex) by (apply Zdigits2_le; lia).
  assert (He1 : e1 <= K /\ e1 <= emax - prec)
    by (unfold e1, n1; rewrite fexp_spec; lia).
  assert (Hb1 : mx / 2 ^ n1 < 2 ^ (K - e1)).
  { apply Z.div_lt_upper_bound; [lia|].
    rewrite <- Z.pow_add_r by lia.
    replace (n1 + (K - e1)) with (K - ex) by (unfold e1; lia). done. }
  assert (Hb1' : m1 <= 2 ^ (K - e1)) by lia.
  assert (Hd1 : Zdigits2 m1 <= K - e1 + 1).
  { apply Zdigits2_le; [done|lia|].
    rewrite Z.pow_add_r by lia. change (2 ^ 1) with 2.
    pose proof (Z.pow_pos_nonneg 2 (K - e1) ltac:(lia) ltac:(lia)). lia. }
  assert (He2 : e1 + n2 <= K /\ e1 + n2 <= emax - prec)
    by (unfold n2; rewrite fexp_spec; lia).
  assert (Hb2 : m1 / 2 ^ n2 <= 2 ^ (K - (e1 + n2))).
  { replace (2 ^ (K - (e1 + n2))) with (2 ^ (K - e1) / 2 ^ n2).
    - apply Z.div_le_mono; lia.
    - replace (K - e1) with (K - (e1 + n2) + n2) by lia.
      rewrite Z.pow_add_r by lia. apply Z.div_mul. lia. }
  destruct (m1 / 2 ^ n2) as [|m|m] eqn:Hm2; [by left| |].
  2:{ pose proof (Z.div_pos m1 (2 ^ n2) Hm1pos Hp2). lia. }
  right. destruct (Z.leb_spec (e1 + n2) (emax - prec)) as [Hle|]; [|lia].
  exists m, (e1 + n2). split; [done|]. split; [lia|done].
Qed.

(** Rounding is exact when no set bit is shifted out. *)
Lemma binary_round_aux_exact s mx ex :
  0 < mx ->
  let n := Z.max 0 (fexp (Zdigits2 mx + ex) - ex) in
  emin <= ex -> mx mod 2 ^ n = 0 -> ex + n <= emax - prec ->
  binary_round_aux prec emax s mx ex loc_Exact =
  match mx / 2 ^ n with
  | Z.pos m => S754_finite s m (ex + n)
  | _ => S754_nan
  end.
Proof.
  intros Hmx n Hemin Hmod Hmax.
  destruct (binary_round_aux_shape prec emax s mx ex loc_Exact ltac:(lia))
    as (m1 & _ & Hm1 & ->).
  fold n in Hm1 |- *. rewrite (Hm1 eq_refl Hmod). clear Hm1 m1.
  assert (Hn : 0 <= n) by (unfold n; lia).
  pose proof (Z.pow_pos_nonneg 2 n ltac:(lia) Hn) as Hp.
  assert (n < Zdigits2 mx) as Hlt.
  { pose proof (canonical_shift_lt mx ex Hmx Hemin).
    pose proof (Zdigits2_pos mx Hmx). unfold n. lia. }
  assert (Zdigits2 (mx / 2 ^ n) + (ex + n) = Zdigits2 mx + ex) as Hd.
  { rewrite Zdigits2_div_pow2 by lia. lia. }
  rewrite Hd.
  replace (Z.max 0 (fexp (Zdigits2 mx + ex) - (ex + n))) with 0 by (unfold n; lia).
  rewrite Z.div_1_r, Z.add_0_r.
  assert (0 < mx / 2 ^ n) as Hq.
  { pose proof (Zdigits2_nonneg (mx / 2 ^ n)).
    assert (0 <= mx / 2 ^ n) by (apply Z.div_pos; lia).
    destruct (Z.eq_dec (mx / 2 ^ n) 0) as [Hz|]; [|lia].
    rewrite Hz in Hd. simpl in Hd. lia. }
  destruct (mx / 2 ^ n) as [|m|m]; try lia.
  destruct (Z.leb_spec (ex + n) (emax - prec)); [done|lia].
Qed.
End Rounding.

Lemma pos_iter_xO m d : Z.pos (Pos.iter xO m d) = Z.pos m * 2 ^ Z.pos d.
Proof.
  induction d as [|d IH] using Pos.peano_ind.
  - simpl. lia.
  - rewrite Pos.iter_succ, Pos2Z.inj_succ, Z.pow_succ_r by lia.
    rewrite Pos2Z.inj_xO, IH. ring.
Qed.

Lemma shl_align_fst mx ex ez :
  ez <= ex -> Z.pos (fst (shl_align mx ex ez)) = Z.pos mx * 2 ^ (ex - ez).
Proof.
  intros H. unfold shl_align.
  destruct (ez - ex) as [|d|d] eqn:E; simpl.
  - replace (ex - ez) with 0 by lia. lia.
  - lia.
  - rewrite pos_iter_xO. f_equal. f_equal. lia.
Qed.

Lemma shl_align_snd mx ex ez :
  snd (shl_align mx ex ez) = Z.min ex ez.
Proof.
  unfold shl_align. destruct (ez - ex) as [|d|d] eqn:E; simpl; lia.
Qed.

Lemma shl_align_cases mx ex ez :
  (ez < ex /\ exists mz, shl_align mx ex ez = (mz, ez) /\
                         Z.pos mz = Z.pos mx * 2 ^ (ex - ez)) \/
  (ex <= ez /\ shl_align mx ex ez = (mx, ex)).
Proof.
  unfold shl_align. destruct (ez - ex) as [|d|d] eqn:E.
  - right. split; [lia|done].
  - right. split; [lia|done].
  - left. split; [lia|]. eexists. split; [done|].
    rewrite pos_iter_xO. f_equal. f_equal. lia.
Qed.

Section Order.
Variables prec emax : Z.
Hypothesis Hprec : 0 < prec.

Local Abbreviation fexp := (fexp prec emax).
Local Abbreviation emin := (emin prec emax).
Local Abbreviation valid := (valid_binary prec emax).

Lemma canonical_digits m e :
  fexp (Zdigits2 (Z.pos m) + e) = e ->
  Zdigits2 (Z.pos m) <= prec /\ emin <= e /\
  (emin < e -> Zdigits2 (Z.pos m) = prec).
Proof. rewrite fexp_spec. lia. Qed.

(** On values of the format the comparison of exponents, then of
    mantissas, is the comparison of the magnitudes. *)
Lemma canonical_lt_value m1 e1 m2 e2 :
  valid (S754_finite false m1 e1) = true ->
  valid (S754_finite false m2 e2) = true ->
  SFcompare (S754_finite false m1 e1) (S754_finite false m2 e2) = Some Lt ->
  e1 <= e2 /\ Z.pos m1 < Z.pos m2 * 2 ^ (e2 - e1).
Proof.
  intros [H1 _]%valid_binary_finite [H2 _]%valid_binary_finite. simpl.
  apply canonical_digits in H1 as (Hd1 & He1 & _).
  apply canonical_digits in H2 as (Hd2 & He2 & Hn2).
  destruct (Z.compare_spec e1 e2) as [->|Hlt|Hgt]; [| |discriminate].
  - intros [= Hc]. change (Pos.compare m1 m2 = Lt) in Hc.
    assert (m1 < m2)%positive by exact Hc.
    rewrite Z.sub_diag. change (2 ^ 0) with 1. lia.
  - intros _. split; [lia|].
    pose proof (Zdigits2_upper (Z.pos m1) ltac:(lia)).
    pose proof (Zdigits2_lower (Z.pos m2) ltac:(lia)) as Hlo.
    rewrite Hn2 in Hlo by lia.
    assert (2 ^ Zdigits2 (Z.pos m1) <= 2 ^ prec) by (apply Z.pow_le_mono_r; lia).
    assert (2 ^ 1 <= 2 ^ (e2 - e1)) by (apply Z.pow_le_mono_r; lia).
    assert (2 ^ prec = 2 * 2 ^ (prec - 1)) as Hpp.
    { rewrite <- Z.pow_succ_r by lia. f_equal. lia. }
    change (2 ^ 1) with 2 in *.
    assert (2 * Z.pos m2 <= Z.pos m2 * 2 ^ (e2 - e1)) by nia. lia.
Qed.

(** *** Rounding a mantissa that may still need alignment *)

Lemma binary_round_aligned mx ex :
  let '(mz, ez) := shl_align mx ex (fexp (Z.pos (digits2_pos mx) + ex)) in
  ez <= fexp (Zdigits2 (Z.pos mz) + ez) /\ (emin <= ex -> emin <= ez).
Proof.
  change (Z.pos (digits2_pos mx)) with (Zdigits2 (Z.pos mx)).
  destruct (shl_align_cases mx ex (fexp (Zdigits2 (Z.pos mx) + ex)))
    as [(Hlt & mz & -> & Hmz)|(Hle & ->)].
  - rewrite Hmz, Zdigits2_mul_pow2 by lia.
    replace (Zdigits2 (Z.pos mx) + (ex - fexp (Zdigits2 (Z.pos mx) + ex)) +
             fexp (Zdigits2 (Z.pos mx) + ex)) with (Zdigits2 (Z.pos mx) + ex) by lia.
    split; [lia|]. rewrite fexp_spec. lia.
  - split; [done|lia].
Qed.

Lemma binary_round_valid s mx ex :
  valid (binary_round prec emax s mx ex) = true.
Proof.
  unfold binary_round. pose proof (binary_round_aligned mx ex) as H.
  destruct (shl_align _ _ _) as [mz ez]. destruct H as [H _].
  apply binary_round_aux_valid; try done; lia.
Qed.

(** The class of a rounded value: it keeps its sign, and a positive
    mantissa at an exponent of the format does not round to zero. *)
Lemma binary_round_aux_class s mx ex lx :
  0 <= mx ->
  match binary_round_aux prec emax s mx ex lx with
  | S754_zero s' => s' = s /\ ~ (0 < mx /\ emin <= ex)
  | S754_finite s' _ _ => s' = s
  | S754_infinity s' => s' = s
  | S754_nan => False
  end.
Proof.
  intros Hmx.
  destruct (binary_round_aux_shape prec emax s mx ex lx Hmx) as (m1 & Hm1 & _ & ->).
  set (n1 := Z.max 0 (fexp (Zdigits2 mx + ex) - ex)) in *.
  set (e1 := ex + n1) in *.
  set (n2 := Z.max 0 (fexp (Zdigits2 m1 + e1) - e1)).
  assert (Hn1 : 0 <= n1) by (unfold n1; lia).
  assert (Hn2 : 0 <= n2) by (unfold n2; lia).
  pose proof (Z.pow_pos_nonneg 2 n1 ltac:(lia) Hn1) as Hp1.
  pose proof (Z.pow_pos_nonneg 2 n2 ltac:(lia) Hn2) as Hp2.
  assert (Hbase : 0 <= mx / 2 ^ n1) by (apply Z.div_pos; lia).
  assert (Hm1pos : 0 <= m1) by lia.
  destruct (m1 / 2 ^ n2) as [|m|m] eqn:Hm2.
  - split; [done|]. intros [Hpos Hemin].
    pose proof (canonical_shift_lt prec emax Hprec mx ex Hpos Hemin).
    pose proof (Zdigits2_pos mx Hpos).
    assert (n1 < Zdigits2 mx) by (unfold n1; lia).
    assert (0 < mx / 2 ^ n1).
    { pose proof (Zdigits2_div_pow2 mx n1 ltac:(lia) ltac:(lia)) as Hd.
      destruct (Z.eq_dec (mx / 2 ^ n1) 0) as [Hz|]; [|lia].
      rewrite Hz in Hd. simpl in Hd. lia. }
    assert (0 < m1) by lia.
    assert (emin <= e1) by (unfold e1; lia).
    pose proof (canonical_shift_lt prec emax Hprec m1 e1 ltac:(lia) ltac:(lia)).
    pose proof (Zdigits2_pos m1 ltac:(lia)).
    assert (n2 < Zdigits2 m1) by (unfold n2; lia).
    pose proof (Zdigits2_div_pow2 m1 n2 ltac:(lia) ltac:(lia)) as Hd.
    rewrite Hm2 in Hd. simpl in Hd. lia.
  - by destruct (_ <=? _).
  - pose proof (Z.div_pos m1 (2 ^ n2) Hm1pos Hp2). lia.
Qed.

Lemma binary_round_class s mx ex :
  match binary_round prec emax s mx ex with
  | S754_zero s' => s' = s /\ ~ emin <= ex
  | S754_finite s' _ _ => s' = s
  | S754_infinity s' => s' = s
  | S754_nan => False
  end.
Proof.
  unfold binary_round. pose proof (binary_round_aligned mx ex) as H.
  destruct (shl_align _ _ _) as [mz ez]. destruct H as [_ H].
  pose proof (binary_round_aux_class s (Z.pos mz) ez loc_Exact ltac:(lia)) as Hc.
  destruct (binary_round_aux _ _ _ _ _ _); try done.
  destruct Hc as [-> Hc]. split; [done|]. intros He. apply Hc. split; [lia|auto].
Qed.
End Order.

(** ** The order of floats *)

Lemma compare_cont_Eq p q : Pos.compare_cont Eq p q = Pos.compare p q.
Proof. reflexivity. Qed.

Ltac compare_cases :=
  repeat match goal with
  | |- context [Z.compare ?a ?b] =>
      destruct (Z.compare_spec a b); simpl; try subst
  | |- context [Pos.compare_cont Eq ?a ?b] =>
      change (Pos.compare_cont Eq a b) with (Pos.compare a b);
      destruct (Pos.compare_spec a b); simpl; try subst
  end.

Lemma SFcompare_antisym x y :
  SFcompare y x = option_map CompOpp (SFcompare x y).
Proof.
  destruct x as [sx|sx| |sx mx ex], y as [sy|sy| |sy my ey]; simpl; try done;
    try (by destruct sx); try (by destruct sy); try (by destruct sx, sy).
  rewrite !compare_cont_Eq.
  destruct sx, sy; simpl; try done; f_equal;
    rewrite (Z.compare_antisym ex ey), (Pos.compare_antisym mx my);
    destruct (ex ?= ey); simpl; try done; by destruct (mx ?= my)%positive.
Qed.

Lemma SFleb_total x y :
  is_nan x = false -> is_nan y = false -> SFleb x y = false -> SFleb y x = true.
Proof.
  intros Hx Hy. unfold SFleb. rewrite (SFcompare_antisym x y).
  destruct (SFcompare x y) as [[]|] eqn:E; simpl; try done.
  destruct x, y; simpl in *; try done; by destruct s.
Qed.

Lemma SFleb_refl x : is_nan x = false -> SFleb x x = true.
Proof.
  intros Hx. unfold SFleb.
  destruct x as [sx|sx| |sx mx ex]; simpl in *; try done; try by destruct sx.
  rewrite compare_cont_Eq, Z.compare_refl, Pos.compare_refl. by destruct sx.
Qed.

Lemma SFleb_trans x y z :
  SFleb x y = true -> SFleb y z = true -> SFleb x z = true.
Proof.
  unfold SFleb.
  destruct x as [sx|sx| |sx mx ex], y as [sy|sy| |sy my ey], z as [sz|sz| |sz mz ez];
    simpl; try done;
    try (by destruct sx); try (by destruct sy); try (by destruct sz);
    try (by destruct sx, sy); try (by destruct sy, sz); try (by destruct sx, sz);
    try (by destruct sx, sy, sz).
  destruct sx, sy, sz; simpl; try done; compare_cases; try done; lia.
Qed.

(** Two floats that compare equal, one of them a number: the same number. *)
Lemma SFeqb_finite_eq x s m e :
  SFeqb x (S754_finite s m e) = true -> x = S754_finite s m e.
Proof.
  unfold SFeqb. destruct x as [sx|sx| |sx mx ex]; simpl; try done;
    try (by destruct sx); try (by destruct s).
  rewrite !compare_cont_Eq.
  destruct sx, s; simpl; try done;
    destruct (Z.compare_spec ex e); simpl; try done;
    destruct (Pos.compare_spec mx m); simpl; try done; by subst.
Qed.

Lemma SFleb_antisym_finite x s m e :
  SFleb x (S754_finite s m e) = true -> SFleb (S754_finite s m e) x = true ->
  x = S754_finite s m e.
Proof.
  intros H1 H2. apply SFeqb_finite_eq. unfold SFeqb, SFleb in *.
  rewrite (SFcompare_antisym x) in H2.
  by destruct (SFcompare x _) as [[]|].
Qed.

Section Sub.
Variables prec emax : Z.
Hypothesis Hprec : 0 < prec.

Local Abbreviation fexp := (fexp prec emax).
Local Abbreviation emin := (emin prec emax).
Local Abbreviation valid := (valid_binary prec emax).

Lemma compare_aligned_pos m1 e1 m2 e2 :
  valid (S754_finite false m1 e1) = true ->
  valid (S754_finite false m2 e2) = true ->
  SFcompare (S754_finite false m1 e1) (S754_finite false m2 e2) =
  Some (Z.pos m1 * 2 ^ (e1 - Z.min e1 e2) ?= Z.pos m2 * 2 ^ (e2 - Z.min e1 e2)).
Proof.
  intros H1 H2.
  destruct (SFcompare (S754_finite false m1 e1) (S754_finite false m2 e2))
    as [[]|] eqn:E; [| | |done].
  - assert (SFeqb (S754_finite false m1 e1) (S754_finite false m2 e2) = true) as Heq
      by (unfold SFeqb; by rewrite E).
    apply SFeqb_finite_eq in Heq as [= -> ->]. by rewrite Z.compare_refl.
  - destruct (canonical_lt_value prec emax Hprec _ _ _ _ H1 H2 E) as [He Hm].
    rewrite Z.min_l, Z.sub_diag by done. change (2 ^ 0) with 1.
    f_equal. symmetry. apply Z.compare_lt_iff. lia.
  - assert (SFcompare (S754_finite false m2 e2) (S754_finite false m1 e1) = Some Lt) as E'
      by (rewrite SFcompare_antisym, E; done).
    destruct (canonical_lt_value prec emax Hprec _ _ _ _ H2 H1 E') as [He Hm].
    rewrite Z.min_r, Z.sub_diag by done. change (2 ^ 0) with 1.
    f_equal. symmetry. apply Z.compare_gt_iff. lia.
Qed.

Lemma SFcompare_neg m1 e1 m2 e2 :
  SFcompare (S754_finite true m1 e1) (S754_finite true m2 e2) =
  SFcompare (S754_finite false m2 e2) (S754_finite false m1 e1).
Proof.
  simpl. f_equal. compare_cases; try done; lia.
Qed.

(** The comparison of two numbers of the format is the comparison of their
    mantissas once aligned to the smaller exponent. *)
Lemma compare_aligned s1 m1 e1 s2 m2 e2 :
  valid (S754_finite s1 m1 e1) = true ->
  valid (S754_finite s2 m2 e2) = true ->
  SFcompare (S754_finite s1 m1 e1) (S754_finite s2 m2 e2) =
  Some (cond_Zopp s1 (Z.pos m1 * 2 ^ (e1 - Z.min e1 e2)) ?=
        cond_Zopp s2 (Z.pos m2 * 2 ^ (e2 - Z.min e1 e2))).
Proof.
  intros H1 H2.
  assert (0 < Z.pos m1 * 2 ^ (e1 - Z.min e1 e2)) as HA.
  { apply Z.mul_pos_pos; [lia|apply Z.pow_pos_nonneg; lia]. }
  assert (0 < Z.pos m2 * 2 ^ (e2 - Z.min e1 e2)) as HB.
  { apply Z.mul_pos_pos; [lia|apply Z.pow_pos_nonneg; lia]. }
  destruct s1, s2.
  - rewrite SFcompare_neg, compare_aligned_pos by done.
    cbn [cond_Zopp]. rewrite Z.compare_opp, (Z.min_comm e2 e1). done.
  - cbn [cond_Zopp SFcompare]. f_equal. symmetry. apply Z.compare_lt_iff. lia.
  - cbn [cond_Zopp SFcompare]. f_equal. symmetry. apply Z.compare_gt_iff. lia.
  - by apply compare_aligned_pos.
Qed.

Lemma SFsub_finite sx mx ex sy my ey :
  SFsub prec emax (S754_finite sx mx ex) (S754_finite sy my ey) =
  binary_normalize prec emax
    (cond_Zopp sx (Z.pos mx * 2 ^ (ex - Z.min ex ey)) -
     cond_Zopp sy (Z.pos my * 2 ^ (ey - Z.min ex ey)))
    (Z.min ex ey) false.
Proof.
  cbn [SFsub]. by rewrite !shl_align_fst by lia.
Qed.

Lemma SFsub_valid x y :
  valid x = true -> valid y = true -> valid (SFsub prec emax x y) = true.
Proof.
  destruct x as [sx|sx| |sx mx ex], y as [sy|sy| |sy my ey]; try done;
    try (by destruct sx, sy).
  intros _ _. rewrite SFsub_finite.
  destruct (_ - _); simpl; try done; apply (binary_round_valid prec emax).
Qed.

(** Subtracting a lower bound [lo <= x]: the difference is not negative,
    and it is a zero exactly when [x <= lo] as well. *)
Lemma SFsub_lower_bound x lo :
  valid x = true -> valid lo = true ->
  is_finite x = true -> is_finite lo = true ->
  SFleb lo x = true ->
  nonneg (SFsub prec emax x lo) = true /\
  is_zero (SFsub prec emax x lo) = SFleb x lo.
Proof.
  intros Hvx Hvlo Hfx Hflo Hle.
  destruct x as [sx|sx| |sx mx ex], lo as [sy|sy| |sy my ey]; try done.
  - by destruct sx, sy.
  - destruct sy; [|done]. by destruct sx.
  - destruct sx; [done|]. by destruct sy.
  - rewrite SFsub_finite.
    unfold SFleb in *. rewrite (compare_aligned sx mx ex sy my ey) by done.
    rewrite (compare_aligned sy my ey sx mx ex) in Hle by done.
    rewrite (Z.min_comm ey ex) in Hle.
    set (X := cond_Zopp sx (Z.pos mx * 2 ^ (ex - Z.min ex ey))) in *.
    set (Y := cond_Zopp sy (Z.pos my * 2 ^ (ey - Z.min ex ey))) in *.
    assert (emin <= Z.min ex ey) as Hemin.
    { apply valid_binary_finite in Hvx as [Hx _], Hvlo as [Hy _].
      apply canonical_digits in Hx, Hy. lia. }
    destruct (Z.compare_spec Y X) as [Heq|Hlt|Hgt]; [| |done].
    + rewrite Heq, Z.sub_diag, Z.compare_refl. done.
    + assert ((X ?= Y) = Gt) as -> by (apply Z.compare_gt_iff; lia).
      destruct (X - Y) as [|p|p] eqn:Hd; try lia. cbn [binary_normalize].
      pose proof (binary_round_class prec emax Hprec false p (Z.min ex ey)) as Hc.
      destruct (binary_round _ _ _ _ _) as [s|s| |s m e]; try done.
      * by destruct Hc.
      * by subst.
      * by subst.
Qed.

Lemma SFsub_zero_r x s :
  SFsub prec emax x (S754_zero s) = x \/
  (is_zero x = true /\ is_zero (SFsub prec emax x (S754_zero s)) = true).
Proof.
  destruct x as [sx|sx| |sx mx ex]; simpl; auto.
  right. by destruct sx, s.
Qed.
End Sub.

Lemma new_location_0 n : new_location n 0 = loc_Exact.
Proof. unfold new_location. by destruct (Z.even n). Qed.

Section Div.
Variables prec emax : Z.
Hypothesis Hprec : 0 < prec.
Hypothesis Hemax : prec < emax.

Local Abbreviation fexp := (fexp prec emax).
Local Abbreviation emin := (emin prec emax).
Local Abbreviation valid := (valid_binary prec emax).

Lemma SFdiv_core_binary_spec m1 e1 m2 e2 :
  0 < m1 -> 0 < m2 ->
  let e' := Z.min (fexp (Zdigits2 m1 + e1 - (Zdigits2 m2 + e2))) (e1 - e2) in
  let s := e1 - e2 - e' in
  SFdiv_core_binary prec emax m1 e1 m2 e2 =
  (m1 * 2 ^ s / m2, e', new_location m2 ((m1 * 2 ^ s) mod m2)).
Proof.
  intros H1 H2 e' s. unfold SFdiv_core_binary. fold e'. fold s.
  assert (0 <= s) as Hs by (unfold s, e'; lia).
  replace (match s with Z0 => m1 | Z.pos _ => Z.shiftl m1 s | Z.neg _ => 0 end)
    with (m1 * 2 ^ s).
  2:{ destruct s as [|p|p] eqn:E; [change (2 ^ 0) with 1; lia| |lia].
      by rewrite Z.shiftl_mul_pow2 by lia. }
  unfold Z.div, Z.modulo. by destruct (Z.div_eucl _ _).
Qed.

(** The quotient has enough digits for the exponent chosen for it. *)
Lemma SFdiv_core_binary_digits m1 e1 m2 e2 :
  0 < m1 -> 0 < m2 ->
  let e' := Z.min (fexp (Zdigits2 m1 + e1 - (Zdigits2 m2 + e2))) (e1 - e2) in
  let s := e1 - e2 - e' in
  0 <= m1 * 2 ^ s / m2 /\
  e' <= fexp (Zdigits2 (m1 * 2 ^ s / m2) + e').
Proof.
  intros H1 H2 e' s.
  assert (0 <= s) as Hs by (unfold s, e'; lia).
  pose proof (Z.pow_pos_nonneg 2 s ltac:(lia) Hs) as Hps.
  assert (0 <= m1 * 2 ^ s / m2) as Hq by (apply Z.div_pos; nia).
  split; [done|].
  set (q := m1 * 2 ^ s / m2) in *.
  assert (Zdigits2 m1 + s - Zdigits2 m2 <= Zdigits2 q) as Hd.
  { pose proof (Zdigits2_nonneg q).
    destruct (Z.le_gt_cases (Zdigits2 m1 + s - Zdigits2 m2) 0) as [|Hpos]; [lia|].
    apply Zdigits2_ge; [lia|]. unfold q.
    apply Z.div_le_lower_bound; [lia|].
    pose proof (Zdigits2_lower m1 H1) as Hlo1.
    pose proof (Zdigits2_upper m2 ltac:(lia)) as Hup2.
    pose proof (Zdigits2_pos m1 H1). pose proof (Zdigits2_pos m2 H2).
    set (k := Zdigits2 m1 + s - Zdigits2 m2 - 1) in *.
    assert (0 <= k) by (unfold k; lia).
    assert (2 ^ (Zdigits2 m1 - 1) * 2 ^ s = 2 ^ Zdigits2 m2 * 2 ^ k) as Hpow.
    { rewrite <- !Z.pow_add_r by lia. f_equal. unfold k. lia. }
    pose proof (Z.pow_pos_nonneg 2 k ltac:(lia) ltac:(lia)). nia. }
  transitivity (fexp (Zdigits2 m1 + e1 - (Zdigits2 m2 + e2))); [unfold e'; lia|].
  apply fexp_mono. unfold s in Hd. lia.
Qed.

Lemma SFdiv_finite sx mx ex sy my ey :
  let e' := Z.min (fexp (Zdigits2 (Z.pos mx) + ex - (Zdigits2 (Z.pos my) + ey)))
                  (ex - ey) in
  let s := ex - ey - e' in
  SFdiv prec emax (S754_finite sx mx ex) (S754_finite sy my ey) =
  binary_round_aux prec emax (xorb sx sy) (Z.pos mx * 2 ^ s / Z.pos my) e'
    (new_location (Z.pos my) ((Z.pos mx * 2 ^ s) mod Z.pos my)).
Proof.
  intros e' s. cbn [SFdiv].
  by rewrite (SFdiv_core_binary_spec (Z.pos mx) ex (Z.pos my) ey) by lia.
Qed.

Lemma SFdiv_valid x y :
  valid x = true -> valid y = true -> valid (SFdiv prec emax x y) = true.
Proof.
  destruct x as [sx|sx| |sx mx ex], y as [sy|sy| |sy my ey]; try done.
  intros _ _. rewrite SFdiv_finite.
  destruct (SFdiv_core_binary_digits (Z.pos mx) ex (Z.pos my) ey) as [Hq Hd]; [lia..|].
  by apply binary_round_aux_valid.
Qed.

(** A quotient [y / M] with [0 < y < M]: a number not above one. *)
Lemma SFdiv_lt_bound my ey mM eM :
  valid (S754_finite false my ey) = true ->
  valid (S754_finite false mM eM) = true ->
  SFcompare (S754_finite false my ey) (S754_finite false mM eM) = Some Lt ->
  SFdiv prec emax (S754_finite false my ey) (S754_finite false mM eM) = S754_zero false \/
  exists m e,
    SFdiv prec emax (S754_finite false my ey) (S754_finite false mM eM) =
      S754_finite false m e /\ e <= 0 /\ Z.pos m <= 2 ^ (- e).
Proof.
  intros Hy HM Hlt. rewrite SFdiv_finite. cbn [xorb].
  destruct (canonical_lt_value prec emax Hprec _ _ _ _ Hy HM Hlt) as [He Hm].
  set (e' := Z.min _ _). set (s' := ey - eM - e').
  assert (Zdigits2 (Z.pos my) + ey - (Zdigits2 (Z.pos mM) + eM) <= 0) as Hd.
  { pose proof (Zdigits2_lower (Z.pos my) ltac:(lia)) as Hlo.
    pose proof (Zdigits2_upper (Z.pos mM) ltac:(lia)) as Hup.
    pose proof (Zdigits2_pos (Z.pos my) ltac:(lia)).
    pose proof (Zdigits2_pos (Z.pos mM) ltac:(lia)).
    destruct (Z.le_gt_cases (Zdigits2 (Z.pos my) + ey) (Zdigits2 (Z.pos mM) + eM))
      as [|Hgt]; [lia|].
    assert (2 ^ (Zdigits2 (Z.pos mM) + (eM - ey)) <= 2 ^ (Zdigits2 (Z.pos my) - 1))
      by (apply Z.pow_le_mono_r; lia).
    rewrite Z.pow_add_r in * by lia.
    pose proof (Z.pow_pos_nonneg 2 (eM - ey) ltac:(lia) ltac:(lia)). nia. }
  assert (e' <= 0) as He' by (unfold e'; rewrite fexp_spec; unfold SpecFloat.emin; lia).
  assert (0 <= s') as Hs' by (unfold s', e'; lia).
  assert (Z.pos my * 2 ^ s' < Z.pos mM * 2 ^ (- e')) as Hval.
  { replace (- e') with (eM - ey + s') by (unfold s'; lia).
    rewrite Z.pow_add_r by lia.
    pose proof (Z.pow_pos_nonneg 2 s' ltac:(lia) Hs'). nia. }
  replace (- e') with (0 - e') in * by lia.
  assert (0 <= Z.pos my * 2 ^ s' / Z.pos mM)
    by (apply Z.div_pos; [|lia]; pose proof (Z.pow_pos_nonneg 2 s'); lia).
  assert (Z.pos my * 2 ^ s' / Z.pos mM < 2 ^ (0 - e'))
    by (apply Z.div_lt_upper_bound; lia).
  destruct (binary_round_aux_le_pow2 prec emax Hprec false
              (Z.pos my * 2 ^ s' / Z.pos mM) e'
              (new_location (Z.pos mM) ((Z.pos my * 2 ^ s') mod Z.pos mM)) 0)
    as [->|(m & e & -> & ? & ?)]; try done; try (unfold SpecFloat.emin; lia).
  - by left.
  - right. exists m, e. by replace (- e) with (0 - e) by lia.
Qed.
End Div.

Lemma Zdigits2_pow2 k : 0 <= k -> Zdigits2 (2 ^ k) = k + 1.
Proof.
  intros Hk. apply Zdigits2_unique; [lia|].
  replace (k + 1 - 1) with k by lia. split; [lia|].
  apply Z.pow_lt_mono_r; lia.
Qed.

Section Format.
Variables prec emax : Z.
Hypothesis Hprec : 1 < prec.
Hypothesis Hemax : prec < emax.

Local Abbreviation fexp := (fexp prec emax).
Local Abbreviation emin := (emin prec emax).
Local Abbreviation valid := (valid_binary prec emax).

Lemma emin_spec : emin = 3 - emax - prec.
Proof. reflexivity. Qed.

Lemma pow2_mantissa : Z.pos (Z.to_pos (2 ^ (prec - 1))) = 2 ^ (prec - 1).
Proof. apply Z2Pos.id, Z.pow_pos_nonneg; lia. Qed.

Lemma pow2_valid K :
emin + prec - 1 <= K -> K < emax -> valid (pow2 prec K) = true.
Proof.
intros H1 H2. apply valid_binary_finite.
rewrite pow2_mantissa, Zdigits2_pow2, fexp_spec by lia. lia.
Qed.

(** A number of the format with magnitude at most [2 ^ K] compares below
  [2 ^ K]. *)
Lemma le_pow2 m e K :
valid (S754_finite false m e) = true ->
emin + prec - 1 <= K -> e <= K -> Z.pos m <= 2 ^ (K - e) ->
SFleb (S754_finite false m e) (pow2 prec K) = true.
Proof.
intros [Hc _]%valid_binary_finite HK He Hm.
apply canonical_digits in Hc as (Hd & Hemin & Hn).
unfold SFleb, pow2. cbn [SFcompare]. rewrite compare_cont_Eq.
destruct (Z.compare_spec e (K - (prec - 1))) as [->|Hlt|Hgt]; [|done|].
- replace (K - (K - (prec - 1))) with (prec - 1) in Hm by lia.
  destruct (Pos.compare_spec m (Z.to_pos (2 ^ (prec - 1)))) as [| |Hgt];
    try done.
  apply Pos2Z.pos_lt_pos in Hgt. rewrite pow2_mantissa in Hgt. lia.
- pose proof (Zdigits2_lower (Z.pos m) ltac:(lia)) as Hlo.
  rewrite Hn in Hlo by lia.
  assert (2 ^ (K - e) < 2 ^ (prec - 1)) by (apply Z.pow_lt_mono_r; lia). lia.
Qed.

(** The integer part of such a number, unless the number is [2 ^ K]. *)
Lemma trunc_lt_pow2 m e K :
valid (S754_finite false m e) = true ->
0 <= K -> emin + prec - 1 <= K -> e <= K -> Z.pos m <= 2 ^ (K - e) ->
S754_finite false m e <> pow2 prec K ->
0 <= trunc (S754_finite false m e) < 2 ^ K.
Proof.
intros [Hc _]%valid_binary_finite HK HK' He Hm Hne.
assert (Z.pos m < 2 ^ (K - e)) as Hlt.
{ destruct (Z.eq_dec (Z.pos m) (2 ^ (K - e))) as [Heq|]; [|lia].
  exfalso. apply Hne. unfold pow2.
  assert (Zdigits2 (Z.pos m) = K - e + 1) as Hd
    by (rewrite Heq; apply Zdigits2_pow2; lia).
  rewrite Hd, fexp_spec in Hc.
  assert (e = K - (prec - 1)) as -> by lia.
  replace (K - (K - (prec - 1))) with (prec - 1) in Heq by lia.
  f_equal. rewrite <- Heq. by rewrite Pos2Z.id. }
cbn [trunc cond_Zopp].
destruct (Z.leb_spec 0 e) as [Hpos|Hneg].
- pose proof (Z.pow_pos_nonneg 2 e ltac:(lia) Hpos).
  split; [lia|].
  assert (2 ^ K = 2 ^ (K - e) * 2 ^ e) as ->
    by (rewrite <- Z.pow_add_r by lia; f_equal; lia).
  nia.
- pose proof (Z.pow_pos_nonneg 2 (- e) ltac:(lia) ltac:(lia)).
  split; [apply Z.div_pos; lia|].
  apply Z.div_lt_upper_bound; [lia|].
  rewrite <- Z.pow_add_r by lia. by replace (- e + K) with (K - e) by lia.
Qed.

(** [M / M = 1]. *)
Lemma SFdiv_self s m e :
SFdiv prec emax (S754_finite s m e) (S754_finite s m e) = pow2 prec 0.
Proof.
rewrite SFdiv_finite.
replace (Zdigits2 (Z.pos m) + e - (Zdigits2 (Z.pos m) + e)) with 0 by lia.
rewrite Z.sub_diag.
replace (Z.min (fexp 0) 0) with (- prec) by (rewrite fexp_spec, emin_spec; lia).
replace (0 - - prec) with prec by lia.
rewrite (Z.mul_comm (Z.pos m)), Z.div_mul, Z.mod_mul, new_location_0 by lia.
rewrite xorb_nilpotent.
pose proof (Z.pow_pos_nonneg 2 prec ltac:(lia) ltac:(lia)) as Hpp.
assert (2 ^ prec = 2 ^ (prec - 1) * 2 ^ 1) as Hsplit
  by (rewrite <- Z.pow_add_r by lia; f_equal; lia).
assert (Z.max 0 (fexp (Zdigits2 (2 ^ prec) + - prec) - - prec) = 1) as Hn.
{ rewrite Zdigits2_pow2, fexp_spec, emin_spec by lia. lia. }
rewrite (binary_round_aux_exact prec emax ltac:(lia)); rewrite ?Hn.
- rewrite Hsplit at 1. rewrite Z.div_mul by (change (2 ^ 1) with 2; lia).
  rewrite <- pow2_mantissa. unfold pow2. f_equal. lia.
- done.
- rewrite emin_spec. lia.
- rewrite Hsplit. apply Z.mod_mul. change (2 ^ 1) with 2. lia.
- lia.
Qed.

(** [x / 1 = x]. *)
Lemma SFdiv_one s m e :
valid (S754_finite s m e) = true ->
SFdiv prec emax (S754_finite s m e) (pow2 prec 0) = S754_finite s m e.
Proof.
intros [Hc Hmax]%valid_binary_finite. unfold pow2. rewrite SFdiv_finite.
rewrite pow2_mantissa, Zdigits2_pow2, xorb_false_r by lia.
pose proof (Zdigits2_pos (Z.pos m) ltac:(lia)) as Hdpos.
pose proof (Z.pow_pos_nonneg 2 (prec - 1) ltac:(lia) ltac:(lia)) as Hpp.
pose proof Hc as Hc'. apply canonical_digits in Hc' as (Hd & Hemin & Hn).
rewrite fexp_spec in Hc.
destruct (Z.eq_dec e emin) as [He|Hne].
- replace (Z.min _ _) with e by (rewrite fexp_spec; lia).
  replace (e - (0 - (prec - 1)) - e) with (prec - 1) by lia.
  rewrite Z.div_mul, Z.mod_mul, new_location_0 by lia.
  assert (Z.max 0 (fexp (Zdigits2 (Z.pos m) + e) - e) = 0) as Hz
    by (rewrite fexp_spec; lia).
  rewrite (binary_round_aux_exact prec emax ltac:(lia)); rewrite ?Hz.
  + by rewrite Z.div_1_r, Z.add_0_r.
  + lia.
  + lia.
  + apply Z.mod_1_r.
  + lia.
- replace (Z.min _ _) with (e - 1) by (rewrite fexp_spec; lia).
  replace (e - (0 - (prec - 1)) - (e - 1)) with prec by lia.
  assert (2 ^ prec = 2 * 2 ^ (prec - 1)) as ->
    by (rewrite <- Z.pow_succ_r by lia; f_equal; lia).
  replace (Z.pos m * (2 * 2 ^ (prec - 1))) with (Z.pos m~0 * 2 ^ (prec - 1)) by lia.
  rewrite Z.div_mul, Z.mod_mul, new_location_0 by lia.
  assert (Zdigits2 (Z.pos m~0) = prec + 1) as Hd2.
  { change (Z.pos m~0) with (2 * Z.pos m). rewrite Z.mul_comm.
    change 2 with (2 ^ 1) at 1. rewrite Zdigits2_mul_pow2 by lia. lia. }
  assert (Z.max 0 (fexp (Zdigits2 (Z.pos m~0) + (e - 1)) - (e - 1)) = 1) as Hz
    by (rewrite Hd2, fexp_spec; lia).
  rewrite (binary_round_aux_exact prec emax ltac:(lia)); rewrite ?Hz.
  + replace (e - 1 + 1) with e by lia.
    change (2 ^ 1) with 2. change (Z.pos m~0) with (2 * Z.pos m).
    by rewrite Z.mul_comm, Z.div_mul by lia.
  + lia.
  + lia.
  + change (Z.pos m~0) with (2 * Z.pos m). by rewrite Z.mul_comm, Z.mod_mul.
  + lia.
Qed.

(** [x * 2 ^ K] for [0 < x < 1]: a number of the format, at most [2 ^ K]. *)
Lemma SFmul_pow2 m e K :
valid (S754_finite false m e) = true ->
SFcompare (S754_finite false m e) (pow2 prec 0) = Some Lt ->
emin + prec - 1 <= K -> K < emax ->
valid (SFmul prec emax (S754_finite false m e) (pow2 prec K)) = true /\
(SFmul prec emax (S754_finite false m e) (pow2 prec K) = S754_zero false \/
 exists m' e', SFmul prec emax (S754_finite false m e) (pow2 prec K) =
                 S754_finite false m' e' /\
               e' <= K /\ Z.pos m' <= 2 ^ (K - e')).
Proof.
intros Hv Hlt HK HK'.
destruct (canonical_lt_value prec emax ltac:(lia) m e _ _ Hv
            (pow2_valid 0 ltac:(rewrite emin_spec; lia) ltac:(lia)) Hlt)
  as [He Hm].
rewrite pow2_mantissa in Hm.
unfold pow2. cbn [SFmul xorb].
rewrite Pos2Z.inj_mul, pow2_mantissa.
pose proof (Zdigits2_pos (Z.pos m) ltac:(lia)) as Hdpos.
pose proof (Z.pow_pos_nonneg 2 (prec - 1) ltac:(lia) ltac:(lia)) as Hpp.
assert (Z.pos m < 2 ^ (- e)) as Hm'.
{ replace (- e) with (prec - 1 + (0 - (prec - 1) - e)) by lia.
  by rewrite Z.pow_add_r by lia. }
split.
- apply binary_round_aux_valid; [lia|].
  rewrite Zdigits2_mul_pow2, fexp_spec by lia. lia.
- apply (binary_round_aux_le_pow2 prec emax ltac:(lia)); try lia;
    try (rewrite emin_spec; lia).
  replace (K - (e + (K - (prec - 1)))) with (- e + (prec - 1)) by lia.
  rewrite Z.pow_add_r by lia. nia.
Qed.
End Format.

(** ** Reductions *)

Lemma np_minimum_cases a b :
  is_nan a = false -> is_nan b = false ->
  (np_minimum a b = a \/ np_minimum a b = b) /\
  SFleb (np_minimum a b) a = true /\ SFleb (np_minimum a b) b = true.
Proof.
  intros Ha Hb. unfold np_minimum. rewrite Ha, orb_false_r.
  destruct (SFleb a b) eqn:E.
  - split; [by left|]. split; [by apply SFleb_refl|done].
  - split; [by right|]. split; [by apply SFleb_total|by apply SFleb_refl].
Qed.

Lemma np_maximum_cases a b :
  is_nan a = false -> is_nan b = false ->
  (np_maximum a b = a \/ np_maximum a b = b) /\
  SFleb a (np_maximum a b) = true /\ SFleb b (np_maximum a b) = true.
Proof.
  intros Ha Hb. unfold np_maximum. rewrite Ha, orb_false_r.
  destruct (SFleb b a) eqn:E.
  - split; [by left|]. split; [by apply SFleb_refl|done].
  - split; [by right|]. split; [by apply SFleb_total|by apply SFleb_refl].
Qed.

(** The minimum of numbers is one of them and is below each. *)
Lemma fold_np_minimum xs x :
  Forall (fun y => is_nan y = false) (x :: xs) ->
  fold_left np_minimum xs x ∈ x :: xs /\
  Forall (fun y => SFleb (fold_left np_minimum xs x) y = true) (x :: xs).
Proof.
  revert x. induction xs as [|y ys IH]; intros x Hnan.
  - simpl. split; [apply list_elem_of_here|]. constructor; [|done].
    apply SFleb_refl. by inversion Hnan.
  - inversion Hnan as [|? ? Hx Hrest]; subst.
    inversion Hrest as [|? ? Hy Hys]; subst.
    destruct (np_minimum_cases x y Hx Hy) as (Hc & Hax & Hay).
    assert (is_nan (np_minimum x y) = false) as Ha by (by destruct Hc as [->| ->]).
    destruct (IH (np_minimum x y)) as [Hin Hle]; [by constructor|].
    cbn [fold_left]. split.
    + apply elem_of_cons in Hin as [->|Hin]; [|by do 2 apply list_elem_of_further].
      destruct Hc as [->| ->];
        [apply list_elem_of_here|apply list_elem_of_further, list_elem_of_here].
    + inversion Hle as [|? ? Hra Hrys]; subst.
      repeat constructor; [by eapply SFleb_trans|by eapply SFleb_trans|done].
Qed.

Lemma fold_np_maximum xs x :
  Forall (fun y => is_nan y = false) (x :: xs) ->
  fold_left np_maximum xs x ∈ x :: xs /\
  Forall (fun y => SFleb y (fold_left np_maximum xs x) = true) (x :: xs).
Proof.
  revert x. induction xs as [|y ys IH]; intros x Hnan.
  - simpl. split; [apply list_elem_of_here|]. constructor; [|done].
    apply SFleb_refl. by inversion Hnan.
  - inversion Hnan as [|? ? Hx Hrest]; subst.
    inversion Hrest as [|? ? Hy Hys]; subst.
    destruct (np_maximum_cases x y Hx Hy) as (Hc & Hax & Hay).
    assert (is_nan (np_maximum x y) = false) as Ha by (by destruct Hc as [->| ->]).
    destruct (IH (np_maximum x y)) as [Hin Hle]; [by constructor|].
    cbn [fold_left]. split.
    + apply elem_of_cons in Hin as [->|Hin]; [|by do 2 apply list_elem_of_further].
      destruct Hc as [->| ->];
        [apply list_elem_of_here|apply list_elem_of_further, list_elem_of_here].
    + inversion Hle as [|? ? Hra Hrys]; subst.
      repeat constructor; [by eapply SFleb_trans|by eapply SFleb_trans|done].
Qed.

(** ** The formats *)

Lemma fprec_gt_1 ft : 1 < fprec ft.
Proof. by destruct ft. Qed.

Lemma fprec_lt_femax ft : fprec ft < femax ft.
Proof. by destruct ft. Qed.

Lemma of_int_0 ft : of_int ft 0 = S754_zero false.
Proof. reflexivity. Qed.

Lemma of_int_1 ft : of_int ft 1 = pow2 (fprec ft) 0.
Proof. by destruct ft. Qed.

Lemma of_int_256 ft : of_int ft 256 = pow2 (fprec ft) 8.
Proof. by destruct ft. Qed.

(** ** Quantisation to uint8 *)

Lemma quantize_uint8_range ft x :
  representable ft x = true ->
  SFleb (of_int ft 0) x = true -> SFleb x (of_int ft 1) = true ->
  0 <= quantize_uint8 ft x <= 255 /\
  quantize_uint8 ft x = Z.min 255 (trunc (fmul ft x (of_int ft 256))).
Proof.
  intros Hv H0 H1.
  assert (forall q : Z, q = 0 \/ q = 255 -> 0 <= q <= 255) as Hq by lia.
  pose proof (fprec_gt_1 ft) as Hp. pose proof (fprec_lt_femax ft) as Hm.
  rewrite of_int_0 in H0.
  destruct x as [s|s| |s m e]; [| |vm_compute in H0; discriminate|].
  - destruct s, ft; (split; [apply Hq; left; vm_compute; reflexivity|vm_compute; reflexivity]).
  - destruct s; [vm_compute in H0; discriminate|].
    rewrite of_int_1 in H1. vm_compute in H1. discriminate.
  - destruct s; [vm_compute in H0; discriminate|]. clear H0.
    rewrite of_int_1 in H1. unfold SFleb in H1.
    destruct (SFcompare (S754_finite false m e) (pow2 (fprec ft) 0)) as [[]|] eqn:E;
      try discriminate.
    + assert (SFeqb (S754_finite false m e) (pow2 (fprec ft) 0) = true) as Heq
        by (unfold SFeqb; by rewrite E).
      unfold pow2 in Heq. apply SFeqb_finite_eq in Heq as [= -> ->].
      clear. destruct ft;
        (split; [split; vm_compute; discriminate|vm_compute; reflexivity]).
    + unfold representable in Hv.
      destruct (SFmul_pow2 (fprec ft) (femax ft) Hp Hm m e 8 Hv E) as [Hvy Hy];
        [unfold emin; lia|destruct ft; vm_compute; reflexivity|].
      unfold quantize_uint8. rewrite of_int_256.
      unfold fmul.
      destruct Hy as [->|(m' & e' & Hmul & He' & Hm')].
      { change (SFeqb (S754_zero false) (pow2 (fprec ft) 8)) with false. cbv iota zeta.
        split; [apply Hq; left; reflexivity|reflexivity]. }
      rewrite Hmul in *. cbv zeta.
      destruct (SFeqb (S754_finite false m' e') (pow2 (fprec ft) 8)) eqn:Eq.
      * unfold pow2 in Eq. apply SFeqb_finite_eq in Eq as [= -> ->].
        clear. destruct ft;
          (split; [split; vm_compute; discriminate|vm_compute; reflexivity]).
      * assert (S754_finite false m' e' <> pow2 (fprec ft) 8) as Hne.
        { intros Heq. rewrite Heq in Eq. clear -Eq.
          destruct ft; vm_compute in Eq; discriminate. }
        pose proof (trunc_lt_pow2 (fprec ft) (femax ft) m' e' 8 Hvy
                      ltac:(lia) ltac:(unfold emin; lia) He' Hm' Hne) as Ht.
        change (2 ^ 8) with 256 in Ht.
        unfold cast_uint. change (2 ^ uint_bits uint8) with 256.
        rewrite Z.mod_small by lia. lia.
Qed.

(** ** Classes of values *)

Lemma nonneg_cases y :
  nonneg y = true ->
  is_zero y = true \/ (exists m e, y = S754_finite false m e) \/ y = S754_infinity false.
Proof.
  destruct y as [s|s| |s m e]; try discriminate; auto.
  - destruct s; [discriminate|auto].
  - destruct s; [discriminate|]. right. left. by eexists _, _.
Qed.

Lemma nonneg_not_nan y : nonneg y = true -> is_nan y = false.
Proof. by destruct y. Qed.

Lemma is_zero_nonneg y : is_zero y = true -> nonneg y = true.
Proof. destruct y; try discriminate. reflexivity. Qed.

Lemma nonneg_le_zero r z :
  nonneg r = true -> is_zero z = true -> SFleb r z = true -> is_zero r = true.
Proof.
  intros Hr Hz. destruct z as [sz| | |]; try discriminate.
  destruct (nonneg_cases r Hr) as [H|[(m & e & ->)| ->]]; [done|discriminate..].
Qed.

Lemma zero_le_nonneg z y : is_zero z = true -> nonneg y = true -> SFleb z y = true.
Proof. destruct z; try discriminate. intros _. by destruct y. Qed.

Lemma nonneg_not_lt_zero y :
  nonneg y = true -> SFltb (S754_zero false) y = false -> is_zero y = true.
Proof.
  intros Hy. destruct (nonneg_cases y Hy) as [H|[(m & e & ->)| ->]];
    [done|discriminate..].
Qed.

Lemma is_zero_not_lt y : is_zero y = true -> SFltb (S754_zero false) y = false.
Proof. by destruct y. Qed.

Lemma SFeqb_leb x y : SFeqb x y = true -> SFleb x y = true.
Proof. unfold SFeqb, SFleb. by destruct (SFcompare x y) as [[]|]. Qed.

Lemma SFeqb_of_leb x y : SFleb x y = true -> SFleb y x = true -> SFeqb x y = true.
Proof.
  unfold SFeqb, SFleb. rewrite (SFcompare_antisym x y).
  by destruct (SFcompare x y) as [[]|].
Qed.

Lemma SFeqb_zeros x y : is_zero x = true -> is_zero y = true -> SFeqb x y = true.
Proof. destruct x, y; try discriminate. reflexivity. Qed.

Lemma SFeqb_refl x : is_nan x = false -> SFeqb x x = true.
Proof. intros H. apply SFeqb_of_leb; by apply SFleb_refl. Qed.

(** ** Lists *)

Lemma elem_of_map {A B} (f : A -> B) l x : x ∈ l -> f x ∈ map f l.
Proof.
  induction 1 as [|? ? ? ? IH]; simpl;
    [apply list_elem_of_here|by apply list_elem_of_further].
Qed.

Lemma elem_of_map_inv {A B} (f : A -> B) l y :
  y ∈ map f l -> exists x, x ∈ l /\ y = f x.
Proof.
  induction l as [|a l IH]; simpl; intros H.
  - by apply not_elem_of_nil in H.
  - apply elem_of_cons in H as [->|H].
    + exists a. split; [apply list_elem_of_here|done].
    + destruct (IH H) as (x & ? & ?). exists x. split; [by apply list_elem_of_further|done].
Qed.

Lemma Forall_map_intro {A B} (f : A -> B) (P : B -> Prop) l :
  Forall (fun x => P (f x)) l -> Forall P (map f l).
Proof. induction 1; simpl; by constructor. Qed.

Lemma Forall2_map_diag {A B} (f : A -> B) (P : B -> A -> Prop) l :
  Forall (fun x => P (f x) x) l -> Forall2 P (map f l) l.
Proof. induction 1; simpl; by constructor. Qed.

Lemma forallb_Forall {A} (f : A -> bool) l :
  forallb f l = true <-> Forall (fun x => f x = true) l.
Proof.
  induction l as [|a l IH]; simpl.
  - split; [constructor|done].
  - rewrite andb_true_iff, IH. split.
    + intros [? ?]. by constructor.
    + by inversion 1.
Qed.

Lemma reduce_cons f (a : ndarray spec_float) r :
  reduce f a = Ok r -> exists x xs, data a = x :: xs /\ r = fold_left f xs x.
Proof.
  unfold reduce. destruct (data a) as [|x xs]; [discriminate|].
  intros [= <-]. by eexists _, _.
Qed.

Lemma reduce_nonempty f (a : ndarray spec_float) :
  data a <> [] -> exists r, reduce f a = Ok r.
Proof. unfold reduce. destruct (data a); [done|]. by eexists. Qed.

(** ** Scaling to the unit interval *)

Lemma emin_le ft : emin (fprec ft) (femax ft) + fprec ft - 1 <= 0.
Proof. by destruct ft. Qed.

Lemma in_unit_zero ft z : is_zero z = true -> in_unit ft z.
Proof. destruct z as [s| | |]; try discriminate. intros _. by destruct s. Qed.

Lemma in_unit_one ft : in_unit ft (pow2 (fprec ft) 0).
Proof.
  repeat split.
  - apply pow2_valid; [apply fprec_gt_1|apply emin_le|].
    pose proof (fprec_gt_1 ft). pose proof (fprec_lt_femax ft). lia.
  - by apply SFleb_refl.
Qed.

(** Dividing by the largest element. *)
Lemma div_by_max ft y mh eh :
  representable ft y = true -> nonneg y = true ->
  representable ft (S754_finite false mh eh) = true ->
  SFleb y (S754_finite false mh eh) = true ->
  in_unit ft (fdiv ft y (S754_finite false mh eh)) /\
  (is_zero y = true -> is_zero (fdiv ft y (S754_finite false mh eh)) = true).
Proof.
  pose proof (fprec_gt_1 ft) as Hp. pose proof (fprec_lt_femax ft) as Hm.
  unfold fdiv. intros Hv Hy Hvh Hle.
  destruct (nonneg_cases y Hy) as [Hz|[(m & e & ->)| ->]]; [| |discriminate].
  - destruct y as [s| | |]; try discriminate. cbn [SFdiv].
    split; [by apply in_unit_zero|done].
  - split; [|discriminate].
    unfold SFleb in Hle.
    destruct (SFcompare (S754_finite false m e) (S754_finite false mh eh))
      as [[]|] eqn:E; try discriminate.
    + assert (SFeqb (S754_finite false m e) (S754_finite false mh eh) = true) as Heq
        by (unfold SFeqb; by rewrite E).
      apply SFeqb_finite_eq in Heq as [= -> ->].
      rewrite SFdiv_self by done. apply in_unit_one.
    + pose proof (SFdiv_valid _ _ _ _ Hv Hvh) as Hvq.
      destruct (SFdiv_lt_bound (fprec ft) (femax ft) ltac:(lia) Hm m e mh eh Hv Hvh E)
        as [->|(m' & e' & Hq & He' & Hm')].
      * by apply in_unit_zero.
      * rewrite Hq in *. repeat split; try done.
        apply (le_pow2 (fprec ft) (femax ft)); [done|done|apply emin_le|done|].
        by rewrite Z.sub_0_l.
Qed.

Lemma all_finite_Forall ft im :
  all_finite ft im = true ->
  Forall (fun x => representable ft x = true /\ is_finite x = true) (data im).
Proof.
  unfold all_finite. rewrite forallb_Forall. intros H.
  eapply Forall_impl; [exact H|]. intros x. by rewrite andb_true_iff.
Qed.

Lemma is_finite_not_nan x : is_finite x = true -> is_nan x = false.
Proof. by destruct x. Qed.

(** The minimum of an array of numbers. *)
Lemma np_min_spec ft im lo :
  all_finite ft im = true -> np_min im = Ok lo ->
  lo ∈ data im /\ Forall (fun x => SFleb lo x = true) (data im).
Proof.
  intros Hfin%all_finite_Forall Hmin.
  apply reduce_cons in Hmin as (x & xs & Hd & ->). rewrite Hd in *.
  apply fold_np_minimum. eapply Forall_impl; [exact Hfin|].
  intros y [_ Hy]. by apply is_finite_not_nan.
Qed.

(** An array is constant when no element is above its minimum. *)
Lemma is_constant_min ft im lo :
  all_finite ft im = true -> np_min im = Ok lo ->
  is_constant im = true <-> Forall (fun x => SFleb x lo = true) (data im).
Proof.
  intros Hfin Hmin. destruct (np_min_spec ft im lo Hfin Hmin) as [Hin Hlo].
  unfold is_constant. rewrite forallb_Forall. split.
  - intros Hc. rewrite Forall_forall in *. intros x Hx.
    specialize (Hc x Hx). cbv beta in Hc. rewrite forallb_Forall, Forall_forall in Hc.
    apply SFeqb_leb. by apply Hc.
  - intros Hle. rewrite Forall_forall in *. intros x Hx. cbv beta.
    rewrite forallb_Forall, Forall_forall. intros y Hy.
    apply SFeqb_of_leb.
    + apply (SFleb_trans x lo y); [by apply Hle|by apply Hlo].
    + apply (SFleb_trans y lo x); [by apply Hle|by apply Hlo].
Qed.

(** Subtracting the minimum. *)
Lemma shifted_spec ft im lo :
  all_finite ft im = true -> np_min im = Ok lo ->
  Forall (fun x => representable ft (fsub ft x lo) = true /\
                   nonneg (fsub ft x lo) = true /\
                   is_zero (fsub ft x lo) = SFleb x lo) (data im).
Proof.
  intros Hfin Hmin. destruct (np_min_spec ft im lo Hfin Hmin) as [Hin Hlo].
  pose proof (fprec_gt_1 ft) as Hp.
  apply all_finite_Forall in Hfin. rewrite Forall_forall in *.
  destruct (Hfin lo Hin) as [Hvlo Hflo].
  intros x Hx. destruct (Hfin x Hx) as [Hvx Hfx].
  unfold fsub, representable in *.
  split; [by apply SFsub_valid|].
  apply SFsub_lower_bound; try done; [lia|]. by apply Hlo.
Qed.

Lemma normalize_image_zero_one_unfold ft im lo hi :
  np_min im = Ok lo ->
  np_max (amap (fun x => fsub ft x lo) im) = Ok hi ->
  normalize_image_zero_one ft im =
  Ok (if SFltb (S754_zero false) hi
      then amap (fun x => fdiv ft x hi) (amap (fun x => fsub ft x lo) im)
      else amap (fun x => fsub ft x lo) im).
Proof.
  intros Hmin Hmax. unfold normalize_image_zero_one.
  rewrite Hmin. cbn [mbind result_bind]. rewrite Hmax. cbn [mbind result_bind].
  by destruct (SFltb (S754_zero false) hi).
Qed.

(** What [zero_one] returns on an array of numbers whose largest shifted
    element is a number: elements in [0, 1], a zero among them, and either
    all zeros or a one among them. *)
Lemma normalize_image_zero_one_spec ft im hi :
  all_finite ft im = true ->
  shifted_max ft im = Ok hi -> is_finite hi = true ->
  exists out,
    normalize_image_zero_one ft im = Ok out /\
    shape out = shape im /\
    Forall (in_unit ft) (data out) /\
    Exists (fun z => is_zero z = true) (data out) /\
    if is_constant im then Forall (fun z => is_zero z = true) (data out)
    else pow2 (fprec ft) 0 ∈ data out.
Proof.
  intros Hfin Hmax Hhi. unfold shifted_max in Hmax.
  destruct (np_min im) as [lo|] eqn:Hmin; [|discriminate].
  cbn [mbind result_bind] in Hmax.
  destruct (np_min_spec ft im lo Hfin Hmin) as [Hlo_in Hlo].
  pose proof (shifted_spec ft im lo Hfin Hmin) as Hsh.
  pose proof (is_constant_min ft im lo Hfin Hmin) as Hconst.
  rewrite (normalize_image_zero_one_unfold ft im lo hi Hmin Hmax).
  apply reduce_cons in Hmax as (y0 & ys & Hd & Hfold).
  cbn [amap data] in Hd.
  assert (Forall (fun y => is_nan y = false) (y0 :: ys)) as Hnan.
  { rewrite <- Hd. apply Forall_map_intro. eapply Forall_impl; [exact Hsh|].
    intros x (_ & Hx & _). by apply nonneg_not_nan. }
  destruct (fold_np_maximum ys y0 Hnan) as [Hhi_in Hhi_max].
  rewrite <- Hfold, <- Hd in Hhi_in, Hhi_max. clear Hnan.
  apply elem_of_map_inv in Hhi_in as (xh & Hxh & Hhi_eq).
  rewrite Forall_forall in Hsh.
  destruct (Hsh xh Hxh) as (Hvh & Hnh & Hzh). rewrite <- Hhi_eq in Hvh, Hnh, Hzh.
  destruct (SFltb (S754_zero false) hi) eqn:Hpos.
  - eexists. split; [reflexivity|]. split; [reflexivity|]. cbn [amap data].
    destruct (nonneg_cases hi Hnh) as [Hz|[(mh & eh & Hheq)|Hinf]].
    { apply is_zero_not_lt in Hz. congruence. }
    2:{ rewrite Hinf in Hhi. discriminate. }
    assert (forall x, x ∈ data im ->
              in_unit ft (fdiv ft (fsub ft x lo) hi) /\
              (is_zero (fsub ft x lo) = true ->
               is_zero (fdiv ft (fsub ft x lo) hi) = true)) as Hdiv.
    { intros x Hx. destruct (Hsh x Hx) as (Hvx & Hnx & _).
      rewrite Hheq in *. apply div_by_max; try done.
      rewrite Forall_forall in Hhi_max. apply Hhi_max.
      by apply (elem_of_map (fun x => fsub ft x lo)). }
    split; [|split].
    + do 2 apply Forall_map_intro. apply Forall_forall. intros x Hx.
      by apply Hdiv.
    + apply Exists_exists. exists (fdiv ft (fsub ft lo lo) hi). split.
      * apply (elem_of_map (fun x => fdiv ft x hi)).
        by apply (elem_of_map (fun x => fsub ft x lo)).
      * apply Hdiv; [done|]. destruct (Hsh lo Hlo_in) as (_ & _ & ->).
        rewrite Forall_forall in Hlo. by apply Hlo.
    + destruct (is_constant im).
      * exfalso. destruct Hconst as [Hc _]. specialize (Hc eq_refl).
        rewrite Forall_forall in Hc. rewrite (Hc xh Hxh) in Hzh.
        apply is_zero_not_lt in Hzh. congruence.
      * replace (pow2 (fprec ft) 0) with (fdiv ft hi hi).
        2:{ rewrite Hheq. apply SFdiv_self; [apply fprec_gt_1|apply fprec_lt_femax]. }
        apply (elem_of_map (fun x => fdiv ft x hi)).
        rewrite Hhi_eq. by apply (elem_of_map (fun x => fsub ft x lo)).
  - eexists. split; [reflexivity|]. split; [reflexivity|]. cbn [amap data].
    pose proof (nonneg_not_lt_zero hi Hnh Hpos) as Hz.
    assert (forall x, x ∈ data im -> is_zero (fsub ft x lo) = true) as Hall.
    { intros x Hx. destruct (Hsh x Hx) as (_ & Hnx & _).
      apply (nonneg_le_zero _ hi); [done|done|].
      rewrite Forall_forall in Hhi_max. apply Hhi_max.
      by apply (elem_of_map (fun x => fsub ft x lo)). }
    split; [|split].
    + apply Forall_map_intro. apply Forall_forall. intros x Hx.
      apply (in_unit_zero ft). by apply Hall.
    + apply Exists_exists. exists (fsub ft lo lo). split.
      * by apply (elem_of_map (fun x => fsub ft x lo)).
      * by apply Hall.
    + destruct (is_constant im).
      * apply Forall_map_intro. apply Forall_forall. intros x Hx. by apply Hall.
      * exfalso. destruct Hconst as [_ Hc].
        assert (false = true) as Hf; [|discriminate].
        apply Hc. apply Forall_forall. intros x Hx.
        destruct (Hsh x Hx) as (_ & _ & <-). by apply Hall.
Qed.

Lemma in_unit_not_nan ft z : in_unit ft z -> is_nan z = false.
Proof. intros (_ & H & _). by apply is_finite_not_nan. Qed.

(** The minimum of an array in [0, 1] that holds a zero is a zero. *)
Lemma unit_array_min ft out :
  Forall (in_unit ft) (data out) -> Exists (fun z => is_zero z = true) (data out) ->
  exists lo, np_min out = Ok lo /\ is_zero lo = true.
Proof.
  intros Hu Hz. unfold np_min, reduce.
  destruct (data out) as [|x xs]; [by apply Exists_nil in Hz|].
  eexists. split; [reflexivity|].
  destruct (fold_np_minimum xs x) as [Hin Hle].
  { eapply Forall_impl; [exact Hu|]. apply in_unit_not_nan. }
  apply Exists_exists in Hz as (z & Hz_in & Hz).
  rewrite Forall_forall in Hu, Hle.
  destruct (Hu _ Hin) as (_ & _ & Hnn & _).
  apply (nonneg_le_zero _ z); [done|done|by apply Hle].
Qed.

(** The maximum of an array in [0, 1] that holds a one is one. *)
Lemma unit_array_max ft out :
  Forall (in_unit ft) (data out) -> pow2 (fprec ft) 0 ∈ data out ->
  np_max out = Ok (pow2 (fprec ft) 0).
Proof.
  intros Hu H1. unfold np_max, reduce.
  destruct (data out) as [|x xs]; [by apply not_elem_of_nil in H1|].
  f_equal.
  destruct (fold_np_maximum xs x) as [Hin Hle].
  { eapply Forall_impl; [exact Hu|]. apply in_unit_not_nan. }
  rewrite Forall_forall in Hu, Hle.
  destruct (Hu _ Hin) as (_ & _ & _ & Hle1).
  apply SFleb_antisym_finite; [done|by apply Hle].
Qed.

Lemma shifted_max_constant ft im :
  all_finite ft im = true -> data im <> [] -> is_constant im = true ->
  exists hi, shifted_max ft im = Ok hi /\ is_finite hi = true.
Proof.
  intros Hfin Hne Hc. unfold shifted_max.
  destruct (reduce_nonempty np_minimum im Hne) as [lo Hmin].
  fold np_min in Hmin. rewrite Hmin. cbn [mbind result_bind].
  pose proof (shifted_spec ft im lo Hfin Hmin) as Hsh.
  apply (is_constant_min ft im lo Hfin Hmin) in Hc.
  unfold np_max, reduce. cbn [amap data].
  destruct (data im) as [|x xs]; [done|]. cbn [map].
  eexists. split; [reflexivity|].
  destruct (fold_np_maximum (map (fun x => fsub ft x lo) xs) (fsub ft x lo))
    as [Hin _].
  { apply (Forall_map_intro (fun x => fsub ft x lo) _ (x :: xs)).
    eapply Forall_impl; [exact Hsh|]. intros y (_ & Hy & _). by apply nonneg_not_nan. }
  apply (elem_of_map_inv (fun x => fsub ft x lo) (x :: xs)) in Hin
    as (xh & Hxh & ->).
  rewrite Forall_forall in Hsh, Hc.
  destruct (Hsh xh Hxh) as (_ & _ & Hz). rewrite (Hc xh Hxh) in Hz.
  by destruct (fsub ft xh lo).
Qed.

(** [zero_one] on an array in [0, 1] that holds a zero, and a one unless it
    is all zeros, returns the same values. *)
Lemma normalize_image_zero_one_unit ft out :
  Forall (in_unit ft) (data out) ->
  Exists (fun z => is_zero z = true) (data out) ->
  Forall (fun z => is_zero z = true) (data out) \/ pow2 (fprec ft) 0 ∈ data out ->
  exists out2,
    normalize_image_zero_one ft out = Ok out2 /\
    shape out2 = shape out /\
    Forall2 (fun a b => SFeqb a b = true) (data out2) (data out).
Proof.
  intros Hu Hz Hcase.
  destruct (unit_array_min ft out Hu Hz) as (lo & Hmin & Hlo).
  destruct lo as [s| | |]; try discriminate. clear Hlo.
  assert (forall y, in_unit ft y ->
            (fsub ft y (S754_zero s) = y \/
             (is_zero y = true /\ is_zero (fsub ft y (S754_zero s)) = true)) /\
            in_unit ft (fsub ft y (S754_zero s))) as Hsub.
  { intros y Hy. destruct (SFsub_zero_r (fprec ft) (femax ft) y s) as [Heq|[Hzy Hzs]].
    - split; [by left|]. unfold fsub. by rewrite Heq.
    - split; [by right|]. by apply (in_unit_zero ft). }
  assert (Forall (in_unit ft) (data (amap (fun x => fsub ft x (S754_zero s)) out)))
    as Hu'.
  { cbn [amap data]. apply Forall_map_intro.
    eapply Forall_impl; [exact Hu|]. intros y Hy. by apply Hsub. }
  assert (data out <> []) as Hne.
  { destruct (data out); [by apply Exists_nil in Hz|done]. }
  destruct (reduce_nonempty np_maximum
              (amap (fun x => fsub ft x (S754_zero s)) out)) as [hi Hmax].
  { cbn [amap data]. by destruct (data out). }
  fold np_max in Hmax.
  destruct Hcase as [Hall|Hone].
  - rewrite (normalize_image_zero_one_unfold ft out _ hi Hmin Hmax).
    assert (is_zero hi = true) as Hhz.
    { apply reduce_cons in Hmax as (y0 & ys & Hd & ->).
      destruct (fold_np_maximum ys y0) as [Hin _].
      { rewrite <- Hd. eapply Forall_impl; [exact Hu'|]. apply in_unit_not_nan. }
      rewrite <- Hd in Hin. cbn [amap data] in Hin.
      apply elem_of_map_inv in Hin as (x & Hx & ->).
      rewrite Forall_forall in Hall, Hu.
      destruct (Hsub x (Hu x Hx)) as [[->|[_ H]] _]; [by apply Hall|done]. }
    rewrite (is_zero_not_lt hi Hhz).
    eexists. split; [reflexivity|]. split; [reflexivity|]. cbn [amap data].
    apply Forall2_map_diag. rewrite Forall_forall in *. intros x Hx.
    apply SFeqb_zeros; [|by apply Hall].
    destruct (Hsub x (Hu x Hx)) as [[->|[_ H]] _]; [by apply Hall|done].
  - assert (np_max (amap (fun x => fsub ft x (S754_zero s)) out) = Ok (pow2 (fprec ft) 0))
      as Hmax1.
    { apply unit_array_max; [done|]. cbn [amap data].
      replace (pow2 (fprec ft) 0) with (fsub ft (pow2 (fprec ft) 0) (S754_zero s)) at 1
        by reflexivity.
      by apply (elem_of_map (fun x => fsub ft x (S754_zero s))). }
    rewrite (normalize_image_zero_one_unfold ft out _ _ Hmin Hmax1).
    change (SFltb (S754_zero false) (pow2 (fprec ft) 0)) with true. cbv iota.
    eexists. split; [reflexivity|]. split; [reflexivity|]. cbn [amap data].
    rewrite List.map_map. apply Forall2_map_diag.
    rewrite Forall_forall in *. intros x Hx.
    destruct (Hsub x (Hu x Hx)) as [Hrel Hux'].
    set (x' := fsub ft x (S754_zero s)) in *.
    assert (fdiv ft x' (pow2 (fprec ft) 0) = x' \/
            (is_zero x' = true /\ is_zero (fdiv ft x' (pow2 (fprec ft) 0)) = true)) as Hdiv.
    { destruct Hux' as (Hv & Hf & _). unfold fdiv, representable in *.
      destruct x' as [sx| | |sx mx ex]; try discriminate.
      - right. done.
      - left. apply SFdiv_one; [apply fprec_gt_1|done]. }
    destruct Hrel as [Hrel|[Hzx Hzx']], Hdiv as [->|[Hzd Hzd']].
    + rewrite Hrel. apply SFeqb_refl. by apply (in_unit_not_nan ft), Hu.
    + apply SFeqb_zeros; [done|]. by rewrite <- Hrel.
    + by apply SFeqb_zeros.
    + by apply SFeqb_zeros.
Qed.

Lemma float_to_uint_uint8_data ft im :
  float_to_uint ft im (DUInt uint8) =
  Ok (UIntArray uint8 (amap (quantize_uint8 ft) im)).
Proof.
  unfold float_to_uint, iinfo_max. cbn [mbind result_bind].
  unfold amap. cbn [shape data]. by rewrite !List.map_map.
Qed.

(** C3. For an array of floats of any dtype with all values in [0, 1] and target uint8,
    every element of [float_to_uint(im)] is between 0 and 255 and is the
    integer part of the scaled value, capped at 255: no value is cast from
    outside the range of uint8.  The array [1.0] gives [255]. *)
Theorem float_to_uint_uint8_range (ft : float_dtype) (im : ndarray spec_float) :
  unit_valued ft im = true ->
  (exists out,
     float_to_uint ft im (DUInt uint8) = Ok (UIntArray uint8 out) /\
     shape out = shape im /\
     Forall (fun n => 0 <= n <= 255) (data out) /\
     Forall2 (fun n x => n = Z.min 255 (trunc (fmul ft x (of_int ft 256))))
       (data out) (data im)) /\
  float_to_uint ft (NdArray [1%nat] [of_int ft 1]) (DUInt uint8) =
  Ok (UIntArray uint8 (NdArray [1%nat] [255])).
Proof.
  intros Hu. split; [|by destruct ft].
  rewrite float_to_uint_uint8_data. eexists. split; [reflexivity|].
  split; [reflexivity|]. cbn [amap data].
  unfold unit_valued in Hu. rewrite forallb_Forall in Hu.
  assert (Forall (fun x => 0 <= quantize_uint8 ft x <= 255 /\
                           quantize_uint8 ft x =
                           Z.min 255 (trunc (fmul ft x (of_int ft 256))))
                 (data im)) as H.
  { eapply Forall_impl; [exact Hu|]. intros x Hx.
    apply andb_true_iff in Hx as [Hv Hx]. apply andb_true_iff in Hx as [H0 H1].
    by apply quantize_uint8_range. }
  split.
  - apply Forall_map_intro. eapply Forall_impl; [exact H|]. by intros x [? _].
  - apply Forall2_map_diag. eapply Forall_impl; [exact H|]. by intros x [_ ?].
Qed.

Lemma float_to_uint_uint8_range_witness :
  exists out,
    float_to_uint float64
      (NdArray [3%nat] [S754_zero false; S754_finite false 4503599627370496 (-53);
                        of_int float64 1]) (DUInt uint8) =
    Ok (UIntArray uint8 out) /\
    Forall (fun n => 0 <= n <= 255) (data out).
Proof.
  destruct (float_to_uint_uint8_range float64
    (NdArray [3%nat] [S754_zero false; S754_finite false 4503599627370496 (-53);
                      of_int float64 1]) eq_refl) as [(out & H & _ & Hr & _) _].
  exists out. split; [exact H|exact Hr].
Defined.

(** C4, for arrays of numbers.  [zero_one] of a non-empty array of floats
    whose elements are all finite returns an array of the same shape.  When
    the array is constant, every element of the result is zero.  When it is
    not constant and the largest shifted element [max(im - min(im))] is
    finite (the subtraction did not overflow), the minimum of the result is
    zero and its maximum is exactly one. *)
Theorem zero_one_range (ft : float_dtype) (im : ndarray spec_float) :
  all_finite ft im = true -> data im <> [] ->
  exists out,
    normalize_image_zero_one ft im = Ok out /\
    shape out = shape im /\
    (is_constant im = true ->
     Forall (fun z => SFeqb z (of_int ft 0) = true) (data out)) /\
    (is_constant im = false ->
     (exists hi, shifted_max ft im = Ok hi /\ is_finite hi = true) ->
     (exists lo, np_min out = Ok lo /\ SFeqb lo (of_int ft 0) = true) /\
     np_max out = Ok (of_int ft 1)).
Proof.
  intros Hfin Hne.
  destruct (reduce_nonempty np_minimum im Hne) as [lo Hmin]. fold np_min in Hmin.
  destruct (reduce_nonempty np_maximum (amap (fun x => fsub ft x lo) im))
    as [hi Hmax].
  { cbn [amap data]. by destruct (data im). }
  fold np_max in Hmax.
  pose proof (normalize_image_zero_one_unfold ft im lo hi Hmin Hmax) as Hout.
  eexists. split; [exact Hout|]. split; [by destruct (SFltb _ hi)|].
  split.
  - intros Hc.
    destruct (shifted_max_constant ft im Hfin Hne Hc) as (hi' & Hsm & Hfh).
    destruct (normalize_image_zero_one_spec ft im hi' Hfin Hsm Hfh)
      as (out & Hout' & _ & _ & _ & Hall).
    rewrite Hout in Hout'. injection Hout' as ->. rewrite Hc in Hall.
    eapply Forall_impl; [exact Hall|]. intros z Hz. by apply SFeqb_zeros.
  - intros Hc (hi' & Hsm & Hfh).
    destruct (normalize_image_zero_one_spec ft im hi' Hfin Hsm Hfh)
      as (out & Hout' & _ & Hu & Hz & Hone).
    rewrite Hout in Hout'. injection Hout' as ->. rewrite Hc in Hone.
    split.
    + destruct (unit_array_min ft out Hu Hz) as (lo' & Hlo' & Hzlo).
      exists lo'. split; [done|]. by apply SFeqb_zeros.
    + rewrite of_int_1. by apply unit_array_max.
Qed.

Lemma zero_one_range_witness :
  exists out,
    normalize_image_zero_one float64
      (NdArray [3%nat] [of_int float64 1; of_int float64 3; of_int float64 2]) = Ok out /\
    (exists lo, np_min out = Ok lo /\ SFeqb lo (of_int float64 0) = true) /\
    np_max out = Ok (of_int float64 1).
Proof.
  destruct (zero_one_range float64
    (NdArray [3%nat] [of_int float64 1; of_int float64 3; of_int float64 2])
    eq_refl ltac:(discriminate)) as (out & Hout & _ & _ & Hrange).
  exists out. split; [exact Hout|].
  apply (Hrange eq_refl).
  exists (of_int float64 2). split; reflexivity.
Defined.

(** C4, as stated, fails when the subtraction overflows: for the two
    largest numbers of opposite sign the shifted maximum is infinite, and
    the result holds a NaN, which is also its minimum and its maximum. *)
Lemma zero_one_range_counterexample :
  let big := S754_finite false 9007199254740991 971 in
  let im := NdArray [2%nat] [SFopp big; big] in
  all_finite float64 im = true /\ is_constant im = false /\
  normalize_image_zero_one float64 im =
    Ok (NdArray [2%nat] [S754_zero false; S754_nan]) /\
  np_min (NdArray [2%nat] [S754_zero false; S754_nan]) = Ok S754_nan /\
  np_max (NdArray [2%nat] [S754_zero false; S754_nan]) = Ok S754_nan /\
  SFeqb S754_nan (of_int float64 0) = false /\
  SFeqb S754_nan (of_int float64 1) = false.
Proof. repeat split. Qed.

(** C9, for arrays of numbers.  When the elements of an array of floats are
    all finite and the largest shifted element is finite, applying
    [zero_one] to the result of [zero_one] returns an array of the same
    shape whose elements equal those of the first result. *)
Theorem zero_one_idempotent (ft : float_dtype) (im out : ndarray spec_float)
    (hi : spec_float) :
  all_finite ft im = true ->
  shifted_max ft im = Ok hi -> is_finite hi = true ->
  normalize_image_zero_one ft im = Ok out ->
  exists out2,
    normalize_image_zero_one ft out = Ok out2 /\
    shape out2 = shape out /\
    Forall2 (fun a b => SFeqb a b = true) (data out2) (data out).
Proof.
  intros Hfin Hsm Hfh Hout.
  destruct (normalize_image_zero_one_spec ft im hi Hfin Hsm Hfh)
    as (out' & Hout' & _ & Hu & Hz & Hcase).
  rewrite Hout in Hout'. injection Hout' as <-.
  apply normalize_image_zero_one_unit; [done|done|].
  destruct (is_constant im); [by left|by right].
Qed.

Lemma zero_one_idempotent_witness :
  exists out out2,
    normalize_image_zero_one float64
      (NdArray [3%nat] [of_int float64 1; of_int float64 3; of_int float64 2]) = Ok out /\
    normalize_image_zero_one float64 out = Ok out2 /\
    Forall2 (fun a b => SFeqb a b = true) (data out2) (data out).
Proof.
  eexists. 
  destruct (zero_one_idempotent float64
    (NdArray [3%nat] [of_int float64 1; of_int float64 3; of_int float64 2])
    _ _ eq_refl eq_refl eq_refl eq_refl) as (out2 & H2 & _ & Heq).
  exists out2. split; [reflexivity|]. split; [exact H2|exact Heq].
Defined.

(** C9, as stated, fails when the subtraction overflows: the first result
    is [0, NaN] and the second is [NaN, NaN]. *)
Lemma zero_one_idempotent_counterexample :
  let big := S754_finite false 9007199254740991 971 in
  let im := NdArray [2%nat] [SFopp big; big] in
  normalize_image_zero_one float64 im =
    Ok (NdArray [2%nat] [S754_zero false; S754_nan]) /\
  normalize_image_zero_one float64 (NdArray [2%nat] [S754_zero false; S754_nan]) =
    Ok (NdArray [2%nat] [S754_nan; S754_nan]) /\
  NdArray [2%nat] [S754_nan; S754_nan] <> NdArray [2%nat] [S754_zero false; S754_nan] /\
  SFeqb S754_nan (S754_zero false) = false.
Proof. repeat split. discriminate. Qed.

(** ** Centring and scaling *)

(** A division by a zero never gives a number: the quotient is an infinity
    or a NaN. *)
Lemma SFdiv_by_zero prec emax y s :
  is_finite (SFdiv prec emax y (S754_zero s)) = false.
Proof. by destruct y. Qed.

(** X12. [normalize_image_center_scale] has no guard on the standard deviation:
    when [np.std] returns a zero the function still returns, and no element
    of its result is a number. *)
Remark normalize_image_center_scale_zero_std (ft : float_dtype)
    (np_mean np_std : ndarray spec_float -> spec_float)
    (im : ndarray spec_float) :
  is_zero (np_std (amap (fun x => fsub ft x (np_mean im)) im)) = true ->
  exists out,
    normalize_image_center_scale ft np_mean np_std im = Ok out /\
    shape out = shape im /\
    Forall (fun z => is_finite z = false) (data out).
Proof.
  intros Hz. unfold normalize_image_center_scale.
  eexists. split; [reflexivity|]. split; [reflexivity|]. cbn [amap data].
  destruct (np_std _) as [s| | |]; try discriminate.
  do 2 apply Forall_map_intro. apply Forall_forall. intros x _.
  apply SFdiv_by_zero.
Qed.

(* ================================================================== *)
(** * Cropping arrays of any shape *)

(** ** The stored slices *)

Lemma RandomCrop_init_length {A} (array : ndarray A) crop_size g self g' :
  RandomCrop_init array crop_size g = Ok (self, g') ->
  length (slices self) = Nat.min (length (shape array)) (length crop_size).
Proof.
  intros H%RandomCrop_init_slices. apply Forall2_length in H.
  by rewrite <- H, length_zip.
Qed.

(** A slice with non-negative bounds, on an axis of any length. *)
Lemma slice_range_nonneg sl (n : nat) :
  0 <= slice_start sl -> 0 <= slice_stop sl ->
  slice_range sl n =
  (Z.to_nat (Z.min (slice_start sl) (Z.of_nat n)),
   Z.to_nat (Z.min (slice_stop sl) (Z.of_nat n) -
             Z.min (slice_start sl) (Z.of_nat n))).
Proof.
  intros H0 H1. unfold slice_range, clip_bound.
  destruct (Z.ltb_spec (slice_start sl) 0); [lia|].
  by destruct (Z.ltb_spec (slice_stop sl) 0); [lia|].
Qed.

Lemma cropped_shape_cons r rs n sh :
  cropped_shape (r :: rs) (n :: sh) = snd r :: cropped_shape rs sh.
Proof. reflexivity. Qed.

Lemma cropped_shape_lookup sls sh (i : nat) n :
  (length sls <= length sh)%nat -> sh !! i = Some n ->
  cropped_shape (ranges_of sls sh) sh !! i =
  Some (match sls !! i with
        | Some sl => snd (slice_range sl n)
        | None => n
        end).
Proof.
  revert sh i. induction sls as [|sl sls IH]; intros sh i Hlen Hi.
  - by destruct sh.
  - destruct sh as [|n0 sh]; [simpl in Hlen; lia|].
    cbn [ranges_of]. rewrite cropped_shape_cons.
    destruct i as [|i]; simpl in *.
    + by injection Hi as ->.
    + apply IH; [lia|done].
Qed.

Lemma length_cropped_shape sls sh :
  (length sls <= length sh)%nat ->
  length (cropped_shape (ranges_of sls sh) sh) = length sh.
Proof.
  revert sh. induction sls as [|sl sls IH]; intros sh Hlen.
  - by destruct sh.
  - destruct sh as [|n0 sh]; [simpl in Hlen; lia|].
    cbn [ranges_of]. rewrite cropped_shape_cons. simpl in *.
    f_equal. apply IH. lia.
Qed.

(** The shape cut by the slices of the constructor out of an array of the
    reference shape. *)
Lemma cropped_shape_init sh cs sls :
  Forall2 (fun '(s, c) sl =>
             0 <= slice_start sl <= Z.of_nat s - c /\
             slice_stop sl = slice_start sl + c) (zip sh cs) sls ->
  Forall (fun c => 0 <= c) cs ->
  cropped_shape (ranges_of sls sh) sh =
  map Z.to_nat (take (length sh) cs) ++ drop (length cs) sh.
Proof.
  revert cs sls. induction sh as [|n sh IH]; intros cs sls H Hcs.
  - simpl in H. inversion H; subst. by destruct cs.
  - destruct cs as [|c cs]; simpl in H.
    + by inversion H; subst.
    + inversion H as [|? sl ? sls' Hhd Hrest]; subst.
      cbn beta iota in Hhd. destruct Hhd as [Hs Hstop].
      inversion Hcs as [|? ? Hc Hcs']; subst.
      cbn [ranges_of]. rewrite cropped_shape_cons.
      rewrite (IH cs sls' Hrest Hcs'). cbn [length take map drop app].
      f_equal. rewrite slice_range_nonneg by lia. cbn [snd]. lia.
Qed.

Lemma crop_returns {A} self (X : ndarray A) :
  (length (slices self) <= length (shape X))%nat ->
  crop self X =
  Ok (NdArray (cropped_shape (ranges_of (slices self) (shape X)) (shape X))
              (take_ranges (ranges_of (slices self) (shape X)) (shape X) (data X))).
Proof.
  intros Hlen. unfold crop, getitem_slices.
  by destruct (Nat.ltb_spec (length (shape X)) (length (slices self))); [lia|].
Qed.

(** X1. A cropper applied to an array with fewer axes than it has slices raises
    [IndexError]: too many indices for the array. *)
Theorem crop_fewer_axes_raises {A} (array X : ndarray A) (crop_size : list Z)
    (g g' : rng) (self : RandomCrop) :
  RandomCrop_init array crop_size g = Ok (self, g') ->
  (length (shape X) < Nat.min (length (shape array)) (length crop_size))%nat ->
  crop self X = Raise IndexError.
Proof.
  intros Hinit Hlt. rewrite <- (RandomCrop_init_length _ _ _ _ _ Hinit) in Hlt.
  unfold crop, getitem_slices.
  by destruct (Nat.ltb_spec (length (shape X)) (length (slices self))); [|lia].
Qed.

Lemma crop_fewer_axes_raises_witness :
  exists self g',
    RandomCrop_init (NdArray [4; 6; 8]%nat (repeat 0 (4 * 6 * 8)%nat)) [2; 3; 4]
      (Rng (fun n => Z.of_nat n) 0) = Ok (self, g') /\
    crop self (NdArray [4; 6]%nat (repeat 1 (4 * 6)%nat)) = Raise IndexError.
Proof.
  eexists _, _. split; [reflexivity|].
  apply (crop_fewer_axes_raises
           (NdArray [4; 6; 8]%nat (repeat 0 (4 * 6 * 8)%nat))
           (NdArray [4; 6]%nat (repeat 1 (4 * 6)%nat)) [2; 3; 4]
           (Rng (fun n => Z.of_nat n) 0) _ _ eq_refl).
  simpl. lia.
Defined.

(** X2. For any reference array and crop size, an array of the reference shape
    is cropped to the crop size on the axes that have one; axes beyond the
    crop size are kept whole, and the result holds one element per index. *)
Theorem crop_reference_shape {A} (array X : ndarray A) (crop_size : list Z)
    (g g' : rng) (self : RandomCrop) :
  RandomCrop_init array crop_size g = Ok (self, g') ->
  Forall (fun c => 0 <= c) crop_size ->
  shape X = shape array ->
  exists Y,
    crop self X = Ok Y /\
    shape Y = map Z.to_nat (take (length (shape array)) crop_size) ++
              drop (length crop_size) (shape array) /\
    (length crop_size = length (shape array) ->
     map Z.of_nat (shape Y) = crop_size) /\
    (well_formed X -> well_formed Y).
Proof.
  intros Hinit Hcs HX.
  pose proof (RandomCrop_init_length _ _ _ _ _ Hinit) as Hlen.
  pose proof (RandomCrop_init_slices _ _ _ _ _ Hinit) as Hsl.
  rewrite crop_returns by (rewrite HX; lia).
  eexists. split; [reflexivity|]. cbn [shape data].
  rewrite HX, (cropped_shape_init _ _ _ Hsl Hcs).
  split; [done|]. split.
  - intros Heq. rewrite take_ge, drop_ge, app_nil_r by lia.
    rewrite List.map_map. clear -Hcs.
    induction Hcs as [|c cs Hc _ IH]; simpl; [done|]. rewrite IH. f_equal. lia.
  - unfold well_formed. cbn [shape data]. intros Hwf.
    rewrite <- (cropped_shape_init _ _ _ Hsl Hcs), <- HX.
    apply length_take_ranges; [apply ranges_of_fit|done].
Qed.

Lemma crop_reference_shape_witness :
  exists self g' Y,
    RandomCrop_init (NdArray [4; 6; 8]%nat (repeat 0 (4 * 6 * 8)%nat)) [2; 3]
      (Rng (fun n => Z.of_nat n) 0) = Ok (self, g') /\
    crop self (NdArray [4; 6; 8]%nat (map Z.of_nat (seq 0 (4 * 6 * 8)))) = Ok Y /\
    shape Y = [2; 3; 8]%nat.
Proof.
  eexists _, _.
  destruct (crop_reference_shape
              (NdArray [4; 6; 8]%nat (repeat 0 (4 * 6 * 8)%nat))
              (NdArray [4; 6; 8]%nat (map Z.of_nat (seq 0 (4 * 6 * 8)))) [2; 3]
              (Rng (fun n => Z.of_nat n) 0) _ _ eq_refl)
    as (Y & HY & Hshape & _).
  - repeat constructor; lia.
  - reflexivity.
  - exists Y. split; [reflexivity|]. split; [exact HY|exact Hshape].
Defined.

(** X3. [crop] does not check the shape of its argument.  On an array with at
    least as many axes as there are slices it returns: every axis is kept,
    an axis with a slice [start:stop] keeps the indices of the slice that
    exist on it, and an axis without a slice is kept whole.  An array
    shorter than the reference one on some axis gives a crop shorter than
    the crop size, without an error. *)
Theorem crop_other_shape {A} (array X : ndarray A) (crop_size : list Z)
    (g g' : rng) (self : RandomCrop) :
  RandomCrop_init array crop_size g = Ok (self, g') ->
  Forall (fun c => 0 <= c) crop_size ->
  (Nat.min (length (shape array)) (length crop_size) <= length (shape X))%nat ->
  exists Y,
    crop self X = Ok Y /\
    length (shape Y) = length (shape X) /\
    (well_formed X -> well_formed Y) /\
    forall (i : nat) (n : nat), shape X !! i = Some n ->
      match slices self !! i, crop_size !! i with
      | Some sl, Some c =>
          exists m : nat, shape Y !! i = Some m /\
            Z.of_nat m = Z.min (slice_stop sl) (Z.of_nat n) -
                         Z.min (slice_start sl) (Z.of_nat n) /\
            Z.of_nat m <= c
      | None, _ => shape Y !! i = Some n
      | Some _, None => False
      end.
Proof.
  intros Hinit Hcs Hlen.
  rewrite <- (RandomCrop_init_length _ _ _ _ _ Hinit) in Hlen.
  pose proof (RandomCrop_init_slices _ _ _ _ _ Hinit) as Hsl.
  rewrite crop_returns by done.
  eexists. split; [reflexivity|]. cbn [shape data].
  split; [by apply length_cropped_shape|]. split.
  { unfold well_formed. cbn [shape data]. intros Hwf.
    apply length_take_ranges; [apply ranges_of_fit|done]. }
  intros i n Hi. rewrite (cropped_shape_lookup _ _ _ _ Hlen Hi).
  destruct (slices self !! i) as [sl|] eqn:Hsli; [|by destruct (crop_size !! i)].
  destruct (Forall2_lookup_r _ _ _ _ _ Hsl Hsli) as ([s c] & Hz & Hs & Hstop).
  apply lookup_zip_inv in Hz as [_ Hc]. rewrite Hc.
  rewrite Forall_lookup in Hcs. specialize (Hcs _ _ Hc).
  rewrite slice_range_nonneg by lia. cbn [snd].
  eexists. split; [reflexivity|]. lia.
Qed.

Lemma crop_other_shape_witness :
  exists self g' Y,
    RandomCrop_init (NdArray [4; 6; 8]%nat (repeat 0 (4 * 6 * 8)%nat)) [2; 3; 4]
      (Rng (fun n => Z.of_nat n + 2) 0) = Ok (self, g') /\
    start_offsets self = [2; 3; 4]%nat /\
    crop self (NdArray [3; 6; 8; 2]%nat (repeat 1 (3 * 6 * 8 * 2)%nat)) = Ok Y /\
    length (shape Y) = 4%nat.
Proof.
  eexists _, _.
  destruct (crop_other_shape
              (NdArray [4; 6; 8]%nat (repeat 0 (4 * 6 * 8)%nat))
              (NdArray [3; 6; 8; 2]%nat (repeat 1 (3 * 6 * 8 * 2)%nat)) [2; 3; 4]
              (Rng (fun n => Z.of_nat n + 2) 0) _ _ eq_refl)
    as (Y & HY & Hlen & _).
  - repeat constructor; lia.
  - simpl. lia.
  - exists Y. split; [reflexivity|]. split; [reflexivity|].
    split; [exact HY|exact Hlen].
Defined.

(** ** Crops of the full size *)

Lemma flat_map_seq_ext {A} (f h : nat -> list A) lo n :
  (forall i, (lo <= i < lo + n)%nat -> f i = h i) ->
  flat_map f (seq lo n) = flat_map h (seq lo n).
Proof.
  revert lo. induction n as [|n IH]; intros lo H; simpl; [done|].
  rewrite H by lia. f_equal. apply IH. intros i Hi. apply H. lia.
Qed.

(** The rows of a buffer, one after the other. *)
Lemma flat_map_rows {A} (d : list A) stride lo n :
  flat_map (fun i => firstn stride (skipn (i * stride) d)) (seq lo n) =
  firstn (n * stride) (skipn (lo * stride) d).
Proof.
  revert lo. induction n as [|n IH]; intros lo; [done|].
  cbn [seq flat_map]. rewrite IH.
  replace (S n * stride)%nat with (stride + n * stride)%nat by lia.
  rewrite <- take_take_drop, drop_drop. do 3 f_equal. lia.
Qed.

Lemma take_ranges_full {A} sh (d : list A) :
  length d = size_of sh ->
  take_ranges (map (fun n => (0%nat, n)) sh) sh d = d.
Proof.
  revert d. induction sh as [|n sh IH]; intros d Hd; [done|].
  cbn [map take_ranges].
  rewrite (flat_map_seq_ext _ (fun i => firstn (size_of sh) (skipn (i * size_of sh) d))).
  - rewrite flat_map_rows. simpl. apply firstn_all2. simpl in Hd. lia.
  - intros i Hi. apply IH. apply (length_row d n); [done|lia].
Qed.

Lemma draw_start_full sh g :
  draw_start (zip sh (map Z.of_nat sh)) g =
  Ok (map (fun _ => 0) sh, Rng (entropy g) (cursor g + length sh)).
Proof.
  revert g. induction sh as [|n sh IH]; intros [e k]; simpl.
  - by rewrite Nat.add_0_r.
  - unfold randint. rewrite Z.sub_diag. cbn [Z.ltb Z.compare mbind result_bind].
    rewrite IH. cbn [mbind result_bind entropy cursor].
    rewrite Z.mod_1_r. do 3 f_equal. lia.
Qed.

Lemma ranges_of_full sh :
  ranges_of (map (fun '(s, c) => Slice s (s + c))
               (zip (map (fun _ => 0) sh) (map Z.of_nat sh))) sh =
  map (fun n => (0%nat, n)) sh.
Proof.
  induction sh as [|n sh IH]; [done|]. simpl. rewrite IH. f_equal.
  rewrite slice_range_nonneg by (simpl; lia). simpl. f_equal; lia.
Qed.

(** X4. When the crop size is the shape of the reference array, the only
    possible start is the origin, and the crop of an array of that shape is
    the array itself. *)
Theorem crop_full_size_identity {A} (array X : ndarray A) (g : rng) :
  shape X = shape array -> well_formed X ->
  exists self g',
    RandomCrop_init array (map Z.of_nat (shape array)) g = Ok (self, g') /\
    Forall (fun sl => slice_start sl = 0) (slices self) /\
    crop self X = Ok X.
Proof.
  intros HX Hwf. unfold RandomCrop_init. rewrite draw_start_full.
  cbn [mbind result_bind]. eexists _, _. split; [reflexivity|]. split.
  - cbn [slices]. apply Forall_forall. intros sl Hsl.
    apply list_elem_of_lookup in Hsl as [i Hi].
    rewrite list_lookup_fmap in Hi.
    destruct (zip _ _ !! i) as [[s c]|] eqn:Hz; [|discriminate].
    injection Hi as <-. apply lookup_zip_inv in Hz as [Hs _].
    rewrite list_lookup_fmap in Hs.
    destruct (shape array !! i); [|discriminate]. by injection Hs as <-.
  - rewrite crop_returns.
    + cbn [slices]. rewrite HX, ranges_of_full.
      rewrite take_ranges_full by (by rewrite <- HX).
      unfold cropped_shape. rewrite List.map_map, length_map. cbn [snd].
      rewrite List.map_id, skipn_all, app_nil_r. rewrite <- HX. by destruct X.
    + cbn [slices]. rewrite length_map, length_zip, !length_map, HX. lia.
Qed.

Lemma crop_full_size_identity_witness :
  exists self g',
    RandomCrop_init (NdArray [2; 3]%nat (repeat 0 6%nat)) [2; 3]
      (Rng (fun n => Z.of_nat n + 5) 0) = Ok (self, g') /\
    crop self (NdArray [2; 3]%nat [1; 2; 3; 4; 5; 6]) =
    Ok (NdArray [2; 3]%nat [1; 2; 3; 4; 5; 6]).
Proof.
  destruct (crop_full_size_identity
              (NdArray [2; 3]%nat (repeat 0 6%nat))
              (NdArray [2; 3]%nat [1; 2; 3; 4; 5; 6])
              (Rng (fun n => Z.of_nat n + 5) 0) eq_refl eq_refl)
    as (self & g' & Hinit & _ & Hcrop).
  by exists self, g'.
Defined.

(** ** The positions that can be drawn *)

Lemma draw_start_length dims g vs g' :
  draw_start dims g = Ok (vs, g') -> length vs = length dims.
Proof.
  intros H%draw_start_range. symmetry. by eapply Forall2_length.
Qed.

Lemma draw_start_reach dims start e (k : nat) :
  Forall2 (fun '(s, c) v => 0 <= v <= Z.of_nat s - c) dims start ->
  (forall (i : nat) v, start !! i = Some v -> e (k + i)%nat = v) ->
  draw_start dims (Rng e k) = Ok (start, Rng e (k + length dims)).
Proof.
  intros H. revert k. induction H as [|[s c] v dims vs Hv _ IH]; intros k He.
  - simpl. by rewrite Nat.add_0_r.
  - cbn [draw_start]. unfold randint. cbn [entropy cursor].
    destruct (Z.ltb_spec (Z.of_nat s - c) 0); [lia|].
    cbn [mbind result_bind].
    rewrite (IH (S k)).
    + cbn [mbind result_bind]. specialize (He 0%nat v eq_refl).
      rewrite Nat.add_0_r in He. rewrite He, Z.mod_small by lia.
      simpl. do 3 f_equal. lia.
    + intros i w Hi. rewrite <- (He (S i) w Hi). f_equal. lia.
Qed.

(** X5. Every start within the bounds can be drawn, the largest one included
    ([random.randint] includes both ends): for every vector of starts with
    [0 <= start <= s - c] on each axis there is a state of the generator
    from which the constructor stores exactly the slices
    [start : start + c]. *)
Theorem RandomCrop_init_any_start {A} (array : ndarray A) (crop_size : list Z)
    (start : list Z) :
  Forall2 (fun '(s, c) v => 0 <= v <= Z.of_nat s - c)
          (zip (shape array) crop_size) start ->
  exists g self g',
    RandomCrop_init array crop_size g = Ok (self, g') /\
    slices self = map (fun '(v, c) => Slice v (v + c)) (zip start crop_size).
Proof.
  intros H. exists (Rng (fun n => nth n start 0) 0). unfold RandomCrop_init.
  rewrite (draw_start_reach _ start).
  - cbn [mbind result_bind]. by eexists _, _.
  - done.
  - intros i v Hi. simpl. by apply nth_lookup_Some.
Qed.

Lemma RandomCrop_init_any_start_witness :
  exists g self g',
    RandomCrop_init (NdArray [4; 6; 8]%nat (repeat 0 (4 * 6 * 8)%nat)) [2; 3; 4] g
      = Ok (self, g') /\
    slices self = [Slice 2 4; Slice 0 3; Slice 4 8].
Proof.
  apply (RandomCrop_init_any_start
           (NdArray [4; 6; 8]%nat (repeat 0 (4 * 6 * 8)%nat)) [2; 3; 4] [2; 0; 4]).
  repeat constructor; simpl; lia.
Defined.

(** ** Crop sizes of another length *)

Lemma zip_take_r {A B} (l : list A) (k : list B) n :
  (length l <= n)%nat -> zip l (take n k) = zip l k.
Proof.
  revert k n. induction l as [|x l IH]; intros k n Hn; [done|].
  destruct k as [|y k]; [by rewrite take_nil|].
  destruct n as [|n]; [simpl in Hn; lia|]. simpl. f_equal.
  apply IH. simpl in Hn. lia.
Qed.

(** X6. The constructor pairs the axes with the crop sizes by [zip]: the
    entries of [crop_size] beyond the number of axes are never read, and a
    crop size that is too long is not an error. *)
Theorem RandomCrop_init_zip_truncates {A} (array : ndarray A)
    (crop_size : list Z) (g : rng) :
  RandomCrop_init array crop_size g =
  RandomCrop_init array (take (length (shape array)) crop_size) g.
Proof.
  unfold RandomCrop_init. rewrite zip_take_r by done.
  destruct (draw_start (zip (shape array) crop_size) g) as [[start g']|e] eqn:E;
    [|done].
  cbn [mbind result_bind]. rewrite zip_take_r; [done|].
  rewrite (draw_start_length _ _ _ _ E), length_zip. lia.
Qed.

(** ** Cropping and element-wise operations *)

Lemma take_ranges_map {A B} (f : A -> B) rs sh (d : list A) :
  take_ranges rs sh (map f d) = map f (take_ranges rs sh d).
Proof.
  revert sh d. induction rs as [|[lo len] rs IH]; intros sh d; [done|].
  destruct sh as [|n sh]; [done|]. cbn [take_ranges].
  generalize (seq lo len). intros l.
  induction l as [|i l IHl]; [done|]. cbn [flat_map].
  rewrite map_app, <- IHl. f_equal.
  by rewrite skipn_map, firstn_map, IH.
Qed.

(** X7. Cropping commutes with every element-wise operation: the crop of
    [f(X)] is [f] of the crop of [X], and both raise together. *)
Theorem crop_amap {A B} (f : A -> B) (self : RandomCrop) (X : ndarray A) :
  crop self (amap f X) =
  match crop self X with
  | Ok Y => Ok (amap f Y)
  | Raise e => Raise e
  end.
Proof.
  unfold crop, getitem_slices, amap. cbn [shape data].
  destruct (length (shape X) <? length (slices self))%nat; [done|].
  by rewrite take_ranges_map.
Qed.

(* ================================================================== *)
(** * Values that are not numbers *)

(** ** NaN in a reduction *)

Lemma is_nan_eq x : is_nan x = true -> x = S754_nan.
Proof. by destruct x. Qed.

Lemma np_minimum_nan a b :
  is_nan a = true \/ is_nan b = true -> np_minimum a b = S754_nan.
Proof.
  intros [->%is_nan_eq| ->%is_nan_eq]; [done|]. unfold np_minimum. by destruct a.
Qed.

Lemma np_maximum_nan a b :
  is_nan a = true \/ is_nan b = true -> np_maximum a b = S754_nan.
Proof.
  unfold np_maximum. intros [->%is_nan_eq| ->%is_nan_eq]; [by destruct b|by destruct a].
Qed.

Lemma fold_left_nan (f : spec_float -> spec_float -> spec_float) xs x :
  (forall a b, is_nan a = true \/ is_nan b = true -> f a b = S754_nan) ->
  is_nan x = true \/ Exists (fun y => is_nan y = true) xs ->
  fold_left f xs x = S754_nan.
Proof.
  intros Hf. revert x. induction xs as [|y ys IH]; intros x [H|H]; simpl.
  - by apply is_nan_eq.
  - by apply Exists_nil in H.
  - apply IH. left. rewrite Hf; auto.
  - apply IH. apply Exists_cons in H as [H|H]; [|by right].
    left. rewrite Hf; auto.
Qed.

Lemma reduce_nan f (a : ndarray spec_float) :
  (forall a b, is_nan a = true \/ is_nan b = true -> f a b = S754_nan) ->
  Exists (fun y => is_nan y = true) (data a) -> reduce f a = Ok S754_nan.
Proof.
  intros Hf H. unfold reduce. destruct (data a) as [|x xs]; [by apply Exists_nil in H|].
  f_equal. apply fold_left_nan; [done|]. by apply Exists_cons in H.
Qed.

Lemma np_min_nan a :
  Exists (fun y => is_nan y = true) (data a) -> np_min a = Ok S754_nan.
Proof. apply reduce_nan, np_minimum_nan. Qed.

Lemma np_max_nan a :
  Exists (fun y => is_nan y = true) (data a) -> np_max a = Ok S754_nan.
Proof. apply reduce_nan, np_maximum_nan. Qed.

Lemma nan_or_not (l : list spec_float) :
  Forall (fun x => is_nan x = false) l \/ Exists (fun x => is_nan x = true) l.
Proof.
  induction l as [|x l [IH|IH]].
  - left. constructor.
  - destruct (is_nan x) eqn:E; [right; by left|left; by constructor].
  - right. by right.
Qed.

Lemma finite_or_not (l : list spec_float) :
  Forall (fun x => is_finite x = true) l \/ Exists (fun x => is_finite x = false) l.
Proof.
  induction l as [|x l [IH|IH]].
  - left. constructor.
  - destruct (is_finite x) eqn:E; [left; by constructor|right; by left].
  - right. by right.
Qed.

(** ** Subtraction and the special values *)

Lemma fsub_nan_r ft x : fsub ft x S754_nan = S754_nan.
Proof. by destruct x. Qed.

Lemma binary_normalize_not_nan prec emax m e s :
  0 < prec -> is_nan (binary_normalize prec emax m e s) = false.
Proof.
  intros Hp. destruct m as [|m|m]; [done|..]; unfold binary_normalize.
  - pose proof (binary_round_class prec emax Hp false m e) as H.
    by destruct (binary_round prec emax false m e).
  - pose proof (binary_round_class prec emax Hp true m e) as H.
    by destruct (binary_round prec emax true m e).
Qed.

(** The difference of two values is a NaN only when one of them is a NaN
    or both are infinite. *)
Lemma fsub_not_nan ft x y :
  is_nan x = false -> is_nan y = false ->
  is_finite x = true \/ is_finite y = true ->
  is_nan (fsub ft x y) = false.
Proof.
  intros Hx Hy Hf. pose proof (fprec_gt_1 ft) as Hp. unfold fsub.
  destruct x as [sx|sx| |sx mx ex], y as [sy|sy| |sy my ey];
    try discriminate; try reflexivity.
  - by destruct sx, sy.
  - by destruct Hf.
  - unfold SFsub. apply binary_normalize_not_nan. lia.
Qed.

Lemma fsub_inf_self s ft : fsub ft (S754_infinity s) (S754_infinity s) = S754_nan.
Proof. by destruct s. Qed.

Lemma fsub_inf_finite ft s y :
  is_finite y = true -> fsub ft (S754_infinity s) y = S754_infinity s.
Proof. by destruct y. Qed.

Lemma SFleb_finite_inf lo x :
  is_finite lo = true -> is_finite x = false -> is_nan x = false ->
  SFleb lo x = true -> x = S754_infinity false.
Proof.
  destruct x as [|s| |]; try discriminate. intros Hlo _ _.
  destruct s; [|done]. by destruct lo as [|[]| |[]].
Qed.

Lemma SFleb_inf_eq hi : SFleb (S754_infinity false) hi = true -> hi = S754_infinity false.
Proof. destruct hi as [|[]| |[]]; try discriminate. done. Qed.

(** ** Normalising such arrays *)

(** With a NaN among the elements every element of the result is a NaN. *)
Lemma normalize_image_zero_one_nan ft im :
  Exists (fun x => is_nan x = true) (data im) ->
  normalize_image_zero_one ft im = Ok (amap (fun _ => S754_nan) im).
Proof.
  intros Hex.
  assert (amap (fun x => fsub ft x S754_nan) im = amap (fun _ => S754_nan) im) as Hsh.
  { unfold amap. f_equal. apply map_ext. intros x. apply fsub_nan_r. }
  rewrite (normalize_image_zero_one_unfold ft im S754_nan S754_nan).
  - by rewrite Hsh.
  - by apply np_min_nan.
  - rewrite Hsh. apply np_max_nan. cbn [amap data].
    apply Exists_exists in Hex as (x & Hx & _).
    apply Exists_exists. exists S754_nan. split; [|done].
    by apply (elem_of_map (fun _ => S754_nan) _ x).
Qed.

(** With an element that is not finite the result holds a NaN. *)
Lemma normalize_image_zero_one_not_finite ft im :
  Exists (fun x => is_finite x = false) (data im) ->
  exists out,
    normalize_image_zero_one ft im = Ok out /\ shape out = shape im /\
    Exists (fun z => is_nan z = true) (data out).
Proof.
  intros Hex.
  destruct (nan_or_not (data im)) as [Hnn|Hnan].
  2:{ rewrite normalize_image_zero_one_nan by done.
      eexists. split; [reflexivity|]. split; [reflexivity|]. cbn [amap data].
      apply Exists_exists in Hnan as (x & Hx & _).
      apply Exists_exists. exists S754_nan. split; [|done].
      by apply (elem_of_map (fun _ => S754_nan) _ x). }
  destruct (data im) as [|x xs] eqn:Hd; [by apply Exists_nil in Hex|].
  destruct (fold_np_minimum xs x Hnn) as [Hlo_in Hlo_le].
  set (lo := fold_left np_minimum xs x) in *.
  assert (np_min im = Ok lo) as Hmin by (unfold np_min, reduce; by rewrite Hd).
  rewrite Forall_forall in Hnn, Hlo_le.
  pose proof (Hnn lo Hlo_in) as Hlo_nn.
  destruct (reduce_nonempty np_maximum (amap (fun x => fsub ft x lo) im)) as [hi Hmax].
  { cbn [amap data]. by rewrite Hd. }
  fold np_max in Hmax.
  rewrite (normalize_image_zero_one_unfold ft im lo hi Hmin Hmax).
  destruct (is_finite lo) eqn:Hlo_fin.
  - (* the minimum is a number: some element is +inf *)
    apply Exists_exists in Hex as (x0 & Hx0 & Hx0_inf).
    pose proof (SFleb_finite_inf lo x0 Hlo_fin Hx0_inf (Hnn x0 Hx0) (Hlo_le x0 Hx0)) as ->.
    assert (S754_infinity false ∈ data (amap (fun x => fsub ft x lo) im)) as Hin.
    { cbn [amap data]. rewrite Hd.
      rewrite <- (fsub_inf_finite ft false lo Hlo_fin).
      by apply (elem_of_map (fun x => fsub ft x lo)). }
    assert (hi = S754_infinity false) as ->.
    { apply reduce_cons in Hmax as (y0 & ys & Hd' & ->). rewrite Hd' in Hin.
      destruct (fold_np_maximum ys y0) as [_ Hle].
      - rewrite <- Hd'. cbn [amap data]. rewrite Hd. apply Forall_map_intro.
        apply Forall_forall. intros y Hy. apply fsub_not_nan; auto.
      - rewrite Forall_forall in Hle. by apply SFleb_inf_eq, Hle. }
    change (SFltb (S754_zero false) (S754_infinity false)) with true. cbv iota.
    eexists. split; [reflexivity|]. split; [reflexivity|].
    apply Exists_exists. exists S754_nan. split; [|done].
    change S754_nan with (fdiv ft (S754_infinity false) (S754_infinity false)).
    by apply (elem_of_map (fun x => fdiv ft x (S754_infinity false))).
  - (* the minimum is infinite: it cancels itself *)
    assert (S754_nan ∈ data (amap (fun x => fsub ft x lo) im)) as Hin.
    { cbn [amap data]. rewrite Hd.
      replace S754_nan with (fsub ft lo lo).
      - by apply (elem_of_map (fun x => fsub ft x lo)).
      - destruct lo as [|s| |]; try discriminate. apply fsub_inf_self. }
    assert (hi = S754_nan) as ->.
    { rewrite np_max_nan in Hmax; [by injection Hmax|].
      apply Exists_exists. by exists S754_nan. }
    change (SFltb (S754_zero false) S754_nan) with false. cbv iota.
    eexists. split; [reflexivity|]. split; [reflexivity|].
    apply Exists_exists. by exists S754_nan.
Qed.

(** X8. [zero_one] raises only on an array without elements, where [np.min]
    has nothing to reduce and raises [ValueError]; on every other array,
    whatever its values, it returns an array of the same shape. *)
Theorem zero_one_raises_iff_empty (ft : float_dtype) (im : ndarray spec_float) :
  (data im = [] -> normalize_image_zero_one ft im = Raise ValueError) /\
  (data im <> [] ->
   exists out, normalize_image_zero_one ft im = Ok out /\
               shape out = shape im /\ length (data out) = length (data im)).
Proof.
  split.
  - intros Hd. unfold normalize_image_zero_one, np_min, reduce. by rewrite Hd.
  - intros Hne.
    destruct (reduce_nonempty np_minimum im Hne) as [lo Hmin]. fold np_min in Hmin.
    destruct (reduce_nonempty np_maximum (amap (fun x => fsub ft x lo) im))
      as [hi Hmax].
    { cbn [amap data]. by destruct (data im). }
    fold np_max in Hmax.
    rewrite (normalize_image_zero_one_unfold ft im lo hi Hmin Hmax).
    eexists. split; [reflexivity|].
    destruct (SFltb _ hi); cbn [amap shape data]; by rewrite ?length_map.
Qed.

(** X9. A single NaN spoils the whole array: when some element is a NaN,
    [zero_one] returns an array of the same shape in which every element
    is a NaN. *)
Theorem zero_one_nan_poisons (ft : float_dtype) (im : ndarray spec_float) :
  Exists (fun x => is_nan x = true) (data im) ->
  exists out,
    normalize_image_zero_one ft im = Ok out /\
    shape out = shape im /\ length (data out) = length (data im) /\
    Forall (fun z => is_nan z = true) (data out).
Proof.
  intros Hex. rewrite normalize_image_zero_one_nan by done.
  eexists. split; [reflexivity|]. split; [reflexivity|]. cbn [amap data].
  split; [by rewrite length_map|]. apply Forall_map_intro. by apply Forall_forall.
Qed.

Lemma zero_one_nan_poisons_witness :
  exists out,
    normalize_image_zero_one float32
      (NdArray [3%nat] [of_int float32 1; S754_nan; of_int float32 2]) = Ok out /\
    Forall (fun z => is_nan z = true) (data out).
Proof.
  destruct (zero_one_nan_poisons float32
              (NdArray [3%nat] [of_int float32 1; S754_nan; of_int float32 2]))
    as (out & Hout & _ & _ & Hall).
  - right. by left.
  - by exists out.
Defined.

(** X10. When some element is an infinity or a NaN, [zero_one] still returns,
    but its result holds a NaN, and [np.min] and [np.max] of the result are
    both NaN: the result has neither minimum 0 nor maximum 1. *)
Theorem zero_one_nonfinite_gives_nan (ft : float_dtype) (im : ndarray spec_float) :
  Exists (fun x => is_finite x = false) (data im) ->
  exists out,
    normalize_image_zero_one ft im = Ok out /\
    shape out = shape im /\
    Exists (fun z => is_nan z = true) (data out) /\
    np_min out = Ok S754_nan /\ np_max out = Ok S754_nan.
Proof.
  intros Hex.
  destruct (normalize_image_zero_one_not_finite ft im Hex) as (out & Hout & Hsh & Hnan).
  exists out. repeat split; try done; [by apply np_min_nan|by apply np_max_nan].
Qed.

Lemma zero_one_nonfinite_gives_nan_witness :
  exists out,
    normalize_image_zero_one float64
      (NdArray [3%nat] [of_int float64 1; S754_infinity false; of_int float64 2])
    = Ok out /\
    np_min out = Ok S754_nan /\ np_max out = Ok S754_nan.
Proof.
  destruct (zero_one_nonfinite_gives_nan float64
              (NdArray [3%nat] [of_int float64 1; S754_infinity false; of_int float64 2]))
    as (out & Hout & _ & _ & Hmin & Hmax).
  - right. by left.
  - by exists out.
Defined.

(** ** Results without infinities and NaNs *)

Lemma in_unit_unit_valued ft out :
  Forall (in_unit ft) (data out) -> unit_valued ft out = true.
Proof.
  intros Hu. unfold unit_valued. rewrite forallb_Forall.
  eapply Forall_impl; [exact Hu|]. intros z (Hv & _ & Hnn & Hle).
  rewrite Hv, of_int_0, of_int_1. unfold nonneg in Hnn. by rewrite Hnn, Hle.
Qed.

(** An array of values of the format whose normalisation holds numbers
    only was itself made of numbers, and its subtraction did not
    overflow. *)
Lemma finite_result_inv ft im out :
  Forall (fun x => representable ft x = true) (data im) ->
  normalize_image_zero_one ft im = Ok out ->
  Forall (fun z => is_finite z = true) (data out) ->
  all_finite ft im = true /\
  exists hi, shifted_max ft im = Ok hi /\ is_finite hi = true.
Proof.
  intros Hv Hout Hfin.
  assert (all_finite ft im = true) as Hall.
  { unfold all_finite. rewrite forallb_Forall.
    destruct (finite_or_not (data im)) as [Hf|Hex].
    - rewrite Forall_forall in *. intros x Hx. by rewrite Hv, Hf.
    - destruct (normalize_image_zero_one_not_finite ft im Hex) as (out' & Hout' & _ & Hnan).
      rewrite Hout in Hout'. injection Hout' as <-.
      apply Exists_exists in Hnan as (z & Hz & Hnan). rewrite Forall_forall in Hfin.
      specialize (Hfin z Hz). by destruct z. }
  split; [done|]. unfold shifted_max.
  unfold normalize_image_zero_one in Hout.
  destruct (np_min im) as [lo|] eqn:Hmin; [|discriminate].
  cbn [mbind result_bind] in *.
  destruct (np_max (amap (fun x => fsub ft x lo) im)) as [hi|] eqn:Hmax; [|discriminate].
  cbn [mbind result_bind] in Hout. exists hi. split; [done|].
  pose proof (shifted_spec ft im lo Hall Hmin) as Hsh.
  pose proof Hmax as Hmax'.
  apply reduce_cons in Hmax' as (y0 & ys & Hd & Hfold). cbn [amap data] in Hd.
  destruct (fold_np_maximum ys y0) as [Hin _].
  { rewrite <- Hd. apply Forall_map_intro. eapply Forall_impl; [exact Hsh|].
    intros x (_ & Hx & _). by apply nonneg_not_nan. }
  rewrite <- Hfold, <- Hd in Hin.
  apply elem_of_map_inv in Hin as (xh & Hxh & Hhi).
  rewrite Forall_forall in Hsh. destruct (Hsh xh Hxh) as (_ & Hnn & _).
  rewrite <- Hhi in Hnn.
  destruct (nonneg_cases hi Hnn) as [Hz|[(m & e & ->)| ->]];
    [by destruct hi|done|].
  exfalso. change (SFltb (S754_zero false) (S754_infinity false)) with true in Hout.
  cbv iota in Hout. cbn [mbind result_bind] in Hout. injection Hout as <-.
  rewrite Forall_forall in Hfin.
  specialize (Hfin (fdiv ft (S754_infinity false) (S754_infinity false))).
  discriminate Hfin.
  apply (elem_of_map (fun x => fdiv ft x (S754_infinity false))).
  rewrite Hhi. by apply (elem_of_map (fun x => fsub ft x lo)).
Qed.

(** X11. A check on the result is enough: when the array returned by
    [zero_one] holds no infinity and no NaN, all its elements are in
    [0, 1], its minimum is 0, and its maximum is exactly 1 unless the input
    was constant, in which case every element is 0. *)
Theorem zero_one_finite_result (ft : float_dtype) (im out : ndarray spec_float) :
  Forall (fun x => representable ft x = true) (data im) ->
  normalize_image_zero_one ft im = Ok out ->
  Forall (fun z => is_finite z = true) (data out) ->
  unit_valued ft out = true /\
  (exists lo, np_min out = Ok lo /\ SFeqb lo (of_int ft 0) = true) /\
  (if is_constant im
   then Forall (fun z => SFeqb z (of_int ft 0) = true) (data out)
   else np_max out = Ok (of_int ft 1)).
Proof.
  intros Hv Hout Hfin.
  destruct (finite_result_inv ft im out Hv Hout Hfin) as (Hall & hi & Hsm & Hhi).
  destruct (normalize_image_zero_one_spec ft im hi Hall Hsm Hhi)
    as (out' & Hout' & _ & Hu & Hz & Hcase).
  rewrite Hout in Hout'. injection Hout' as <-.
  split; [by apply in_unit_unit_valued|]. split.
  - destruct (unit_array_min ft out Hu Hz) as (lo & Hlo & Hzlo).
    exists lo. split; [done|]. by apply SFeqb_zeros.
  - destruct (is_constant im).
    + eapply Forall_impl; [exact Hcase|]. intros z Hzz. by apply SFeqb_zeros.
    + rewrite of_int_1. by apply unit_array_max.
Qed.

Lemma zero_one_finite_result_witness :
  exists out,
    normalize_image_zero_one float32
      (NdArray [3%nat] [of_int float32 5; of_int float32 9; of_int float32 7]) = Ok out /\
    unit_valued float32 out = true /\ np_max out = Ok (of_int float32 1).
Proof.
  eexists.
  destruct (zero_one_finite_result float32
              (NdArray [3%nat] [of_int float32 5; of_int float32 9; of_int float32 7])
              _ ltac:(repeat constructor) eq_refl ltac:(repeat constructor))
    as (Hu & _ & Hmax).
  split; [reflexivity|]. split; [exact Hu|exact Hmax].
Defined.

(** ** A standard deviation of zero *)

Lemma normalize_image_center_scale_zero_std_witness :
  exists out,
    normalize_image_center_scale float64
      (fun _ => of_int float64 3) (fun _ => S754_zero false)
      (NdArray [2%nat] [of_int float64 3; of_int float64 3]) = Ok out /\
    Forall (fun z => is_finite z = false) (data out).
Proof.
  destruct (normalize_image_center_scale_zero_std float64
              (fun _ => of_int float64 3) (fun _ => S754_zero false)
              (NdArray [2%nat] [of_int float64 3; of_int float64 3]) eq_refl)
    as (out & Hout & _ & Hall).
  by exists out.
Defined.

(* ================================================================== *)
(** * Quantisation to any unsigned integer type *)

(** ** Integer types that fit the significand *)

Lemma of_int_imax ft ut :
  uint_bits ut <= fprec ft ->
  of_int ft (2 ^ uint_bits ut) = pow2 (fprec ft) (uint_bits ut).
Proof. intros H. destruct ft, ut; try (simpl in H; lia); vm_compute; reflexivity. Qed.

Lemma uint_bits_pos ut : 0 < uint_bits ut.
Proof. by destruct ut. Qed.

(** One element through [float_to_uint]. *)
Lemma quantize_range ft ut x :
  uint_bits ut <= fprec ft ->
  representable ft x = true ->
  SFleb (of_int ft 0) x = true -> SFleb x (of_int ft 1) = true ->
  let imax := 2 ^ uint_bits ut in
  let y := fmul ft x (of_int ft imax) in
  let q := cast_uint ut (if SFeqb y (of_int ft imax)
                         then of_int ft (imax - 1) else y) in
  0 <= q <= imax - 1 /\ q = Z.min (imax - 1) (trunc y) /\
  (SFeqb x (of_int ft 1) = true -> q = imax - 1) /\
  (SFeqb x (of_int ft 0) = true -> q = 0).
Proof.
  intros Hb Hv H0 H1 imax y q.
  pose proof (fprec_gt_1 ft) as Hp. pose proof (fprec_lt_femax ft) as Hm.
  pose proof (uint_bits_pos ut) as Hk.
  assert (1 <= imax - 1) as Himax.
  { unfold imax. assert (2 ^ 1 <= 2 ^ uint_bits ut) by (apply Z.pow_le_mono_r; lia). lia. }
  rewrite of_int_0 in H0.
  destruct x as [s|s| |s m e]; [| |vm_compute in H0; discriminate|].
  - (* zero *)
    assert (q = 0 /\ trunc y = 0) as [Hq Hy].
    { subst q y imax. clear -Hb.
      destruct s, ft, ut; try (simpl in Hb; lia); split; vm_compute; reflexivity. }
    rewrite Hq, Hy. repeat split; try lia.
    intros H. exfalso. clear -H. destruct s, ft; vm_compute in H; discriminate.
  - destruct s; [vm_compute in H0; discriminate|].
    rewrite of_int_1 in H1. vm_compute in H1. discriminate.
  - destruct s; [vm_compute in H0; discriminate|]. clear H0.
    assert (SFeqb (S754_finite false m e) (of_int ft 0) = false) as Hnz by reflexivity.
    rewrite Hnz. rewrite of_int_1 in *. unfold SFleb in H1.
    destruct (SFcompare (S754_finite false m e) (pow2 (fprec ft) 0)) as [[]|] eqn:E;
      try discriminate.
    + (* one *)
      assert (SFeqb (S754_finite false m e) (pow2 (fprec ft) 0) = true) as Heq
        by (unfold SFeqb; by rewrite E).
      unfold pow2 in Heq. apply SFeqb_finite_eq in Heq as [= -> ->].
      assert (q = imax - 1 /\ trunc y = imax) as [Hq Hy].
      { subst q y imax. clear -Hb.
        destruct ft, ut; try (simpl in Hb; lia); split; vm_compute; reflexivity. }
      rewrite Hq, Hy. repeat split; try lia; discriminate.
    + (* strictly between *)
      assert (SFeqb (S754_finite false m e) (pow2 (fprec ft) 0) = false) as Hn1
        by (unfold SFeqb; by rewrite E).
      rewrite Hn1. unfold representable in Hv.
      destruct (SFmul_pow2 (fprec ft) (femax ft) Hp Hm m e (uint_bits ut) Hv E)
        as [Hvy Hy]; [pose proof (emin_le ft); lia|lia|].
      subst q y. unfold imax in *. rewrite of_int_imax by done. unfold fmul.
      destruct Hy as [->|(m' & e' & Hmul & He' & Hm')].
      { change (SFeqb (S754_zero false) (pow2 (fprec ft) (uint_bits ut))) with false.
        cbv iota. change (cast_uint ut (S754_zero false)) with (0 mod 2 ^ uint_bits ut).
        change (trunc (S754_zero false)) with 0. rewrite Z.mod_0_l by lia.
        repeat split; try lia; discriminate. }
      rewrite Hmul in *.
      destruct (SFeqb (S754_finite false m' e') (pow2 (fprec ft) (uint_bits ut))) eqn:Eq.
      * unfold pow2 in Eq. apply SFeqb_finite_eq in Eq as [= -> ->].
        assert (cast_uint ut (of_int ft (2 ^ uint_bits ut - 1)) = 2 ^ uint_bits ut - 1 /\
                trunc (pow2 (fprec ft) (uint_bits ut)) = 2 ^ uint_bits ut) as [Hq Hy].
        { clear -Hb. destruct ft, ut; try (simpl in Hb; lia);
            split; vm_compute; reflexivity. }
        fold (pow2 (fprec ft) (uint_bits ut)). rewrite Hq, Hy.
        repeat split; try lia; discriminate.
      * assert (S754_finite false m' e' <> pow2 (fprec ft) (uint_bits ut)) as Hne.
        { intros Heq. rewrite Heq in Eq. clear -Eq Hb.
          destruct ft, ut; try (simpl in Hb; lia); vm_compute in Eq; discriminate. }
        pose proof (trunc_lt_pow2 (fprec ft) (femax ft) m' e' (uint_bits ut) Hvy
                      ltac:(lia) ltac:(pose proof (emin_le ft); lia) He' Hm' Hne) as Ht.
        unfold cast_uint. rewrite Z.mod_small by lia.
        repeat split; try lia; discriminate.
Qed.

Lemma float_to_uint_data ft ut im :
  float_to_uint ft im (DUInt ut) =
  Ok (UIntArray ut
        (amap (fun x =>
                 cast_uint ut
                   (if SFeqb (fmul ft x (of_int ft (2 ^ uint_bits ut)))
                             (of_int ft (2 ^ uint_bits ut))
                    then of_int ft (2 ^ uint_bits ut - 1)
                    else fmul ft x (of_int ft (2 ^ uint_bits ut)))) im)).
Proof.
  unfold float_to_uint, iinfo_max. cbn [mbind result_bind].
  replace (2 ^ uint_bits ut - 1 + 1 - 1) with (2 ^ uint_bits ut - 1) by lia.
  replace (2 ^ uint_bits ut - 1 + 1) with (2 ^ uint_bits ut) by lia.
  unfold amap. cbn [shape data]. by rewrite !List.map_map.
Qed.

(** X13. For an unsigned integer type with no more bits than the significand of
    the float dtype (uint8 for every float dtype, uint16 for float32 and
    float64, uint32 for float64) and an array with all values in [0, 1],
    [float_to_uint] returns the integer part of [x * imax] capped at
    [imax - 1]: every element is in the range of the integer type, 1.0 goes
    to [imax - 1] and 0.0 to 0. *)
Theorem float_to_uint_range (ft : float_dtype) (ut : uint_dtype)
    (im : ndarray spec_float) :
  uint_bits ut <= fprec ft ->
  unit_valued ft im = true ->
  exists out,
    float_to_uint ft im (DUInt ut) = Ok (UIntArray ut out) /\
    shape out = shape im /\
    Forall (fun n => 0 <= n <= 2 ^ uint_bits ut - 1) (data out) /\
    Forall2 (fun n x =>
               n = Z.min (2 ^ uint_bits ut - 1)
                     (trunc (fmul ft x (of_int ft (2 ^ uint_bits ut)))) /\
               (SFeqb x (of_int ft 1) = true -> n = 2 ^ uint_bits ut - 1) /\
               (SFeqb x (of_int ft 0) = true -> n = 0))
            (data out) (data im).
Proof.
  intros Hb Hu. rewrite float_to_uint_data.
  eexists. split; [reflexivity|]. split; [reflexivity|]. cbn [amap data].
  unfold unit_valued in Hu. rewrite forallb_Forall in Hu.
  split.
  - apply Forall_map_intro. eapply Forall_impl; [exact Hu|]. intros x Hx.
    apply andb_true_iff in Hx as [Hv Hx]. apply andb_true_iff in Hx as [H0 H1].
    by apply (quantize_range ft ut x Hb Hv H0 H1).
  - apply Forall2_map_diag. eapply Forall_impl; [exact Hu|]. intros x Hx.
    apply andb_true_iff in Hx as [Hv Hx]. apply andb_true_iff in Hx as [H0 H1].
    by apply (quantize_range ft ut x Hb Hv H0 H1).
Qed.

Lemma float_to_uint_range_witness :
  exists out,
    float_to_uint float32
      (NdArray [3%nat] [S754_zero false; S754_finite false 8388608 (-24);
                        of_int float32 1]) (DUInt uint16) =
    Ok (UIntArray uint16 out) /\
    Forall (fun n => 0 <= n <= 65535) (data out).
Proof.
  destruct (float_to_uint_range float32 uint16
    (NdArray [3%nat] [S754_zero false; S754_finite false 8388608 (-24);
                      of_int float32 1]) ltac:(simpl; lia) eq_refl)
    as (out & H & _ & Hr & _).
  exists out. split; [exact H|exact Hr].
Defined.

(** ** Normalising, then quantising *)

Lemma in_unit_bounds ft z :
  in_unit ft z ->
  representable ft z = true /\ SFleb (of_int ft 0) z = true /\
  SFleb z (of_int ft 1) = true.
Proof. intros (Hv & _ & Hnn & Hle). by rewrite of_int_0, of_int_1. Qed.

(** Quantising an array with values in [0, 1]. *)
Lemma float_to_uint_unit ft ut z :
  uint_bits ut <= fprec ft ->
  Forall (in_unit ft) (data z) ->
  exists q,
    float_to_uint ft z (DUInt ut) = Ok (UIntArray ut q) /\
    shape q = shape z /\
    Forall (fun n => 0 <= n <= 2 ^ uint_bits ut - 1) (data q) /\
    (Exists (fun x => is_zero x = true) (data z) -> 0 ∈ data q) /\
    (Forall (fun x => is_zero x = true) (data z) -> Forall (fun n => n = 0) (data q)) /\
    (pow2 (fprec ft) 0 ∈ data z -> (2 ^ uint_bits ut - 1) ∈ data q).
Proof.
  intros Hb Hu. rewrite float_to_uint_data. eexists. split; [done|].
  split; [reflexivity|]. cbn [amap shape data].
  set (qf := fun x => cast_uint ut _).
  assert (forall x, in_unit ft x ->
            0 <= qf x <= 2 ^ uint_bits ut - 1 /\
            (x = pow2 (fprec ft) 0 -> qf x = 2 ^ uint_bits ut - 1) /\
            (is_zero x = true -> qf x = 0)) as Hq.
  { intros x (Hv & H0 & H1)%in_unit_bounds.
    destruct (quantize_range ft ut x Hb Hv H0 H1) as (Hr & _ & Hone & Hzr).
    split; [exact Hr|]. split.
    - intros ->. apply Hone. rewrite of_int_1. apply SFeqb_refl. reflexivity.
    - intros Hzx. apply Hzr. rewrite of_int_0. by apply SFeqb_zeros. }
  split; [|split; [|split]].
  - apply Forall_map_intro. eapply Forall_impl; [exact Hu|]. intros x Hx.
    by apply Hq.
  - intros (x & Hx & Hzx)%Exists_exists. rewrite Forall_forall in Hu.
    destruct (Hq x (Hu x Hx)) as (_ & _ & H0).
    replace 0 with (qf x) by (by apply H0). by apply (elem_of_map qf).
  - intros Hall. apply Forall_map_intro. rewrite Forall_forall in *. intros x Hx.
    apply Hq; [by apply Hu|by apply Hall].
  - intros Hone. rewrite Forall_forall in Hu.
    destruct (Hq _ (Hu _ Hone)) as (_ & H1 & _).
    replace (2 ^ uint_bits ut - 1) with (qf (pow2 (fprec ft) 0)) by (by apply H1).
    by apply (elem_of_map qf).
Qed.

(** X15. The two steps that end [prep_fish], for an integer type that fits the
    significand: an array of numbers whose subtraction does not overflow is
    stretched over the whole range of the integer type.  Every element of
    the quantised array is between 0 and [imax - 1]; 0 is among them; and
    [imax - 1] is among them unless the input was constant, in which case
    every element is 0. *)
Theorem zero_one_float_to_uint (ft : float_dtype) (ut : uint_dtype)
    (im : ndarray spec_float) (hi : spec_float) :
  uint_bits ut <= fprec ft ->
  all_finite ft im = true ->
  shifted_max ft im = Ok hi -> is_finite hi = true ->
  exists z q,
    normalize_image_zero_one ft im = Ok z /\
    float_to_uint ft z (DUInt ut) = Ok (UIntArray ut q) /\
    shape q = shape im /\
    Forall (fun n => 0 <= n <= 2 ^ uint_bits ut - 1) (data q) /\
    0 ∈ data q /\
    if is_constant im then Forall (fun n => n = 0) (data q)
    else (2 ^ uint_bits ut - 1) ∈ data q.
Proof.
  intros Hb Hfin Hsm Hhi.
  destruct (normalize_image_zero_one_spec ft im hi Hfin Hsm Hhi)
    as (z & Hz & Hshape & Hu & Hzero & Hcase).
  destruct (float_to_uint_unit ft ut z Hb Hu)
    as (q & Hq & Hqs & Hr & H0 & Hall & Hone).
  exists z, q. split; [done|]. split; [done|]. split; [congruence|].
  split; [done|]. split; [by apply H0|].
  destruct (is_constant im); [by apply Hall|by apply Hone].
Qed.

Lemma zero_one_float_to_uint_witness :
  exists z q,
    normalize_image_zero_one float64
      (NdArray [3%nat] [of_int float64 5; of_int float64 9; of_int float64 7]) = Ok z /\
    float_to_uint float64 z (DUInt uint16) = Ok (UIntArray uint16 q) /\
    0 ∈ data q /\ 65535 ∈ data q.
Proof.
  destruct (zero_one_float_to_uint float64 uint16
              (NdArray [3%nat] [of_int float64 5; of_int float64 9; of_int float64 7])
              (of_int float64 4) ltac:(simpl; lia) eq_refl eq_refl eq_refl)
    as (z & q & Hz & Hq & _ & _ & H0 & Hmax).
  exists z, q. split; [exact Hz|]. split; [exact Hq|]. split; [exact H0|exact Hmax].
Defined.

(* ================================================================== *)
(** * Values between zero and a power of two *)

Section Bounded.
Variables prec emax : Z.
Hypothesis Hprec : 1 < prec.
Hypothesis Hemax : prec < emax.

Local Abbreviation fexp := (fexp prec emax).
Local Abbreviation emin := (emin prec emax).
Local Abbreviation valid := (valid_binary prec emax).

(** Rounding a value below [2 ^ K], whatever its alignment. *)
Lemma binary_round_le_pow2 s mx ex K :
emin <= K -> K < emax -> ex <= K -> ex <= emax - prec ->
Z.pos mx < 2 ^ (K - ex) ->
binary_round prec emax s mx ex = S754_zero s \/
exists m e, binary_round prec emax s mx ex = S754_finite s m e /\
            e <= K /\ Z.pos m <= 2 ^ (K - e).
Proof.
intros HK HKmax Hex Hex' Hlt. unfold binary_round.
pose proof (emin_spec prec emax) as Hemin.
destruct (shl_align_cases mx ex (fexp (Z.pos (digits2_pos mx) + ex)))
  as [(Hez & mz & -> & Hmz)|(Hle & ->)].
- apply binary_round_aux_le_pow2; try lia.
  rewrite Hmz.
  set (ez := fexp (Z.pos (digits2_pos mx) + ex)) in *.
  replace (K - ez) with (K - ex + (ex - ez)) by lia.
  rewrite Z.pow_add_r by lia.
  pose proof (Z.pow_pos_nonneg 2 (ex - ez) ltac:(lia) ltac:(lia)). nia.
- apply binary_round_aux_le_pow2; lia.
Qed.

(** A positive number of the format below [2 ^ K], by its fields. *)
Lemma le_pow2_inv m e K :
valid (S754_finite false m e) = true ->
emin + prec - 1 <= K -> K < emax ->
SFleb (S754_finite false m e) (pow2 prec K) = true ->
e <= K /\ Z.pos m <= 2 ^ (K - e) /\ e <= emax - prec.
Proof.
intros Hv HK HKmax Hle.
pose proof Hv as [_ Hev]%valid_binary_finite.
unfold SFleb in Hle.
destruct (SFcompare (S754_finite false m e) (pow2 prec K)) as [[]|] eqn:E;
  try discriminate.
- assert (SFeqb (S754_finite false m e) (pow2 prec K) = true) as Heq
    by (unfold SFeqb; by rewrite E).
  unfold pow2 in Heq. apply SFeqb_finite_eq in Heq as [= -> ->].
  rewrite pow2_mantissa by lia.
  replace (K - (K - (prec - 1))) with (prec - 1) by lia. lia.
- pose proof (pow2_valid prec emax Hprec K HK HKmax) as Hvp.
  unfold pow2 in E, Hvp.
  destruct (canonical_lt_value prec emax ltac:(lia) _ _ _ _ Hv Hvp E) as [He Hm].
  rewrite pow2_mantissa in Hm by lia.
  rewrite <- Z.pow_add_r in Hm by lia.
  replace (prec - 1 + (K - (prec - 1) - e)) with (K - e) in Hm by lia. lia.
Qed.
End Bounded.

Lemma in_range_zero ft K x : is_zero x = true -> in_range ft K x.
Proof. destruct x as [[]| | |]; try discriminate; by intros _. Qed.

Lemma in_range_finite ft K x : in_range ft K x -> is_finite x = true.
Proof.
  intros (_ & Hnn & Hle).
  destruct (nonneg_cases x Hnn) as [Hz|[(m & e & ->)| ->]];
    [by destruct x|done|discriminate].
Qed.

Lemma femax_emin ft K :
  0 <= K -> emin (fprec ft) (femax ft) + fprec ft - 1 <= K /\
            emin (fprec ft) (femax ft) <= K.
Proof. pose proof (emin_le ft). pose proof (fprec_gt_1 ft). lia. Qed.

(** The fields of a number in [0, 2 ^ K]. *)
Lemma in_range_cases ft K x :
  0 <= K -> K < femax ft -> in_range ft K x ->
  is_zero x = true \/
  exists m e, x = S754_finite false m e /\
              e <= K /\ Z.pos m <= 2 ^ (K - e) /\ e <= femax ft - fprec ft.
Proof.
  intros HK HKmax (Hv & Hnn & Hle).
  destruct (nonneg_cases x Hnn) as [Hz|[(m & e & ->)| ->]];
    [by left| |discriminate].
  right. exists m, e. split; [done|].
  destruct (femax_emin ft K HK) as [HK1 _].
  exact (le_pow2_inv (fprec ft) (femax ft) (fprec_gt_1 ft) m e K Hv HK1 HKmax Hle).
Qed.

Lemma in_range_intro ft K s m e :
  0 <= K ->
  representable ft (S754_finite false m e) = true ->
  e <= K -> Z.pos m <= 2 ^ (K - e) ->
  s = false -> in_range ft K (S754_finite s m e).
Proof.
  intros HK Hv He Hm ->. split; [done|]. split; [done|].
  destruct (femax_emin ft K HK) as [HK1 _].
  exact (le_pow2 (fprec ft) (femax ft) (fprec_gt_1 ft) m e K Hv HK1 He Hm).
Qed.

(** A rounded value below [2 ^ K] is a number of the format, and is in
    [0, 2 ^ K] when its sign is positive. *)
Lemma binary_round_in_range ft K s mx ex :
  0 <= K -> K < femax ft -> ex <= K -> ex <= femax ft - fprec ft ->
  Z.pos mx < 2 ^ (K - ex) ->
  let r := binary_round (fprec ft) (femax ft) s mx ex in
  representable ft r = true /\ is_finite r = true /\
  (SFltb r (S754_zero false) = false -> in_range ft K r).
Proof.
  intros HK HKmax Hex Hex' Hlt r.
  assert (representable ft r = true) as Hv by apply binary_round_valid.
  split; [done|].
  destruct (femax_emin ft K HK) as [_ HK2].
  destruct (binary_round_le_pow2 (fprec ft) (femax ft) (fprec_gt_1 ft)
              (fprec_lt_femax ft) s mx ex K HK2 HKmax Hex Hex' Hlt)
    as [Hr|(m & e & Hr & He & Hm)]; fold r in Hr; rewrite Hr in *.
  - split; [done|]. intros _. by apply in_range_zero.
  - split; [done|]. intros Hs. apply in_range_intro; try done.
    by destruct s.
Qed.

(** The difference of two numbers in [0, 2 ^ K] does not overflow, and is
    in [0, 2 ^ K] unless it is negative. *)
Lemma fsub_in_range ft K x y :
  0 <= K -> K < femax ft -> in_range ft K x -> in_range ft K y ->
  representable ft (fsub ft x y) = true /\
  is_finite (fsub ft x y) = true /\
  (SFltb (fsub ft x y) (S754_zero false) = false -> in_range ft K (fsub ft x y)).
Proof.
  intros HK HKmax Hx Hy.
  assert (representable ft (fsub ft x y) = true) as Hv.
  { destruct Hx as [Hvx _], Hy as [Hvy _]. by apply SFsub_valid. }
  split; [done|].
  destruct (in_range_cases ft K x HK HKmax Hx) as [Hzx|(mx & ex & -> & Hex & Hmx & Hex')],
           (in_range_cases ft K y HK HKmax Hy) as [Hzy|(my & ey & -> & Hey & Hmy & Hey')].
  - destruct x as [sx| | |], y as [sy| | |]; try discriminate.
    split; [by destruct sx, sy|]. intros _. apply in_range_zero. by destruct sx, sy.
  - destruct x as [sx| | |]; try discriminate. cbn [fsub SFsub negb].
    split; [done|]. discriminate.
  - destruct y as [sy| | |]; try discriminate. cbn [fsub SFsub].
    split; [done|]. by intros _.
  - unfold fsub in *. rewrite SFsub_finite in *. cbn [cond_Zopp] in *.
    set (ez := Z.min ex ey) in *.
    pose proof (Z.pow_pos_nonneg 2 (ex - ez) ltac:(lia) ltac:(lia)) as Hpx.
    pose proof (Z.pow_pos_nonneg 2 (ey - ez) ltac:(lia) ltac:(lia)) as Hpy.
    assert (Z.pos mx * 2 ^ (ex - ez) <= 2 ^ (K - ez)) as Hbx.
    { replace (K - ez) with (K - ex + (ex - ez)) by lia.
      rewrite Z.pow_add_r by lia. nia. }
    assert (Z.pos my * 2 ^ (ey - ez) <= 2 ^ (K - ez)) as Hby.
    { replace (K - ez) with (K - ey + (ey - ez)) by lia.
      rewrite Z.pow_add_r by lia. nia. }
    destruct (Z.pos mx * 2 ^ (ex - ez) - Z.pos my * 2 ^ (ey - ez)) as [|d|d] eqn:Hd;
      cbn [binary_normalize] in *.
    + split; [done|]. intros _. by apply in_range_zero.
    + apply (binary_round_in_range ft K false d ez); lia.
    + apply (binary_round_in_range ft K true d ez); lia.
Qed.

(** The conversion of an integer below [2 ^ K]. *)
Lemma of_int_in_range ft K n :
  0 <= K -> K < femax ft -> 0 <= n < 2 ^ K -> in_range ft K (of_int ft n).
Proof.
  intros HK HKmax Hn. unfold of_int.
  destruct n as [|p|p]; [by apply in_range_zero| |lia].
  cbn [binary_normalize].
  pose proof (fprec_lt_femax ft).
  apply (binary_round_in_range ft K false p 0); try lia.
  - rewrite Z.sub_0_r. lia.
  - pose proof (binary_round_class (fprec ft) (femax ft) ltac:(pose proof (fprec_gt_1 ft); lia)
                  false p 0) as Hc.
    destruct (binary_round _ _ _ _ _) as [s|s| |s m e]; try done; by rewrite Hc.
Qed.

(** Clipping to bounds in the range. *)
Lemma clip_in_range ft K x a_min a_max :
  in_range ft K x -> in_range ft K a_min -> in_range ft K a_max ->
  in_range ft K (np_minimum (np_maximum x a_min) a_max).
Proof.
  intros Hx Hlo Hhi.
  assert (forall z, in_range ft K z -> is_nan z = false) as Hnn.
  { intros z (_ & Hz & _). by apply nonneg_not_nan. }
  destruct (np_maximum_cases x a_min (Hnn _ Hx) (Hnn _ Hlo)) as [[Hm|Hm] _];
    rewrite Hm.
  - by destruct (np_minimum_cases x a_max (Hnn _ Hx) (Hnn _ Hhi)) as [[->| ->] _].
  - by destruct (np_minimum_cases a_min a_max (Hnn _ Hlo) (Hnn _ Hhi)) as [[->| ->] _].
Qed.

(** Setting the negative values to zero. *)
Lemma mask_in_range ft K r :
  (SFltb r (S754_zero false) = false -> in_range ft K r) ->
  in_range ft K (if SFltb r (S754_zero false) then S754_zero false else r).
Proof.
  intros H. destruct (SFltb r (S754_zero false)); [by apply in_range_zero|by apply H].
Qed.

(** ** Normalising an array of such values *)

Lemma in_range_all_finite ft K im :
  Forall (in_range ft K) (data im) -> all_finite ft im = true.
Proof.
  intros H. unfold all_finite. rewrite forallb_Forall.
  eapply Forall_impl; [exact H|]. intros x Hx.
  pose proof (in_range_finite ft K x Hx) as Hf. destruct Hx as [-> _]. by rewrite Hf.
Qed.

(** No subtraction overflows on an array with values in [0, 2 ^ K]. *)
Lemma in_range_shifted_max ft K im :
  0 <= K -> K < femax ft ->
  data im <> [] -> Forall (in_range ft K) (data im) ->
  exists hi, shifted_max ft im = Ok hi /\ is_finite hi = true.
Proof.
  intros HK HKmax Hne Hr.
  pose proof (in_range_all_finite ft K im Hr) as Hfin.
  destruct (reduce_nonempty np_minimum im Hne) as [lo Hmin]. fold np_min in Hmin.
  destruct (np_min_spec ft im lo Hfin Hmin) as [Hlo_in _].
  pose proof (shifted_spec ft im lo Hfin Hmin) as Hsh.
  unfold shifted_max. rewrite Hmin. cbn [mbind result_bind].
  destruct (reduce_nonempty np_maximum (amap (fun x => fsub ft x lo) im)) as [hi Hmax].
  { cbn [amap data]. by destruct (data im). }
  fold np_max in Hmax. exists hi. split; [done|].
  apply reduce_cons in Hmax as (y0 & ys & Hd & ->). cbn [amap data] in Hd.
  destruct (fold_np_maximum ys y0) as [Hin _].
  { rewrite <- Hd. apply Forall_map_intro. eapply Forall_impl; [exact Hsh|].
    intros x (_ & Hx & _). by apply nonneg_not_nan. }
  rewrite <- Hd in Hin. apply elem_of_map_inv in Hin as (xh & Hxh & ->).
  rewrite Forall_forall in Hr.
  by apply (fsub_in_range ft K xh lo HK HKmax); apply Hr.
Qed.

(* ================================================================== *)
(** * The order of the quantised values *)

Section Scaling.
Variables prec emax : Z.
Hypothesis Hprec : 1 < prec.
Hypothesis Hemax : prec < emax.

Local Abbreviation fexp := (fexp prec emax).
Local Abbreviation emin := (emin prec emax).
Local Abbreviation valid := (valid_binary prec emax).

(** Rounding is exact when no set bit is shifted out and some bit is
    left. *)
Lemma binary_round_aux_exact_digits s mx ex :
0 < mx ->
let n := Z.max 0 (fexp (Zdigits2 mx + ex) - ex) in
n < Zdigits2 mx -> mx mod 2 ^ n = 0 -> ex + n <= emax - prec ->
binary_round_aux prec emax s mx ex loc_Exact =
match mx / 2 ^ n with
| Z.pos m => S754_finite s m (ex + n)
| _ => S754_nan
end.
Proof.
intros Hmx n Hlt Hmod Hmax.
destruct (binary_round_aux_shape prec emax s mx ex loc_Exact ltac:(lia))
  as (m1 & _ & Hm1 & ->).
fold n in Hm1 |- *. rewrite (Hm1 eq_refl Hmod). clear Hm1 m1.
assert (Hn : 0 <= n) by (unfold n; lia).
pose proof (Z.pow_pos_nonneg 2 n ltac:(lia) Hn) as Hp.
assert (Zdigits2 (mx / 2 ^ n) + (ex + n) = Zdigits2 mx + ex) as Hd.
{ rewrite Zdigits2_div_pow2 by lia. lia. }
rewrite Hd.
replace (Z.max 0 (fexp (Zdigits2 mx + ex) - (ex + n))) with 0 by (unfold n; lia).
rewrite Z.div_1_r, Z.add_0_r.
assert (0 < mx / 2 ^ n) as Hq.
{ pose proof (Zdigits2_nonneg (mx / 2 ^ n)).
  assert (0 <= mx / 2 ^ n) by (apply Z.div_pos; lia).
  destruct (Z.eq_dec (mx / 2 ^ n) 0) as [Hz|]; [|lia].
  rewrite Hz in Hd. simpl in Hd. lia. }
destruct (mx / 2 ^ n) as [|m|m]; try lia.
destruct (Z.leb_spec (ex + n) (emax - prec)); [done|lia].
Qed.

(** The product of a number in (0, 1] and [2 ^ K] is exact: the same
    digits at an exponent raised by [K]. *)
Lemma SFmul_pow2_exact m e K :
valid (S754_finite false m e) = true ->
SFleb (S754_finite false m e) (pow2 prec 0) = true ->
0 <= K -> K < emax ->
exists m' s,
  SFmul prec emax (S754_finite false m e) (pow2 prec K) =
    S754_finite false m' (e + K - s) /\
  0 <= s /\ Z.pos m' = Z.pos m * 2 ^ s.
Proof.
intros Hv Hle HK HKmax.
pose proof (emin_spec prec emax) as Hemin.
destruct (le_pow2_inv prec emax Hprec m e 0 Hv ltac:(lia) ltac:(lia) Hle)
  as (He0 & Hm0 & _).
pose proof Hv as [Hc _]%valid_binary_finite.
apply canonical_digits in Hc as (Hd & Hee & Hnorm).
pose proof (Zdigits2_pos (Z.pos m) ltac:(lia)) as Hdpos.
assert (Zdigits2 (Z.pos m) <= 1 - e) as Hdm.
{ apply Zdigits2_le; [lia|lia|].
  replace (1 - e) with (0 - e + 1) by lia. rewrite Z.pow_add_r by lia.
  change (2 ^ 1) with 2. lia. }
unfold pow2. cbn [SFmul xorb].
rewrite Pos2Z.inj_mul, pow2_mantissa by lia.
set (mx := Z.pos m * 2 ^ (prec - 1)).
set (ex := e + (K - (prec - 1))).
pose proof (Z.pow_pos_nonneg 2 (prec - 1) ltac:(lia) ltac:(lia)) as Hpp.
assert (0 < mx) as Hmx by (unfold mx; lia).
assert (Zdigits2 mx = Zdigits2 (Z.pos m) + (prec - 1)) as Hdx
  by (unfold mx; apply Zdigits2_mul_pow2; lia).
set (n := Z.max 0 (fexp (Zdigits2 mx + ex) - ex)).
assert (0 <= n <= prec - 1) as Hn.
{ unfold n. rewrite Hdx, fexp_spec. unfold ex. lia. }
assert (mx = Z.pos m * 2 ^ (prec - 1 - n) * 2 ^ n) as Hsplit.
{ unfold mx. rewrite <- Z.mul_assoc, <- Z.pow_add_r by lia.
  do 2 f_equal. lia. }
pose proof (Z.pow_pos_nonneg 2 n ltac:(lia) ltac:(lia)) as Hpn.
pose proof (Z.pow_pos_nonneg 2 (prec - 1 - n) ltac:(lia) ltac:(lia)) as Hps.
rewrite (binary_round_aux_exact_digits false mx ex Hmx); fold n.
- rewrite Hsplit, Z.div_mul by lia.
  destruct (Z.pos m * 2 ^ (prec - 1 - n)) as [|m'|m'] eqn:Hm'; try lia.
  exists m', (prec - 1 - n). split; [|lia]. f_equal. unfold ex. lia.
- lia.
- rewrite Hsplit. apply Z.mod_mul. lia.
- unfold n. rewrite Hdx, fexp_spec. unfold ex. lia.
Qed.
End Scaling.

(** ** Integer parts *)

(** The integer part does not depend on how the value is written. *)
Lemma trunc_shift m m' E s :
  0 <= s -> Z.pos m' = Z.pos m * 2 ^ s ->
  trunc (S754_finite false m' (E - s)) = trunc (S754_finite false m E).
Proof.
  intros Hs Hm. cbn [trunc cond_Zopp]. rewrite Hm.
  pose proof (Z.pow_pos_nonneg 2 s ltac:(lia) Hs) as Hps.
  destruct (Z.leb_spec 0 (E - s)) as [H1|H1], (Z.leb_spec 0 E) as [H2|H2]; try lia.
  - rewrite <- Z.mul_assoc, <- Z.pow_add_r by lia. do 2 f_equal. lia.
  - replace s with (E + (s - E)) at 1 by lia.
    rewrite Z.pow_add_r, Z.mul_assoc by lia.
    replace (- (E - s)) with (s - E) by lia.
    apply Z.div_mul. pose proof (Z.pow_pos_nonneg 2 (s - E) ltac:(lia) ltac:(lia)). lia.
  - replace (- (E - s)) with (- E + s) by lia.
    rewrite Z.pow_add_r by lia.
    apply Z.div_mul_cancel_r;
      [pose proof (Z.pow_pos_nonneg 2 (- E) ltac:(lia) ltac:(lia))|]; lia.
Qed.

Lemma trunc_nonneg m e : 0 <= trunc (S754_finite false m e).
Proof.
  cbn [trunc cond_Zopp]. destruct (Z.leb_spec 0 e).
  - pose proof (Z.pow_pos_nonneg 2 e ltac:(lia) ltac:(lia)). lia.
  - apply Z.div_pos; [lia|]. apply Z.pow_pos_nonneg; lia.
Qed.

(** The integer part of a scaled value grows with the value. *)
Lemma trunc_scaled_le ft m1 e1 m2 e2 K :
  representable ft (S754_finite false m1 e1) = true ->
  representable ft (S754_finite false m2 e2) = true ->
  SFleb (S754_finite false m1 e1) (S754_finite false m2 e2) = true ->
  trunc (S754_finite false m1 (e1 + K)) <= trunc (S754_finite false m2 (e2 + K)).
Proof.
  intros Hv1 Hv2 Hle. pose proof (fprec_gt_1 ft) as Hp.
  unfold SFleb in Hle.
  rewrite (compare_aligned_pos (fprec ft) (femax ft) ltac:(lia) _ _ _ _ Hv1 Hv2) in Hle.
  set (E := Z.min e1 e2) in *.
  pose proof (Z.pow_pos_nonneg 2 (e1 - E) ltac:(lia) ltac:(lia)) as Hp1.
  pose proof (Z.pow_pos_nonneg 2 (e2 - E) ltac:(lia) ltac:(lia)) as Hp2.
  assert (Z.pos m1 * 2 ^ (e1 - E) <= Z.pos m2 * 2 ^ (e2 - E)) as HM.
  { destruct (Z.compare_spec (Z.pos m1 * 2 ^ (e1 - E)) (Z.pos m2 * 2 ^ (e2 - E)));
      [lia|lia|discriminate]. }
  destruct (Z.pos m1 * 2 ^ (e1 - E)) as [|M1|M1] eqn:HM1; try lia.
  destruct (Z.pos m2 * 2 ^ (e2 - E)) as [|M2|M2] eqn:HM2; try lia.
  rewrite <- (trunc_shift m1 M1 (e1 + K) (e1 - E)) by lia.
  rewrite <- (trunc_shift m2 M2 (e2 + K) (e2 - E)) by lia.
  replace (e1 + K - (e1 - E)) with (E + K) by lia.
  replace (e2 + K - (e2 - E)) with (E + K) by lia.
  cbn [trunc cond_Zopp]. destruct (Z.leb_spec 0 (E + K)).
  - pose proof (Z.pow_pos_nonneg 2 (E + K) ltac:(lia) ltac:(lia)). nia.
  - apply Z.div_le_mono; [|lia]. apply Z.pow_pos_nonneg; lia.
Qed.

(** The integer part of [x * imax] for [x] in [0, 1]: the product is
    exact, so it is the integer part of the scaled digits. *)
Lemma trunc_fmul_exact ft ut z :
  uint_bits ut <= fprec ft ->
  representable ft z = true -> SFleb (of_int ft 0) z = true ->
  SFleb z (of_int ft 1) = true ->
  trunc (fmul ft z (of_int ft (2 ^ uint_bits ut))) =
  match z with
  | S754_finite _ m e => trunc (S754_finite false m (e + uint_bits ut))
  | _ => 0
  end.
Proof.
  intros Hb Hvz Hz0 Hz1.
  pose proof (fprec_gt_1 ft) as Hp. pose proof (fprec_lt_femax ft) as Hm.
  pose proof (uint_bits_pos ut) as Hk.
  rewrite of_int_imax by done. rewrite of_int_0, of_int_1 in *. unfold fmul.
  destruct (nonneg_cases z Hz0) as [Hz|[(m & e & ->)| ->]]; [| |discriminate].
  - by destruct z as [[]| | |].
  - destruct (SFmul_pow2_exact (fprec ft) (femax ft) Hp Hm m e (uint_bits ut)
                Hvz Hz1 ltac:(lia) ltac:(lia)) as (m' & s & -> & Hs & Hm').
    by apply trunc_shift.
Qed.

(** Scaling by [imax], then taking the integer part, keeps the order of
    the values of [0, 1]. *)
Lemma trunc_fmul_le ft ut x y :
  uint_bits ut <= fprec ft ->
  representable ft x = true -> SFleb (of_int ft 0) x = true ->
  SFleb x (of_int ft 1) = true ->
  representable ft y = true -> SFleb (of_int ft 0) y = true ->
  SFleb y (of_int ft 1) = true ->
  SFleb x y = true ->
  trunc (fmul ft x (of_int ft (2 ^ uint_bits ut))) <=
  trunc (fmul ft y (of_int ft (2 ^ uint_bits ut))).
Proof.
  intros Hb Hvx Hx0 Hx1 Hvy Hy0 Hy1 Hle.
  rewrite (trunc_fmul_exact ft ut x), (trunc_fmul_exact ft ut y) by done.
  rewrite of_int_0, of_int_1 in *.
  destruct (nonneg_cases x Hx0) as [Hzx|[(m1 & e1 & ->)| ->]]; [| |discriminate].
  - destruct x as [| | |]; try discriminate.
    destruct y as [| | |sy my ey]; try lia. apply trunc_nonneg.
  - destruct (nonneg_cases y Hy0) as [Hzy|[(m2 & e2 & ->)| ->]]; [| |discriminate].
    + by destruct y.
    + by apply (trunc_scaled_le ft).
Qed.

Lemma trunc_shiftl m e : trunc (S754_finite false m e) = Z.shiftl (Z.pos m) e.
Proof.
  cbn [trunc cond_Zopp]. destruct (Z.leb_spec 0 e).
  - by rewrite Z.shiftl_mul_pow2.
  - by rewrite Z.shiftl_div_pow2 by lia.
Qed.

(** X16. Quantisation has no rounding error: for an integer type that fits the
    significand and an array with all values in [0, 1], the element
    [m * 2 ^ e] is quantised to the integer part of the exact product
    [m * 2 ^ (e + bits)], capped at [imax - 1], and a zero to 0. *)
Theorem float_to_uint_floor (ft : float_dtype) (ut : uint_dtype)
    (im : ndarray spec_float) :
  uint_bits ut <= fprec ft ->
  unit_valued ft im = true ->
  exists out,
    float_to_uint ft im (DUInt ut) = Ok (UIntArray ut out) /\
    Forall2 (fun n x =>
               n = match x with
                   | S754_finite _ m e =>
                       Z.min (2 ^ uint_bits ut - 1)
                         (Z.shiftl (Z.pos m) (e + uint_bits ut))
                   | _ => 0
                   end) (data out) (data im).
Proof.
  intros Hb Hu. rewrite float_to_uint_data. eexists. split; [reflexivity|].
  cbn [amap data]. apply Forall2_map_diag.
  unfold unit_valued in Hu. rewrite forallb_Forall in Hu.
  eapply Forall_impl; [exact Hu|]. intros x Hx.
  apply andb_true_iff in Hx as [Hv Hx]. apply andb_true_iff in Hx as [H0 H1].
  destruct (quantize_range ft ut x Hb Hv H0 H1) as (Hr & -> & _).
  rewrite (trunc_fmul_exact ft ut x) by done.
  pose proof (uint_bits_pos ut).
  assert (1 <= 2 ^ uint_bits ut - 1).
  { assert (2 ^ 1 <= 2 ^ uint_bits ut) by (apply Z.pow_le_mono_r; lia). lia. }
  destruct x as [| | |s m e]; try lia. by rewrite trunc_shiftl.
Qed.

Lemma float_to_uint_floor_witness :
  exists out,
    float_to_uint float32
      (NdArray [2%nat] [S754_finite false 12582912 (-24); S754_zero false])
      (DUInt uint8) = Ok (UIntArray uint8 out) /\
    data out = [192; 0].
Proof.
  destruct (float_to_uint_floor float32 uint8
    (NdArray [2%nat] [S754_finite false 12582912 (-24); S754_zero false])
    ltac:(simpl; lia) eq_refl) as (out & Hout & Hall).
  exists out. split; [exact Hout|].
  destruct out as [sh [|n0 [|n1 [|? ?]]]]; simpl in Hall;
    inversion Hall as [|? ? ? ? Hn0 Hrest]; subst;
    inversion Hrest as [|? ? ? ? Hn1 Hnil]; subst; inversion Hnil; subst.
  reflexivity.
Defined.

(** X17. Quantisation keeps the order of the values: for an integer type that
    fits the significand and an array with all values in [0, 1], an element
    that is at most another one is quantised to at most the other's
    value. *)
Theorem float_to_uint_monotone (ft : float_dtype) (ut : uint_dtype)
    (im : ndarray spec_float) :
  uint_bits ut <= fprec ft ->
  unit_valued ft im = true ->
  exists out,
    float_to_uint ft im (DUInt ut) = Ok (UIntArray ut out) /\
    forall (i j : nat) x y n m,
      data im !! i = Some x -> data im !! j = Some y ->
      data out !! i = Some n -> data out !! j = Some m ->
      SFleb x y = true -> n <= m.
Proof.
  intros Hb Hu. rewrite float_to_uint_data. eexists. split; [reflexivity|].
  cbn [amap data]. intros i j x y n m Hx Hy Hn Hm Hle.
  unfold unit_valued in Hu. rewrite forallb_Forall, Forall_lookup in Hu.
  pose proof (Hu i x Hx) as Hux. pose proof (Hu j y Hy) as Huy. cbv beta in Hux, Huy.
  apply andb_true_iff in Hux as [Hvx Hux]. apply andb_true_iff in Hux as [Hx0 Hx1].
  apply andb_true_iff in Huy as [Hvy Huy]. apply andb_true_iff in Huy as [Hy0 Hy1].
  change (map ?f ?l) with (f <$> l) in Hn, Hm.
  rewrite list_lookup_fmap, Hx in Hn. rewrite list_lookup_fmap, Hy in Hm.
  injection Hn as <-. injection Hm as <-.
  destruct (quantize_range ft ut x Hb Hvx Hx0 Hx1) as (_ & -> & _).
  destruct (quantize_range ft ut y Hb Hvy Hy0 Hy1) as (_ & -> & _).
  pose proof (trunc_fmul_le ft ut x y Hb Hvx Hx0 Hx1 Hvy Hy0 Hy1 Hle). lia.
Qed.

Lemma float_to_uint_monotone_witness :
  exists out,
    float_to_uint float32
      (NdArray [3%nat] [of_int float32 1; S754_finite false 8388608 (-24);
                        S754_zero false]) (DUInt uint8) =
    Ok (UIntArray uint8 out) /\
    forall n m, data out !! 1%nat = Some n -> data out !! 0%nat = Some m -> n <= m.
Proof.
  destruct (float_to_uint_monotone float32 uint8
    (NdArray [3%nat] [of_int float32 1; S754_finite false 8388608 (-24);
                      S754_zero false]) ltac:(simpl; lia) eq_refl)
    as (out & Hout & Hmono).
  exists out. split; [exact Hout|]. intros n m Hn Hm.
  exact (Hmono 1%nat 0%nat _ _ n m eq_refl eq_refl Hn Hm eq_refl).
Defined.

(* ================================================================== *)
(** * The clamp and the dtype of the product *)

(** ** Conversion to a wider format *)

Section Widen.
Variables prec1 emax1 prec2 emax2 : Z.
Hypothesis Hprec1 : 1 < prec1.
Hypothesis Hprec : prec1 <= prec2.
Hypothesis Hemax : emax1 <= emax2.
Hypothesis Hemax2 : prec2 < emax2.

(** A number of the narrow format is a number of the wide one: rounding it
    there only realigns its digits. *)
Lemma binary_round_widen s m e :
valid_binary prec1 emax1 (S754_finite s m e) = true ->
exists m' k, binary_round prec2 emax2 s m e = S754_finite s m' (e - k) /\
             0 <= k /\ Z.pos m' = Z.pos m * 2 ^ k.
Proof.
intros [Hc He]%valid_binary_finite.
apply canonical_digits in Hc as (Hd & Hemin & _).
pose proof (emin_spec prec1 emax1) as He1.
pose proof (emin_spec prec2 emax2) as He2.
pose proof (Zdigits2_pos (Z.pos m) ltac:(lia)) as Hdpos.
unfold binary_round.
change (Z.pos (digits2_pos m)) with (Zdigits2 (Z.pos m)).
set (ez := fexp prec2 emax2 (Zdigits2 (Z.pos m) + e)).
assert (ez <= e /\ emin prec2 emax2 <= ez /\ ez <= emax2 - prec2) as (Hez & Hez1 & Hez2).
{ unfold ez. rewrite fexp_spec. lia. }
assert (exists mz, shl_align m e ez = (mz, ez) /\ Z.pos mz = Z.pos m * 2 ^ (e - ez))
  as (mz & -> & Hmz).
{ destruct (shl_align_cases m e ez) as [(Hlt & mz & -> & Hmz)|(Hle & ->)].
  - by exists mz.
  - assert (ez = e) as -> by lia. exists m. split; [done|].
    rewrite Z.sub_diag. change (2 ^ 0) with 1. lia. }
pose proof (Z.pow_pos_nonneg 2 (e - ez) ltac:(lia) ltac:(lia)) as Hp.
assert (Zdigits2 (Z.pos mz) + ez = Zdigits2 (Z.pos m) + e) as Hdz.
{ rewrite Hmz, Zdigits2_mul_pow2 by lia. lia. }
pose proof (binary_round_aux_exact prec2 emax2 ltac:(lia) s (Z.pos mz) ez ltac:(lia))
  as Hex.
cbv zeta in Hex. rewrite Hdz in Hex. fold ez in Hex.
rewrite Z.sub_diag in Hex. change (0 `max` 0) with 0 in Hex.
change (2 ^ 0) with 1 in Hex. rewrite Z.div_1_r, Z.add_0_r in Hex.
rewrite Hex; [|done|apply Z.mod_1_r|lia].
exists mz, (e - ez). split; [f_equal; lia|]. split; [lia|exact Hmz].
Qed.
End Widen.

(** The conversion of a float array element to a wider dtype. *)
Lemma of_float_finite ft pt s m e :
  wider ft pt ->
  representable ft (S754_finite s m e) = true ->
  exists m' k,
    of_float pt (S754_finite s m e) = S754_finite s m' (e - k) /\
    0 <= k /\ Z.pos m' = Z.pos m * 2 ^ k /\
    representable pt (S754_finite s m' (e - k)) = true.
Proof.
  intros [Hp He] Hv.
  destruct (binary_round_widen (fprec ft) (femax ft) (fprec pt) (femax pt)
              (fprec_gt_1 ft) Hp He (fprec_lt_femax pt) s m e Hv)
    as (m' & k & Hr & Hk & Hm).
  exists m', k. cbn [of_float]. split; [exact Hr|]. split; [exact Hk|].
  split; [exact Hm|]. rewrite <- Hr. apply binary_round_valid.
Qed.

Lemma of_float_one ft pt :
  wider ft pt -> of_float pt (pow2 (fprec ft) 0) = pow2 (fprec pt) 0.
Proof.
  intros [Hp He]. destruct ft, pt; simpl in Hp, He; try lia; vm_compute; reflexivity.
Qed.

(** A number of [0, 1] converted to a wider dtype is the same number of
    [0, 1]. *)
Lemma of_float_unit ft pt x :
  wider ft pt ->
  representable ft x = true ->
  SFleb (of_int ft 0) x = true -> SFleb x (of_int ft 1) = true ->
  representable pt (of_float pt x) = true /\
  SFleb (of_int pt 0) (of_float pt x) = true /\
  SFleb (of_float pt x) (of_int pt 1) = true /\
  (SFeqb x (of_int ft 1) = true -> SFeqb (of_float pt x) (of_int pt 1) = true) /\
  (SFeqb x (of_int ft 0) = true -> SFeqb (of_float pt x) (of_int pt 0) = true) /\
  match x with
  | S754_finite _ m e =>
      exists m' k, of_float pt x = S754_finite false m' (e - k) /\
                   0 <= k /\ Z.pos m' = Z.pos m * 2 ^ k
  | _ => of_float pt x = x
  end.
Proof.
  intros Hw Hv H0 H1. rewrite !of_int_0, !of_int_1 in *.
  destruct (nonneg_cases x H0) as [Hz|[(m & e & ->)| ->]]; [| |discriminate].
  - destruct x as [s| | |]; try discriminate. cbn [of_float].
    split; [done|]. split; [by destruct s|]. split; [by destruct s|].
    split; [|split; [by destruct s|done]].
    intros H. exfalso. clear -H. destruct s, ft; vm_compute in H; discriminate.
  - destruct (of_float_finite ft pt false m e Hw Hv) as (m' & k & Hr & Hk & Hm & Hv').
    pose proof (emin_le ft) as Hel. pose proof (emin_le pt) as Hel'.
    destruct (le_pow2_inv (fprec ft) (femax ft) (fprec_gt_1 ft) m e 0 Hv Hel
                ltac:(pose proof (fprec_lt_femax ft); pose proof (fprec_gt_1 ft); lia) H1)
      as (He0 & Hm0 & _).
    rewrite Hr. split; [exact Hv'|]. split; [reflexivity|].
    split; [|split; [|split; [discriminate|by exists m', k]]].
    + apply (le_pow2 (fprec pt) (femax pt) (fprec_gt_1 pt) m' (e - k) 0 Hv' Hel');
        [lia|].
      rewrite Hm. replace (0 - (e - k)) with (0 - e + k) by lia.
      rewrite Z.pow_add_r by lia.
      pose proof (Z.pow_pos_nonneg 2 k ltac:(lia) Hk). nia.
    + intros Heq. unfold pow2 in Heq at 1.
      apply SFeqb_finite_eq in Heq. rewrite <- Hr, Heq.
      fold (pow2 (fprec ft) 0). rewrite (of_float_one ft pt Hw).
      apply SFeqb_refl. reflexivity.
Qed.

(** ** The dtype numpy 1 gives the product *)

Lemma SFeqb_eq y I : SFeqb y I = true -> is_zero I = false -> y = I.
Proof.
  destruct I as [s|s| |s m e]; try discriminate.
  - intros H _. by destruct y as [|[]| |[]], s.
  - intros H. by destruct y.
  - intros H _. by apply SFeqb_finite_eq.
Qed.

Lemma numpy1_product_dtype ft ut :
  ut <> uint64 ->
  exists st,
    min_scalar_type (2 ^ uint_bits ut - 1 + 1) = Some st /\
    wider ft (promote_types ft st) /\
    uint_bits ut <= fprec (promote_types ft st).
Proof.
  intros Hut. destruct ut; try done; eexists; (split; [reflexivity|]);
    destruct ft; (split; [split|]); simpl; lia.
Qed.

Lemma float_to_uint_numpy1_data ft ut im st :
  min_scalar_type (2 ^ uint_bits ut - 1 + 1) = Some st ->
  float_to_uint_numpy1 ft im (DUInt ut) =
  Some (float_to_uint (promote_types ft st)
          (amap (of_float (promote_types ft st)) im) (DUInt ut)).
Proof.
  intros Hst. unfold float_to_uint_numpy1. rewrite Hst. cbn [mbind option_bind].
  unfold float_to_uint, iinfo_max. cbn [mbind result_bind].
  unfold amap. cbn [shape data]. by rewrite !List.map_map.
Qed.

Lemma unit_valued_In ft im x :
  unit_valued ft im = true -> In x (data im) ->
  representable ft x = true /\ SFleb (of_int ft 0) x = true /\
  SFleb x (of_int ft 1) = true.
Proof.
  intros Hu Hx. unfold unit_valued in Hu.
  rewrite List.forallb_forall in Hu. specialize (Hu x Hx).
  apply andb_true_iff in Hu as [Hv Hu]. by apply andb_true_iff in Hu as [H0 H1].
Qed.

(** X14. Whether the assignment [im[im == imax] = imax - 1] caps the result
    depends on the dtype in which numpy forms [im * imax], for an array
    with all values in [0, 1] and the types uint8, uint16 and uint32.
    numpy 1 takes the dtype from the value of [imax], and that dtype always
    holds [imax - 1]: every element of the result is between 0 and
    [imax - 1], and 1.0 goes to [imax - 1].  numpy 2 keeps the dtype of the
    array; when the integer type has more bits than its significand (uint16
    and uint32 for float16, uint32 for float32), [imax - 1] is not a value
    of that dtype and is written as [imax], which is [2 ^ bits] or an
    infinity: the assignment changes nothing, and [float_to_uint] casts the
    product as it is. *)
Theorem float_to_uint_clamp_by_promotion (ft : float_dtype) (ut : uint_dtype)
    (im : ndarray spec_float) :
  ut <> uint64 ->
  (unit_valued ft im = true ->
   exists out,
     float_to_uint_numpy1 ft im (DUInt ut) = Some (Ok (UIntArray ut out)) /\
     shape out = shape im /\
     Forall (fun n => 0 <= n <= 2 ^ uint_bits ut - 1) (data out) /\
     Forall2 (fun n x =>
                (SFeqb x (of_int ft 1) = true -> n = 2 ^ uint_bits ut - 1) /\
                (SFeqb x (of_int ft 0) = true -> n = 0))
             (data out) (data im)) /\
  (fprec ft < uint_bits ut ->
   of_int ft (2 ^ uint_bits ut - 1) = of_int ft (2 ^ uint_bits ut) /\
   (of_int ft (2 ^ uint_bits ut) = S754_infinity false \/
    of_int ft (2 ^ uint_bits ut) = pow2 (fprec ft) (uint_bits ut)) /\
   fmul ft (of_int ft 1) (of_int ft (2 ^ uint_bits ut)) =
     of_int ft (2 ^ uint_bits ut) /\
   float_to_uint ft im (DUInt ut) =
   Ok (UIntArray ut
         (amap (fun x => cast_uint ut (fmul ft x (of_int ft (2 ^ uint_bits ut))))
            im))).
Proof.
  intros Hut. split.
  - intros Hu.
    destruct (numpy1_product_dtype ft ut Hut) as (st & Hst & Hw & Hb).
    rewrite (float_to_uint_numpy1_data ft ut im st Hst), float_to_uint_data.
    set (pt := promote_types ft st) in *.
    eexists. split; [reflexivity|]. split; [reflexivity|]. cbn [amap data].
    rewrite List.map_map.
    assert (forall x, In x (data im) ->
              let q := cast_uint ut
                         (if SFeqb (fmul pt (of_float pt x) (of_int pt (2 ^ uint_bits ut)))
                                   (of_int pt (2 ^ uint_bits ut))
                          then of_int pt (2 ^ uint_bits ut - 1)
                          else fmul pt (of_float pt x) (of_int pt (2 ^ uint_bits ut))) in
              0 <= q <= 2 ^ uint_bits ut - 1 /\
              (SFeqb x (of_int ft 1) = true -> q = 2 ^ uint_bits ut - 1) /\
              (SFeqb x (of_int ft 0) = true -> q = 0)) as Hq.
    { intros x Hx q.
      destruct (unit_valued_In ft im x Hu Hx) as (Hv & H0 & H1).
      destruct (of_float_unit ft pt x Hw Hv H0 H1) as (Hv' & H0' & H1' & Hone & Hzero & _).
      destruct (quantize_range pt ut (of_float pt x) Hb Hv' H0' H1')
        as (Hr & _ & Hq1 & Hq0).
      split; [exact Hr|]. split; intros H; [apply Hq1, Hone, H|apply Hq0, Hzero, H]. }
    split.
    + apply Forall_map_intro, Forall_forall. intros x Hx.
      apply list_elem_of_In in Hx. by apply Hq.
    + apply Forall2_map_diag, Forall_forall. intros x Hx.
      apply list_elem_of_In in Hx. by apply Hq.
  - intros Hb.
    assert (of_int ft (2 ^ uint_bits ut - 1) = of_int ft (2 ^ uint_bits ut) /\
            (of_int ft (2 ^ uint_bits ut) = S754_infinity false \/
             of_int ft (2 ^ uint_bits ut) = pow2 (fprec ft) (uint_bits ut)) /\
            fmul ft (of_int ft 1) (of_int ft (2 ^ uint_bits ut)) =
              of_int ft (2 ^ uint_bits ut) /\
            is_zero (of_int ft (2 ^ uint_bits ut)) = false) as (Heq & Hcls & Hone & Hnz).
    { clear im. destruct ft, ut; try (simpl in Hb; lia); try done;
        (split; [vm_compute; reflexivity|]);
        (split; [first [left; vm_compute; reflexivity|right; vm_compute; reflexivity]|]);
        split; vm_compute; reflexivity. }
    split; [done|]. split; [done|]. split; [done|].
    rewrite float_to_uint_data. do 2 f_equal. unfold amap. f_equal.
    apply map_ext. intros x. f_equal. rewrite Heq.
    destruct (SFeqb _ _) eqn:E; [|done]. symmetry. by apply SFeqb_eq.
Qed.

Lemma float_to_uint_clamp_by_promotion_witness :
  (exists out,
     float_to_uint_numpy1 float32 (NdArray [1%nat] [of_int float32 1]) (DUInt uint32) =
       Some (Ok (UIntArray uint32 out)) /\
     Forall2 (fun n x =>
                (SFeqb x (of_int float32 1) = true -> n = 2 ^ 32 - 1) /\
                (SFeqb x (of_int float32 0) = true -> n = 0))
             (data out) [of_int float32 1]) /\
  float_to_uint float32 (NdArray [1%nat] [of_int float32 1]) (DUInt uint32) =
  Ok (UIntArray uint32
        (amap (fun x => cast_uint uint32 (fmul float32 x (of_int float32 (2 ^ 32))))
           (NdArray [1%nat] [of_int float32 1]))).
Proof.
  destruct (float_to_uint_clamp_by_promotion float32 uint32
              (NdArray [1%nat] [of_int float32 1]) ltac:(discriminate)) as [H1 H2].
  split.
  - destruct (H1 eq_refl) as (out & Hout & _ & _ & Hall).
    exists out. split; [exact Hout|exact Hall].
  - exact (proj2 (proj2 (proj2 (H2 ltac:(simpl; lia))))).
Defined.

(** X23. For an integer type with no more bits than the significand of the
    dtype of the array, and an array with all values in [0, 1], numpy 1 and
    numpy 2 return the same array: the product is exact in either dtype. *)
Theorem float_to_uint_numpy_versions_agree (ft : float_dtype) (ut : uint_dtype)
    (im : ndarray spec_float) :
  uint_bits ut <= fprec ft ->
  unit_valued ft im = true ->
  float_to_uint_numpy1 ft im (DUInt ut) = Some (float_to_uint ft im (DUInt ut)).
Proof.
  intros Hb Hu.
  assert (ut <> uint64) as Hut.
  { intros ->. destruct ft; simpl in Hb; lia. }
  destruct (numpy1_product_dtype ft ut Hut) as (st & Hst & Hw & Hb').
  rewrite (float_to_uint_numpy1_data ft ut im st Hst), !float_to_uint_data.
  set (pt := promote_types ft st) in *.
  do 3 f_equal. unfold amap. cbn [shape data]. f_equal.
  rewrite List.map_map. apply List.map_ext_in. intros x Hx.
  destruct (unit_valued_In ft im x Hu Hx) as (Hv & H0 & H1).
  destruct (of_float_unit ft pt x Hw Hv H0 H1) as (Hv' & H0' & H1' & _ & _ & Hx').
  destruct (quantize_range pt ut (of_float pt x) Hb' Hv' H0' H1') as (_ & -> & _).
  destruct (quantize_range ft ut x Hb Hv H0 H1) as (_ & -> & _).
  f_equal.
  rewrite (trunc_fmul_exact pt ut (of_float pt x) Hb' Hv' H0' H1').
  rewrite (trunc_fmul_exact ft ut x Hb Hv H0 H1).
  destruct x as [s|s| |s m e]; try (by rewrite Hx').
  destruct Hx' as (m' & k & -> & Hk & Hm).
  replace (e - k + uint_bits ut) with (e + uint_bits ut - k) by lia.
  by apply trunc_shift.
Qed.

Lemma float_to_uint_numpy_versions_agree_witness :
  float_to_uint_numpy1 float32
    (NdArray [3%nat] [S754_zero false; S754_finite false 8388608 (-24);
                      of_int float32 1]) (DUInt uint16) =
  Some (float_to_uint float32
          (NdArray [3%nat] [S754_zero false; S754_finite false 8388608 (-24);
                            of_int float32 1]) (DUInt uint16)).
Proof.
  apply (float_to_uint_numpy_versions_agree float32 uint16
    (NdArray [3%nat] [S754_zero false; S754_finite false 8388608 (-24);
                      of_int float32 1])); [simpl; lia|reflexivity].
Defined.

(* ================================================================== *)
(** * The preparation pipeline *)

(** ** When [prep_fish] returns *)

Lemma astype_length ft x : length (data (astype ft x)) = array_size x.
Proof. destruct x; simpl; by rewrite length_map. Qed.

Lemma list_index_lookup {A} (l : list A) (i : nat) x :
  l !! i = Some x -> list_index l i = Ok x.
Proof. intros H. unfold list_index. by rewrite H. Qed.

Lemma zero_one_empty ft im :
  data im = [] -> normalize_image_zero_one ft im = Raise ValueError.
Proof. intros Hd. unfold normalize_image_zero_one, np_min, reduce. by rewrite Hd. Qed.

Lemma zero_one_nonempty ft im :
  data im <> [] -> exists out, normalize_image_zero_one ft im = Ok out.
Proof.
  intros Hne.
  destruct (reduce_nonempty np_minimum im Hne) as [lo Hmin]. fold np_min in Hmin.
  destruct (reduce_nonempty np_maximum (amap (fun x => fsub ft x lo) im))
    as [hi Hmax].
  { cbn [amap data]. by destruct (data im). }
  fold np_max in Hmax.
  rewrite (normalize_image_zero_one_unfold ft im lo hi Hmin Hmax). by eexists.
Qed.

(** X18. The outcome of [prep_fish] when the accessor returns an array.
    [np.percentile], at the percentiles that are read, raises [IndexError] on
    an array with no element, as numpy's does, and returns on an array with
    elements; [np.median] returns on an array with elements.  Then
    [prep_fish] raises [IndexError] when [clip_percentiles] has fewer than
    two entries or the image has no element, and returns an array
    otherwise: on an image with no element it never reaches [np.min]. *)
Theorem prep_fish_outcome np_percentile np_median (image : AICSImage)
    (channel T : Z) (clip_percentiles : list spec_float)
    (median_subtract : bool) (math_dtype : float_dtype) (out_dtype : dtype)
    (img3d : array) :
  get_image_data_ZYX image T channel = Ok img3d ->
  (forall a q, q ∈ take 2 clip_percentiles -> data a = [] ->
     np_percentile math_dtype a q = Raise IndexError) ->
  (forall a q, q ∈ take 2 clip_percentiles -> data a <> [] ->
     exists v, np_percentile math_dtype a q = Ok v) ->
  (forall a, data a <> [] -> exists v, np_median math_dtype a = Ok v) ->
  if (length clip_percentiles <? 2)%nat || (array_size img3d =? 0)%nat then
    prep_fish np_percentile np_median image channel T clip_percentiles
      median_subtract math_dtype out_dtype = Raise IndexError
  else
    exists out,
      prep_fish np_percentile np_median image channel T clip_percentiles
        median_subtract math_dtype out_dtype = Ok out.
Proof.
  intros Himg Hempty Hperc Hmed. unfold prep_fish. rewrite Himg.
  cbn [mbind result_bind].
  set (a0 := astype math_dtype img3d).
  assert (length (data a0) = array_size img3d) as Hlen by apply astype_length.
  assert (data a0 = [] <-> array_size img3d = 0%nat) as Hnil.
  { rewrite <- Hlen. split; [by intros ->|apply length_zero_iff_nil]. }
  destruct clip_percentiles as [|q_lo [|q_hi qs]].
  - reflexivity.
  - assert (q_lo ∈ take 2 [q_lo]) as Hin by (cbn; by left).
    cbn [length Nat.ltb Nat.leb orb list_index lookup list_lookup mbind result_bind].
    destruct (Nat.eqb_spec (array_size img3d) 0) as [Hz|Hnz].
    + apply Hnil in Hz. by rewrite (Hempty a0 q_lo Hin Hz).
    + assert (data a0 <> []) as Hne0 by (by rewrite Hnil).
      by destruct (Hperc a0 q_lo Hin Hne0) as [v ->].
  - assert (q_lo ∈ take 2 (q_lo :: q_hi :: qs)) as Hin_lo by (cbn; by left).
    assert (q_hi ∈ take 2 (q_lo :: q_hi :: qs)) as Hin_hi
      by (cbn; right; by left).
    change (length (q_lo :: q_hi :: qs) <? 2)%nat with false. cbn [orb].
    rewrite (list_index_lookup _ 0 q_lo), (list_index_lookup _ 1 q_hi) by done.
    cbn [mbind result_bind].
    destruct (Nat.eqb_spec (array_size img3d) 0) as [Hz|Hnz].
    { apply Hnil in Hz. by rewrite (Hempty a0 q_lo Hin_lo Hz). }
    assert (data a0 <> []) as Hne0 by (by rewrite Hnil).
    destruct (Hperc a0 q_lo Hin_lo Hne0) as [a_min ->].
    destruct (Hperc a0 q_hi Hin_hi Hne0) as [a_max ->].
    cbn [mbind result_bind].
    set (a1 := amap _ a0).
    assert (length (data a1) = array_size img3d) as Hlen1
      by (unfold a1; cbn [amap data]; by rewrite length_map).
    assert (data a1 <> []) as Hne1.
    { intros Hd. rewrite Hd in Hlen1. simpl in Hlen1. lia. }
    match goal with
    | |- context [mbind _ ?pre] =>
        assert (exists a2, pre = Ok a2 /\ length (data a2) = array_size img3d)
          as (a2 & -> & Hlen2)
    end.
    { destruct median_subtract; [|by exists a1].
      destruct (Hmed a1 Hne1) as [med ->]. cbn [mbind result_bind].
      eexists. split; [reflexivity|]. cbn [amap data]. by rewrite !length_map. }
    cbn [mbind result_bind].
    destruct (zero_one_nonempty math_dtype a2) as [z ->].
    { intros Hd. rewrite Hd in Hlen2. simpl in Hlen2. lia. }
    cbn [mbind result_bind]. rewrite uint_in_dtype_str.
    destruct out_dtype as [ft'|ut]; [by eexists|].
    rewrite float_to_uint_data. by eexists.
Qed.

Lemma prep_fish_outcome_witness :
  (exists out,
     prep_fish
       (fun _ arr q => match data arr with
                       | [] => Raise IndexError
                       | _ => if SFeqb q (S754_zero false) then np_min arr
                              else np_max arr
                       end)
       (fun _ arr => np_min arr)
       {| get_image_data_ZYX := fun _ _ => Ok (UIntArray uint16 (NdArray [1; 1; 3]%nat [7; 7; 9])) |}
       1 0 [of_int float64 0; of_int float64 100] true float64 (DUInt uint16) = Ok out) /\
  prep_fish
    (fun _ arr q => match data arr with
                    | [] => Raise IndexError
                    | _ => if SFeqb q (S754_zero false) then np_min arr
                           else np_max arr
                    end)
    (fun _ arr => np_min arr)
    {| get_image_data_ZYX := fun _ _ => Ok (UIntArray uint16 (NdArray [1; 1; 0]%nat [])) |}
    1 0 [of_int float64 0; of_int float64 100] true float64 (DUInt uint16)
  = Raise IndexError.
Proof.
  assert (forall (arr : ndarray spec_float) q, data arr <> [] ->
            exists v, match data arr with
                      | [] => Raise IndexError
                      | _ => if SFeqb q (S754_zero false) then np_min arr
                             else np_max arr
                      end = Ok v) as Hperc.
  { intros arr q Hne. destruct (data arr) as [|x xs] eqn:Hd; [done|].
    destruct (SFeqb q (S754_zero false)); unfold np_min, np_max, reduce;
      rewrite Hd; by eexists. }
  assert (forall arr : ndarray spec_float, data arr <> [] ->
            exists v, np_min arr = Ok v) as Hmed.
  { intros arr Hne. unfold np_min, reduce.
    destruct (data arr); [done|by eexists]. }
  split.
  - apply (prep_fish_outcome _ (fun _ arr => np_min arr)
      {| get_image_data_ZYX := fun _ _ => Ok (UIntArray uint16 (NdArray [1; 1; 3]%nat [7; 7; 9])) |}
      1 0 [of_int float64 0; of_int float64 100] true float64 (DUInt uint16) _ eq_refl).
    + intros arr q _ Hd. rewrite Hd. reflexivity.
    + intros arr q _ Hne. exact (Hperc arr q Hne).
    + exact Hmed.
  - apply (prep_fish_outcome _ (fun _ arr => np_min arr)
      {| get_image_data_ZYX := fun _ _ => Ok (UIntArray uint16 (NdArray [1; 1; 0]%nat [])) |}
      1 0 [of_int float64 0; of_int float64 100] true float64 (DUInt uint16) _ eq_refl).
    + intros arr q _ Hd. rewrite Hd. reflexivity.
    + intros arr q _ Hne. exact (Hperc arr q Hne).
    + exact Hmed.
Defined.

(** ** The values [prep_fish] returns for an integer image *)

Section Pipeline.
Variable np_percentile :
  float_dtype -> ndarray spec_float -> spec_float -> result spec_float.
Variable np_median : float_dtype -> ndarray spec_float -> result spec_float.
Variables (image : AICSImage) (channel T : Z).
Variables (clip_percentiles : list spec_float) (median_subtract : bool).
Variables (math_dtype : float_dtype) (ut_in : uint_dtype) (a : ndarray Z).
Variables (q_lo q_hi : spec_float).

Local Abbreviation K := (uint_bits ut_in).

Hypothesis Himage : get_image_data_ZYX image T channel = Ok (UIntArray ut_in a).
Hypothesis Hne : data a <> [].
Hypothesis Hdata : Forall (fun n => 0 <= n < 2 ^ K) (data a).
Hypothesis HK : K < femax math_dtype.
Hypothesis Hq_lo : clip_percentiles !! 0%nat = Some q_lo.
Hypothesis Hq_hi : clip_percentiles !! 1%nat = Some q_hi.
Hypothesis Hperc : forall arr q,
  q = q_lo \/ q = q_hi ->
  data arr <> [] -> Forall (in_range math_dtype K) (data arr) ->
  exists v, np_percentile math_dtype arr q = Ok v /\ in_range math_dtype K v.
Hypothesis Hmed : forall arr,
  data arr <> [] -> Forall (in_range math_dtype K) (data arr) ->
  exists v, np_median math_dtype arr = Ok v /\ in_range math_dtype K v.

(** The array that reaches the last step: in [0, 1], with a zero, and with
    a one unless all its elements are zero. *)
Lemma prep_fish_normalised out_dtype :
exists z,
  prep_fish np_percentile np_median image channel T clip_percentiles
    median_subtract math_dtype out_dtype =
  (if str_contains "uint" (dtype_str out_dtype)
   then float_to_uint math_dtype z out_dtype
   else Ok (FloatArray math_dtype z)) /\
  shape z = shape a /\
  Forall (in_unit math_dtype) (data z) /\
  Exists (fun x => is_zero x = true) (data z) /\
  (Forall (fun x => is_zero x = true) (data z) \/
   pow2 (fprec math_dtype) 0 ∈ data z).
Proof.
pose proof (uint_bits_pos ut_in) as HK0.
unfold prep_fish. rewrite Himage. cbn [mbind result_bind astype].
rewrite (list_index_lookup _ 0 q_lo), (list_index_lookup _ 1 q_hi) by done.
cbn [mbind result_bind].
set (a0 := amap (of_int math_dtype) a).
assert (data a0 <> [] /\ Forall (in_range math_dtype K) (data a0) /\
        shape a0 = shape a) as (Hne0 & Hr0 & Hs0).
{ unfold a0. cbn [amap data shape]. split; [by destruct (data a)|]. split; [|done].
  apply Forall_map_intro. eapply Forall_impl; [exact Hdata|]. intros n Hn.
  cbv beta in Hn. apply of_int_in_range; lia. }
destruct (Hperc a0 q_lo (or_introl eq_refl) Hne0 Hr0) as (a_min & -> & Hmin).
destruct (Hperc a0 q_hi (or_intror eq_refl) Hne0 Hr0) as (a_max & -> & Hmax).
cbn [mbind result_bind].
set (a1 := amap _ a0).
assert (data a1 <> [] /\ Forall (in_range math_dtype K) (data a1) /\
        shape a1 = shape a) as (Hne1 & Hr1 & Hs1).
{ unfold a1. cbn [amap data shape]. split; [by destruct (data a0)|]. split; [|done].
  apply Forall_map_intro. eapply Forall_impl; [exact Hr0|]. intros x Hx.
  by apply clip_in_range. }
match goal with
| |- context [mbind _ ?pre] =>
    assert (exists a2, pre = Ok a2 /\ data a2 <> [] /\
              Forall (in_range math_dtype K) (data a2) /\ shape a2 = shape a)
      as (a2 & -> & Hne2 & Hr2 & Hs2)
end.
{ destruct median_subtract; [|by exists a1].
  destruct (Hmed a1 Hne1 Hr1) as (med & -> & Hmedr). cbn [mbind result_bind].
  eexists. split; [reflexivity|]. cbn [amap data shape].
  split; [by destruct (data a1)|]. split; [|done].
  do 2 apply Forall_map_intro. eapply Forall_impl; [exact Hr1|]. intros x Hx.
  apply mask_in_range. by apply fsub_in_range; try lia. }
cbn [mbind result_bind].
destruct (in_range_shifted_max math_dtype K a2 ltac:(lia) HK Hne2 Hr2)
  as (hi & Hsm & Hhi).
destruct (normalize_image_zero_one_spec math_dtype a2 hi
            (in_range_all_finite _ _ _ Hr2) Hsm Hhi)
  as (z & -> & Hsz & Hu & Hz & Hcase).
cbn [mbind result_bind]. exists z. split; [done|]. split; [congruence|].
split; [done|]. split; [done|].
destruct (is_constant a2); [by left|by right].
Qed.
End Pipeline.

(** The least and the largest element are within the range of the data. *)
Lemma np_min_in_range ft K arr :
  data arr <> [] -> Forall (in_range ft K) (data arr) ->
  exists v, np_min arr = Ok v /\ in_range ft K v.
Proof.
  intros Hne Hr. destruct (reduce_nonempty np_minimum arr Hne) as [lo Hmin].
  fold np_min in Hmin. exists lo. split; [done|].
  destruct (np_min_spec ft arr lo (in_range_all_finite _ _ _ Hr) Hmin) as [Hin _].
  rewrite Forall_forall in Hr. by apply Hr.
Qed.

Lemma np_max_in_range ft K arr :
  data arr <> [] -> Forall (in_range ft K) (data arr) ->
  exists v, np_max arr = Ok v /\ in_range ft K v.
Proof.
  intros Hne Hr. destruct (reduce_nonempty np_maximum arr Hne) as [hi Hmax].
  fold np_max in Hmax. exists hi. split; [done|].
  apply reduce_cons in Hmax as (x & xs & Hd & ->).
  destruct (fold_np_maximum xs x) as [Hin _].
  - rewrite <- Hd. eapply Forall_impl; [exact Hr|].
    intros y (_ & Hy & _). by apply nonneg_not_nan.
  - rewrite <- Hd in Hin. rewrite Forall_forall in Hr. by apply Hr.
Qed.

(** X19. For an image of unsigned integers with at least one element, a float
    dtype wide enough for its values, and [np.percentile], at the two
    percentiles that are read, and [np.median] returning values within the
    range of the data they are given:
    [prep_fish] with a floating [out_dtype] returns an array of the shape of
    the image in [math_dtype], with all elements in [0, 1], minimum 0, and
    maximum exactly 1 unless every element is 0. *)
Theorem prep_fish_float_range np_percentile np_median (image : AICSImage)
    (channel T : Z) (clip_percentiles : list spec_float)
    (median_subtract : bool) (math_dtype ft' : float_dtype)
    (ut_in : uint_dtype) (a : ndarray Z) (q_lo q_hi : spec_float) :
  get_image_data_ZYX image T channel = Ok (UIntArray ut_in a) ->
  data a <> [] ->
  Forall (fun n => 0 <= n < 2 ^ uint_bits ut_in) (data a) ->
  uint_bits ut_in < femax math_dtype ->
  clip_percentiles !! 0%nat = Some q_lo ->
  clip_percentiles !! 1%nat = Some q_hi ->
  (forall arr q,
     q = q_lo \/ q = q_hi ->
     data arr <> [] -> Forall (in_range math_dtype (uint_bits ut_in)) (data arr) ->
     exists v, np_percentile math_dtype arr q = Ok v /\
               in_range math_dtype (uint_bits ut_in) v) ->
  (forall arr,
     data arr <> [] -> Forall (in_range math_dtype (uint_bits ut_in)) (data arr) ->
     exists v, np_median math_dtype arr = Ok v /\
               in_range math_dtype (uint_bits ut_in) v) ->
  exists z,
    prep_fish np_percentile np_median image channel T clip_percentiles
      median_subtract math_dtype (DFloat ft') = Ok (FloatArray math_dtype z) /\
    shape z = shape a /\
    unit_valued math_dtype z = true /\
    (exists lo, np_min z = Ok lo /\ SFeqb lo (of_int math_dtype 0) = true) /\
    (np_max z = Ok (of_int math_dtype 1) \/
     Forall (fun x => SFeqb x (of_int math_dtype 0) = true) (data z)).
Proof.
  intros Himage Hne Hdata HK Hq_lo Hq_hi Hperc Hmed.
  destruct (prep_fish_normalised np_percentile np_median image channel T
              clip_percentiles median_subtract math_dtype ut_in a q_lo q_hi
              Himage Hne Hdata HK Hq_lo Hq_hi Hperc Hmed (DFloat ft'))
    as (z & Hz & Hs & Hu & Hzero & Hcase).
  rewrite uint_in_dtype_str in Hz.
  exists z. split; [done|]. split; [done|].
  split; [by apply in_unit_unit_valued|]. split.
  - destruct (unit_array_min math_dtype z Hu Hzero) as (lo & Hlo & Hzlo).
    exists lo. split; [done|]. by apply SFeqb_zeros.
  - destruct Hcase as [Hall|Hone].
    + right. eapply Forall_impl; [exact Hall|]. intros x Hx. by apply SFeqb_zeros.
    + left. rewrite of_int_1. by apply unit_array_max.
Qed.

Lemma prep_fish_float_range_witness :
  exists z,
    prep_fish (fun _ arr q => if SFeqb q (S754_zero false) then np_min arr else np_max arr)
      (fun _ arr => np_min arr)
      {| get_image_data_ZYX := fun _ _ => Ok (UIntArray uint16 (NdArray [1; 1; 3]%nat [7; 9; 8])) |}
      1 0 [of_int float64 0; of_int float64 100] true float64 (DFloat float32)
    = Ok (FloatArray float64 z) /\
    unit_valued float64 z = true.
Proof.
  destruct (prep_fish_float_range
    (fun _ arr q => if SFeqb q (S754_zero false) then np_min arr else np_max arr)
    (fun _ arr => np_min arr)
    {| get_image_data_ZYX := fun _ _ => Ok (UIntArray uint16 (NdArray [1; 1; 3]%nat [7; 9; 8])) |}
    1 0 [of_int float64 0; of_int float64 100] true float64 float32 uint16
    (NdArray [1; 1; 3]%nat [7; 9; 8]) (of_int float64 0) (of_int float64 100)
    eq_refl ltac:(discriminate) ltac:(repeat constructor; simpl; lia)
    ltac:(simpl; lia) eq_refl eq_refl)
    as (z & Hz & _ & Hu & _).
  - intros arr q _ Hne Hr. destruct (SFeqb q (S754_zero false));
      [by apply np_min_in_range|by apply np_max_in_range].
  - intros arr Hne Hr. by apply np_min_in_range.
  - exists z. split; [exact Hz|exact Hu].
Defined.

(** X20. Under the same conditions, [prep_fish] with [out_dtype] one of the
    scalar types [np.uint8], [np.uint16] and [np.uint32] that has no more
    bits than the significand of [math_dtype] (the defaults, float64 and
    uint16, among them; the text uint occurs in the [str] of each, so the
    quantisation runs) returns an array of that type and of the shape of the
    image whose elements are between 0 and [imax - 1]; 0 is among them, and
    [imax - 1] too unless every element is 0. *)
Theorem prep_fish_uint_range np_percentile np_median (image : AICSImage)
    (channel T : Z) (clip_percentiles : list spec_float)
    (median_subtract : bool) (math_dtype : float_dtype)
    (ut_in ut : uint_dtype) (a : ndarray Z) (q_lo q_hi : spec_float) :
  get_image_data_ZYX image T channel = Ok (UIntArray ut_in a) ->
  data a <> [] ->
  Forall (fun n => 0 <= n < 2 ^ uint_bits ut_in) (data a) ->
  uint_bits ut_in < femax math_dtype ->
  uint_bits ut <= fprec math_dtype ->
  clip_percentiles !! 0%nat = Some q_lo ->
  clip_percentiles !! 1%nat = Some q_hi ->
  (forall arr q,
     q = q_lo \/ q = q_hi ->
     data arr <> [] -> Forall (in_range math_dtype (uint_bits ut_in)) (data arr) ->
     exists v, np_percentile math_dtype arr q = Ok v /\
               in_range math_dtype (uint_bits ut_in) v) ->
  (forall arr,
     data arr <> [] -> Forall (in_range math_dtype (uint_bits ut_in)) (data arr) ->
     exists v, np_median math_dtype arr = Ok v /\
               in_range math_dtype (uint_bits ut_in) v) ->
  exists q,
    prep_fish np_percentile np_median image channel T clip_percentiles
      median_subtract math_dtype (DUInt ut) = Ok (UIntArray ut q) /\
    shape q = shape a /\
    Forall (fun n => 0 <= n <= 2 ^ uint_bits ut - 1) (data q) /\
    0 ∈ data q /\
    ((2 ^ uint_bits ut - 1) ∈ data q \/ Forall (fun n => n = 0) (data q)).
Proof.
  intros Himage Hne Hdata HK Hb Hq_lo Hq_hi Hperc Hmed.
  destruct (prep_fish_normalised np_percentile np_median image channel T
              clip_percentiles median_subtract math_dtype ut_in a q_lo q_hi
              Himage Hne Hdata HK Hq_lo Hq_hi Hperc Hmed (DUInt ut))
    as (z & Hz & Hs & Hu & Hzero & Hcase).
  rewrite uint_in_dtype_str in Hz.
  destruct (float_to_uint_unit math_dtype ut z Hb Hu)
    as (q & Hq & Hqs & Hr & H0 & Hall & Hone).
  exists q. split; [congruence|]. split; [congruence|]. split; [done|].
  split; [by apply H0|].
  destruct Hcase; [right; by apply Hall|left; by apply Hone].
Qed.

Lemma prep_fish_uint_range_witness :
  exists q,
    prep_fish (fun _ arr q => if SFeqb q (S754_zero false) then np_min arr else np_max arr)
      (fun _ arr => np_min arr)
      {| get_image_data_ZYX := fun _ _ => Ok (UIntArray uint16 (NdArray [1; 1; 3]%nat [7; 9; 8])) |}
      1 0 [of_int float64 0; of_int float64 100] true float64 (DUInt uint16)
    = Ok (UIntArray uint16 q) /\
    Forall (fun n => 0 <= n <= 65535) (data q) /\ 0 ∈ data q.
Proof.
  destruct (prep_fish_uint_range
    (fun _ arr q => if SFeqb q (S754_zero false) then np_min arr else np_max arr)
    (fun _ arr => np_min arr)
    {| get_image_data_ZYX := fun _ _ => Ok (UIntArray uint16 (NdArray [1; 1; 3]%nat [7; 9; 8])) |}
    1 0 [of_int float64 0; of_int float64 100] true float64 uint16 uint16
    (NdArray [1; 1; 3]%nat [7; 9; 8]) (of_int float64 0) (of_int float64 100)
    eq_refl ltac:(discriminate) ltac:(repeat constructor; simpl; lia)
    ltac:(simpl; lia) ltac:(simpl; lia) eq_refl eq_refl)
    as (q & Hq & _ & Hr & H0 & _).
  - intros arr q _ Hne Hr. destruct (SFeqb q (S754_zero false));
      [by apply np_min_in_range|by apply np_max_in_range].
  - intros arr Hne Hr. by apply np_min_in_range.
  - exists q. split; [exact Hq|]. split; [exact Hr|exact H0].
Defined.

(* ================================================================== *)
(** * Arrays that are not modified *)

Lemma preserved_refl σ : preserved σ σ.
Proof. by intros l x. Qed.

Lemma preserved_trans σ1 σ2 σ3 :
  preserved σ1 σ2 -> preserved σ2 σ3 -> preserved σ1 σ3.
Proof. intros H1 H2 l x Hl. by apply H2, H1. Qed.

Lemma preserved_fresh σ0 σ l : preserved σ0 σ -> σ !! l = None -> σ0 !! l = None.
Proof.
  intros H Hl. destruct (σ0 !! l) as [x|] eqn:E; [|done].
  apply H in E. congruence.
Qed.

(** Writing to an object that did not exist at the start. *)
Lemma preserved_insert σ0 σ l (x : array) :
  preserved σ0 σ -> σ0 !! l = None -> preserved σ0 (<[l := x]> σ).
Proof.
  intros H Hl l' y Hl'. rewrite lookup_insert_ne by congruence. by apply H.
Qed.

Ltac step_alloc :=
  match goal with
  | |- context [alloc ?x ?s] =>
      let l := fresh "l" in
      let E := fresh "E" in
      let Hl := fresh "Hl" in
      destruct (alloc x s) as [l ?] eqn:E;
      apply alloc_fresh in E as [Hl ->]
  end.

Lemma normalize_image_zero_one_obj_spec σ im ft a :
  σ !! im = Some (FloatArray ft a) ->
  exists r σ',
    normalize_image_zero_one_obj im σ = Some (r, σ') /\
    preserved σ σ' /\
    match r with
    | Ok res =>
        σ !! res = None /\
        exists z, σ' !! res = Some (FloatArray ft z) /\
                  normalize_image_zero_one ft a = Ok z
    | Raise e => normalize_image_zero_one ft a = Raise e
    end.
Proof.
  intros Him.
  unfold normalize_image_zero_one_obj, normalize_image_zero_one.
  unfold mbind at 1, obj_bind, read_float at 1. rewrite Him.
  unfold mbind at 1, pure_step at 1.
  destruct (np_min a) as [lo|e].
  2:{ eexists _, _. split; [reflexivity|]. split; [apply preserved_refl|done]. }
  cbn [mbind result_bind]. unfold mbind at 1, new at 1. step_alloc.
  unfold mbind at 1, read_float at 1. rewrite lookup_insert_eq.
  unfold mbind at 1, pure_step at 1.
  assert (preserved σ (<[l := FloatArray ft (amap (fun x => fsub ft x lo) a)]> σ)) as Hp1
    by (apply preserved_insert; [apply preserved_refl|done]).
  destruct (np_max (amap (fun x => fsub ft x lo) a)) as [hi|e].
  2:{ eexists _, _. split; [reflexivity|]. split; [done|done]. }
  cbn [mbind result_bind]. destruct (SFltb (S754_zero false) hi).
  - unfold mbind at 1, obj_bind, pure_step. unfold new. step_alloc.
    eexists _, _. split; [reflexivity|]. split.
    + apply preserved_insert; [done|]. by apply (preserved_fresh _ _ _ Hp1).
    + split; [by apply (preserved_fresh _ _ _ Hp1)|].
      eexists. split; [apply lookup_insert_eq|done].
  - eexists _, _. split; [reflexivity|]. split; [done|]. split; [done|].
    eexists. split; [apply lookup_insert_eq|done].
Qed.

Lemma float_to_uint_obj_spec σ im ft a ut :
  σ !! im = Some (FloatArray ft a) ->
  exists res σ',
    float_to_uint_obj im ut σ = Some (res, σ') /\
    preserved σ σ' /\ σ !! res = None /\
    exists y, σ' !! res = Some y /\ float_to_uint ft a (DUInt ut) = Ok y.
Proof.
  intros Him. unfold float_to_uint_obj. rewrite Him. step_alloc.
  rewrite lookup_alter_eq, lookup_insert_eq. cbn [fmap option_fmap option_map].
  step_alloc.
  rewrite lookup_alter in Hl0. destruct (decide (l = l0)) as [->|Hne].
  { by rewrite lookup_insert_eq in Hl0. }
  rewrite lookup_insert_ne in Hl0 by done.
  eexists _, _. split; [reflexivity|]. split; [|split; [done|]].
  - intros l' x Hl'. rewrite lookup_insert_ne by congruence.
    rewrite lookup_alter_ne by congruence. by rewrite lookup_insert_ne by congruence.
  - eexists. split; [apply lookup_insert_eq|]. reflexivity.
Qed.

(** X21. [zero_one] does not modify the array it is given.  Called on a live
    array of floats it either raises, as on values, or returns a reference
    to an array that did not exist before the call and holds the
    normalised values; the argument and every other array alive before the
    call hold the same elements afterwards.  A constant input is no
    exception: the array returned is the new one made by the subtraction. *)
Theorem zero_one_input_unchanged (σ : store) (im : positive)
    (ft : float_dtype) (a : ndarray spec_float) :
  σ !! im = Some (FloatArray ft a) ->
  exists r σ',
    normalize_image_zero_one_obj im σ = Some (r, σ') /\
    σ' !! im = Some (FloatArray ft a) /\
    (forall l x, σ !! l = Some x -> σ' !! l = Some x) /\
    match r with
    | Ok res =>
        res <> im /\
        exists z, σ' !! res = Some (FloatArray ft z) /\
                  normalize_image_zero_one ft a = Ok z
    | Raise e => normalize_image_zero_one ft a = Raise e
    end.
Proof.
  intros Him.
  destruct (normalize_image_zero_one_obj_spec σ im ft a Him) as (r & σ' & Hrun & Hp & Hr).
  exists r, σ'. split; [done|]. split; [by apply Hp|]. split; [exact Hp|].
  destruct r as [res|e]; [|done]. destruct Hr as [Hfresh Hz].
  split; [congruence|done].
Qed.

Lemma zero_one_input_unchanged_witness :
  exists r σ',
    normalize_image_zero_one_obj 1%positive
      {[ 1%positive := FloatArray float64 (NdArray [2%nat] [of_int float64 3; of_int float64 3]) ]}
      = Some (r, σ') /\
    σ' !! 1%positive =
      Some (FloatArray float64 (NdArray [2%nat] [of_int float64 3; of_int float64 3])).
Proof.
  destruct (zero_one_input_unchanged
    {[ 1%positive := FloatArray float64 (NdArray [2%nat] [of_int float64 3; of_int float64 3]) ]}
    1%positive float64 _ (lookup_singleton_eq _ _)) as (r & σ' & H1 & H2 & _).
  exists r, σ'. split; [exact H1|exact H2].
Defined.

(** ** Running a computation *)

Lemma run_bind {A B} (m : obj A) (k : A -> obj B) σ :
  (m ≫= k) σ =
  match m σ with
  | Some (Ok a, σ') => k a σ'
  | Some (Raise e, σ') => Some (Raise e, σ')
  | None => None
  end.
Proof. reflexivity. Qed.

Lemma run_pure_ok {A B} (a : A) (k : A -> obj B) σ :
  (pure_step (Ok a) ≫= k) σ = k a σ.
Proof. reflexivity. Qed.

Lemma run_pure_raise {A B} e (k : A -> obj B) σ :
  (pure_step (Raise e) ≫= k) σ = Some (Raise e, σ).
Proof. reflexivity. Qed.

Lemma run_mret {A B} (a : A) (k : A -> obj B) σ : (mret a ≫= k) σ = k a σ.
Proof. reflexivity. Qed.

Lemma run_new {B} x (k : positive -> obj B) σ :
  (new x ≫= k) σ = k (fresh (dom σ)) (<[fresh (dom σ) := x]> σ).
Proof. reflexivity. Qed.

Lemma run_read {B} l x (k : array -> obj B) σ :
  σ !! l = Some x -> (read l ≫= k) σ = k x σ.
Proof. intros H. unfold mbind, obj_bind, read. by rewrite H. Qed.

Lemma run_read_float {B} l ft a
    (k : float_dtype * ndarray spec_float -> obj B) σ :
  (read_float l ≫= k) (<[l := FloatArray ft a]> σ) =
  k (ft, a) (<[l := FloatArray ft a]> σ).
Proof. unfold mbind, obj_bind, read_float. by rewrite lookup_insert_eq. Qed.

Lemma run_update_float {B} l f ft a (k : unit -> obj B) σ :
  (update_float l f ≫= k) (<[l := FloatArray ft a]> σ) =
  k tt (<[l := FloatArray ft (f ft a)]> σ).
Proof.
  unfold mbind, obj_bind, update_float.
  by rewrite lookup_insert_eq, insert_insert_eq.
Qed.

Lemma run_assoc {A B C} (m : obj A) (k1 : A -> obj B) (k2 : B -> obj C) σ :
  ((m ≫= k1) ≫= k2) σ = (m ≫= (fun a => k1 a ≫= k2)) σ.
Proof.
  unfold mbind, obj_bind. by destruct (m σ) as [[[a|e] σ']|].
Qed.

Lemma fresh_dom (σ : store) : σ !! fresh (dom σ) = None.
Proof. apply not_elem_of_dom, is_fresh. Qed.

Lemma result_bind_ok {A B} (a : A) (k : A -> result B) : (Ok a ≫= k) = k a.
Proof. reflexivity. Qed.

Lemma result_bind_raise {A B} e (k : A -> result B) : (Raise e ≫= k) = Raise e.
Proof. reflexivity. Qed.

(** X22. [prep_fish] never modifies the array that the accessor returned, nor
    any other array alive before the call, although it subtracts the median
    and clears the negative values in place: those updates act on the array
    made by [np.clip].  On objects it raises exactly when [prep_fish] on
    values raises, with the same exception, and otherwise returns a
    reference to an array that did not exist before the call and holds the
    array that [prep_fish] on values returns. *)
Theorem prep_fish_input_unchanged np_percentile np_median (σ : store)
    (img3d : positive) (x : array) (clip_percentiles : list spec_float)
    (median_subtract : bool) (math_dtype : float_dtype) (out_dtype : dtype) :
  σ !! img3d = Some x ->
  exists r σ',
    prep_fish_obj np_percentile np_median img3d clip_percentiles
      median_subtract math_dtype out_dtype σ = Some (r, σ') /\
    σ' !! img3d = Some x /\
    (forall l y, σ !! l = Some y -> σ' !! l = Some y) /\
    forall channel T,
      match r with
      | Ok res =>
          res <> img3d /\ σ !! res = None /\
          exists y, σ' !! res = Some y /\
            prep_fish np_percentile np_median
              {| get_image_data_ZYX := fun _ _ => Ok x |} channel T
              clip_percentiles median_subtract math_dtype out_dtype = Ok y
      | Raise e =>
          prep_fish np_percentile np_median
            {| get_image_data_ZYX := fun _ _ => Ok x |} channel T
            clip_percentiles median_subtract math_dtype out_dtype = Raise e
      end.
Proof.
  intros Himg.
  cut (exists r σ',
         prep_fish_obj np_percentile np_median img3d clip_percentiles
           median_subtract math_dtype out_dtype σ = Some (r, σ') /\
         preserved σ σ' /\
         match r with
         | Ok res =>
             σ !! res = None /\
             exists y, σ' !! res = Some y /\
               prep_fish np_percentile np_median
                 {| get_image_data_ZYX := fun _ _ => Ok x |} 0 0
                 clip_percentiles median_subtract math_dtype out_dtype = Ok y
         | Raise e =>
             prep_fish np_percentile np_median
               {| get_image_data_ZYX := fun _ _ => Ok x |} 0 0
               clip_percentiles median_subtract math_dtype out_dtype = Raise e
         end).
  { intros (r & σ' & Hrun & Hp & Hr). exists r, σ'.
    split; [done|]. split; [by apply Hp|]. split; [exact Hp|].
    intros channel T. destruct r as [res|e]; [|exact Hr].
    destruct Hr as [Hfresh Hy]. split; [congruence|]. split; [done|exact Hy]. }
  unfold prep_fish_obj.
  rewrite (run_read _ _ _ _ Himg), run_new, run_read_float. cbv beta iota.
  pose proof (fresh_dom σ) as Hl1. set (l1 := fresh (dom σ)) in *.
  set (a0 := astype math_dtype x).
  set (σ1 := <[l1 := FloatArray math_dtype a0]> σ).
  assert (preserved σ σ1) as Hp1
    by (apply preserved_insert; [apply preserved_refl|done]).
  assert (prep_fish np_percentile np_median
            {| get_image_data_ZYX := fun _ _ => Ok x |} 0 0
            clip_percentiles median_subtract math_dtype out_dtype =
          (q_lo ← list_index clip_percentiles 0;
           a_min ← np_percentile math_dtype a0 q_lo;
           q_hi ← list_index clip_percentiles 1;
           a_max ← np_percentile math_dtype a0 q_hi;
           a2 ← (if median_subtract then
                   med ← np_median math_dtype
                           (amap (fun x => np_minimum (np_maximum x a_min) a_max) a0);
                   Ok (amap (fun x => if SFltb x (S754_zero false)
                                      then S754_zero false else x)
                         (amap (fun x => fsub math_dtype x med)
                            (amap (fun x => np_minimum (np_maximum x a_min) a_max) a0)))
                 else Ok (amap (fun x => np_minimum (np_maximum x a_min) a_max) a0));
           z ← normalize_image_zero_one math_dtype a2;
           if str_contains "uint" (dtype_str out_dtype)
           then float_to_uint math_dtype z out_dtype
           else Ok (FloatArray math_dtype z))) as Hval by done.
  rewrite Hval. clear Hval.
  destruct (list_index clip_percentiles 0) as [q_lo|e].
  2:{ rewrite run_pure_raise, result_bind_raise. eexists _, _.
      split; [reflexivity|]. by split. }
  rewrite run_pure_ok, result_bind_ok.
  destruct (np_percentile math_dtype a0 q_lo) as [a_min|e].
  2:{ rewrite run_pure_raise, result_bind_raise. eexists _, _.
      split; [reflexivity|]. by split. }
  rewrite run_pure_ok, result_bind_ok.
  destruct (list_index clip_percentiles 1) as [q_hi|e].
  2:{ rewrite run_pure_raise, result_bind_raise. eexists _, _.
      split; [reflexivity|]. by split. }
  rewrite run_pure_ok, result_bind_ok.
  destruct (np_percentile math_dtype a0 q_hi) as [a_max|e].
  2:{ rewrite run_pure_raise, result_bind_raise. eexists _, _.
      split; [reflexivity|]. by split. }
  rewrite run_pure_ok, result_bind_ok, run_new.
  assert (σ !! fresh (dom σ1) = None) as Hl2
    by (apply (preserved_fresh _ _ _ Hp1), fresh_dom).
  set (l2 := fresh (dom σ1)) in *.
  set (a1 := amap (fun x => np_minimum (np_maximum x a_min) a_max) a0) in *.
  assert (preserved σ (<[l2 := FloatArray math_dtype a1]> σ1)) as Hp2
    by (by apply preserved_insert).
  (* the array that reaches the normalisation *)
  assert (forall (k : unit -> obj positive) (kv : ndarray spec_float -> result array),
            (forall a2, exists r σ',
                 k tt (<[l2 := FloatArray math_dtype a2]> σ1) = Some (r, σ') /\
                 preserved σ σ' /\
                 match r with
                 | Ok res => σ !! res = None /\
                             exists y, σ' !! res = Some y /\ kv a2 = Ok y
                 | Raise e => kv a2 = Raise e
                 end) ->
            exists r σ',
              ((if median_subtract then
                  '(_, a) ← read_float l2;
                  med ← pure_step (np_median math_dtype a);
                  _ ← update_float l2 (fun ft => amap (fun x => fsub ft x med));
                  update_float l2
                    (fun _ => amap (fun x => if SFltb x (S754_zero false)
                                             then S754_zero false else x))
                else mret tt) ≫= k) (<[l2 := FloatArray math_dtype a1]> σ1)
              = Some (r, σ') /\
              preserved σ σ' /\
              match r with
              | Ok res =>
                  σ !! res = None /\
                  exists y, σ' !! res = Some y /\
                    (a2 ← (if median_subtract then
                             med ← np_median math_dtype a1;
                             Ok (amap (fun x => if SFltb x (S754_zero false)
                                                then S754_zero false else x)
                                   (amap (fun x => fsub math_dtype x med) a1))
                           else Ok a1); kv a2) = Ok y
              | Raise e =>
                  (a2 ← (if median_subtract then
                           med ← np_median math_dtype a1;
                           Ok (amap (fun x => if SFltb x (S754_zero false)
                                              then S754_zero false else x)
                                 (amap (fun x => fsub math_dtype x med) a1))
                         else Ok a1); kv a2) = Raise e
              end) as Hmid.
  { intros k kv Hk. destruct median_subtract.
    - rewrite run_assoc, run_read_float. cbv beta iota.
      rewrite run_assoc.
      destruct (np_median math_dtype a1) as [med|e].
      2:{ rewrite run_pure_raise, result_bind_raise. eexists _, _.
          split; [reflexivity|]. by split. }
      rewrite run_pure_ok, run_assoc, run_update_float, run_update_float.
      rewrite !result_bind_ok. apply Hk.
    - rewrite run_mret, result_bind_ok. apply Hk. }
  apply Hmid; clear Hmid. intros a2.
  set (σ2 := <[l2 := FloatArray math_dtype a2]> σ1).
  assert (preserved σ σ2) as Hp2'.
  { apply preserved_insert; [|done]. done. }
  destruct (normalize_image_zero_one_obj_spec σ2 l2 math_dtype a2)
    as (r & σ3 & Hrun & Hp3 & Hr); [apply lookup_insert_eq|].
  rewrite run_bind, Hrun.
  destruct r as [l3|e].
  2:{ eexists _, _. split; [reflexivity|]. split.
      - by eapply preserved_trans.
      - by rewrite Hr. }
  destruct Hr as (Hl3 & z & Hz & ->). rewrite result_bind_ok.
  rewrite uint_in_dtype_str. destruct out_dtype as [ft'|ut].
  - eexists _, _. split; [reflexivity|]. split; [by eapply preserved_trans|].
    split; [by apply (preserved_fresh _ _ _ Hp2')|]. by exists (FloatArray math_dtype z).
  - destruct (float_to_uint_obj_spec σ3 l3 math_dtype z ut Hz)
      as (res & σ4 & Hrun4 & Hp4 & Hres & y & Hy & Hval).
    rewrite Hrun4. eexists _, _. split; [reflexivity|].
    split; [eapply preserved_trans; [|exact Hp4]; by eapply preserved_trans|].
    split; [|by exists y].
    apply (preserved_fresh _ _ _ Hp2'), (preserved_fresh _ _ _ Hp3), Hres.
Qed.

Lemma prep_fish_input_unchanged_witness :
  exists r σ',
    prep_fish_obj (fun _ arr _ => np_min arr) (fun _ arr => np_min arr) 1%positive
      [of_int float64 0; of_int float64 100] true float64 (DUInt uint16)
      {[ 1%positive := UIntArray uint16 (NdArray [1; 1; 2]%nat [7; 9]) ]}
    = Some (r, σ') /\
    σ' !! 1%positive = Some (UIntArray uint16 (NdArray [1; 1; 2]%nat [7; 9])).
Proof.
  destruct (prep_fish_input_unchanged
    (fun _ arr _ => np_min arr) (fun _ arr => np_min arr)
    {[ 1%positive := UIntArray uint16 (NdArray [1; 1; 2]%nat [7; 9]) ]}
    1%positive _ [of_int float64 0; of_int float64 100] true float64 (DUInt uint16)
    (lookup_singleton_eq _ _)) as (r & σ' & H1 & H2 & _).
  exists r, σ'. split; [exact H1|exact H2].
Defined.
